(** * backend/llm.py: streaming adapters over three model providers

    A shallow embedding of [backend/llm.py].  Python objects live in a
    store indexed by locations, so that the in-place updates the code
    performs on its arguments (the shallow [dict(message)] copies, the
    [messages += ...] of the two-pass loop) are visible to the caller.
    Every function is a state transformer over a [world] that records the
    store, what the sink callback received, what was printed, and what was
    handed to the transport. *)

From Stdlib Require Import ZArith Ascii.
From stdpp Require Import gmap strings list fin_maps pretty relations.

Set Warnings "-register-all,-clear-no-such-hyp".

(** ** Exceptions and outcomes *)

(** The Python exceptions the module can meet.  [ClientError] is botocore's;
    its argument is [err.response["Error"]["Message"]] when the response
    carries one.  [Exception_] is a bare [Exception(msg)]; [TransportError]
    stands for any other exception class raised by a client library. *)
Inductive exn :=
| ClientError (message : option string)
| IndexError
| KeyError (key : string)
| TypeError
| AttributeError
| ValueError (what : string)
| RecursionError
| Exception_ (msg : string)
| TransportError (name : string).

Inductive outcome (A : Type) :=
| Ret (a : A)
| Exc (e : exn).
Arguments Ret {A} a.
Arguments Exc {A} e.

Definition obind {A B} (o : outcome A) (k : A → outcome B) : outcome B :=
  match o with
  | Ret a => k a
  | Exc e => Exc e
  end.

(** [l[i]] on a Python list. *)
Definition py_index {A} (l : list A) (i : nat) : outcome A :=
  match l !! i with
  | Some x => Ret x
  | None => Exc IndexError
  end.

(** ** Strings: [str.split] *)

(** [split_aux sep skip s] scans [s] left to right; [skip] counts the
    characters of an already matched separator that are still to be
    dropped.  The head of the result is the token being built. *)
Fixpoint split_aux (sep : string) (skip : nat) (s : string) : list string :=
  match s with
  | EmptyString => [EmptyString]
  | String c s' =>
      match skip with
      | S k => split_aux sep k s'
      | O =>
          if String.prefix sep s
          then EmptyString :: split_aux sep (String.length sep - 1) s'
          else match split_aux sep 0 s' with
               | t :: ts => String c t :: ts
               | [] => [String c EmptyString]
               end
      end
  end.

(** [s.split(sep)] for a non-empty [sep] (every call site passes a
    literal). *)
Definition split (sep s : string) : list string := split_aux sep 0 s.

(** [c in s] for a single character [c]. *)
Fixpoint contains_char (c : ascii) (s : string) : bool :=
  match s with
  | EmptyString => false
  | String c' s' => if Ascii.eqb c c' then true else contains_char c s'
  end.

(** ** The model enumeration *)

(** [class Llm(Enum)] *)
Inductive Llm :=
| GPT_4_VISION
| GPT_4_TURBO_2024_04_09
| CLAUDE_3_SONNET
| CLAUDE_3_OPUS
| CLAUDE_3_HAIKU.

Global Instance Llm_eq_dec : EqDecision Llm.
Proof. solve_decision. Defined.

(** [model.value] *)
Definition Llm_value (m : Llm) : string :=
  match m with
  | GPT_4_VISION => "gpt-4-vision-preview"
  | GPT_4_TURBO_2024_04_09 => "gpt-4-turbo-2024-04-09"
  | CLAUDE_3_SONNET => "claude-3-sonnet-20240229"
  | CLAUDE_3_OPUS => "claude-3-opus-20240229"
  | CLAUDE_3_HAIKU => "claude-3-haiku-20240307"
  end.

Definition Llm_members : list Llm :=
  [GPT_4_VISION; GPT_4_TURBO_2024_04_09; CLAUDE_3_SONNET; CLAUDE_3_OPUS;
   CLAUDE_3_HAIKU].

Section enum_lookup.
(** The builtin [repr] on a [str]: the text between quotes, with the
    escapes Python chooses.  It lives outside this module. *)
Variable repr : string → string.

(** [Llm(s)]: lookup of a member by value; when none has it,
    [ValueError("%r is not a valid %s" % (s, "Llm"))]. *)
Definition Llm_of_value (s : string) : outcome Llm :=
  match List.find (λ m, String.eqb (Llm_value m) s) Llm_members with
  | Some m => Ret m
  | None => Exc (ValueError (repr s +:+ " is not a valid Llm"))
  end.

(** [convert_frontend_str_to_llm] *)
Definition convert_frontend_str_to_llm (frontend_str : string) : outcome Llm :=
  if String.eqb frontend_str "gpt_4_vision" then Ret GPT_4_VISION
  else if String.eqb frontend_str "claude_3_sonnet" then Ret CLAUDE_3_SONNET
  else Llm_of_value frontend_str.
End enum_lookup.

(** ** Python values and the object store *)

Definition loc := positive.

(** Immediate values; dictionaries and lists are reached through [VRef].
    [VFloat m e] is the decimal [m * 10^e]. *)
Inductive val :=
| VNone
| VBool (b : bool)
| VInt (z : Z)
| VFloat (m e : Z)
| VStr (s : string)
| VRef (l : loc).
Arguments VRef l%_positive.

(** A dictionary keeps its items in insertion order, as Python does. *)
Inductive obj :=
| ODict (items : list (string * val))
| OList (elems : list val).

Section dict.
Context {V : Type}.

Fixpoint dict_get (k : string) (d : list (string * V)) : option V :=
  match d with
  | [] => None
  | (k', v) :: d' => if String.eqb k k' then Some v else dict_get k d'
  end.

(** [d[k] = v]: overwrite in place, or append a new item. *)
Fixpoint dict_set (k : string) (v : V) (d : list (string * V)) : list (string * V) :=
  match d with
  | [] => [(k, v)]
  | (k', v') :: d' =>
      if String.eqb k k' then (k, v) :: d' else (k', v') :: dict_set k v d'
  end.

(** [del d[k]] *)
Fixpoint dict_del (k : string) (d : list (string * V)) : list (string * V) :=
  match d with
  | [] => []
  | (k', v') :: d' =>
      if String.eqb k k' then dict_del k d' else (k', v') :: dict_del k d'
  end.
End dict.

(** ** JSON documents *)

(** What [json.loads] returns and what [json.dumps] serialises, as a tree;
    the textual encoding is left to the library. *)
Inductive json :=
| JNull
| JBool (b : bool)
| JInt (z : Z)
| JFloat (m e : Z)
| JStr (s : string)
| JList (xs : list json)
| JObj (kvs : list (string * json)).

(** [j[k]] for a string key [k] on a decoded JSON value. *)
Definition json_getitem (j : json) (k : string) : outcome json :=
  match j with
  | JObj kvs =>
      match dict_get k kvs with
      | Some v => Ret v
      | None => Exc (KeyError k)
      end
  | _ => Exc TypeError
  end.

(** [j == s] for a string literal [s]. *)
Definition json_eq_str (j : json) (s : string) : bool :=
  match j with
  | JStr t => String.eqb t s
  | _ => false
  end.

(** [acc += text] on a [str] accumulator. *)
Definition str_iadd (acc : string) (text : json) : outcome string :=
  match text with
  | JStr t => Ret (acc +:+ t)
  | _ => Exc TypeError
  end.

(** ** Transports *)

(** A finite event stream: the [items] arrive in order, after which the
    stream is exhausted or the client library raises [failure]. *)
Record pystream (A : Type) := Stream { items : list A; failure : option exn }.
Arguments Stream {A} items failure.
Arguments items {A} p.
Arguments failure {A} p.

(** Direct API: [chunk.choices[i].delta.content]. *)
Record choice := Choice { delta_content : option string }.
Record ChatCompletionChunk := ChatChunk { choices : list choice }.

(** Native SDK: the final message of a stream. *)
Inductive content_block :=
| TextBlock (text : string)
| ToolUseBlock.
Record Usage := MkUsage { input_tokens : Z; output_tokens : Z }.
Record Message := MkMessage { content : list content_block; usage : Usage }.
Record MessageStream :=
  MkMessageStream { text_stream : pystream string; final_message : Message }.

(** [block.text] *)
Definition block_text (b : content_block) : outcome string :=
  match b with
  | TextBlock t => Ret t
  | ToolUseBlock => Exc AttributeError
  end.

(** Managed gateway: one event of the response stream.  [NoChunk] is an
    event whose ["chunk"] is absent or empty; [Chunk b] carries
    [chunk.get("bytes")], represented by what
    [json.loads(bytes.decode())] returns or raises on it. *)
Inductive event :=
| NoChunk
| Chunk (bytes : option (outcome json)).

(** The response dictionary of [invoke_model_with_response_stream]:
    [response.get("body")], and whether it holds any other key. *)
Record BedrockResponse :=
  MkBedrockResponse { body : option (pystream event); metadata : bool }.

(** Truth value of the response dictionary: true unless it is empty. *)
Definition response_truthy (r : BedrockResponse) : bool :=
  match body r with
  | Some _ => true
  | None => metadata r
  end.

(** What the code hands to a client library. *)
Inductive request :=
| OpenAIRequest (api_key : string) (base_url : option string)
    (params : list (string * val))
| AnthropicRequest (api_key model : string) (max_tokens : Z)
    (temperature system messages : val)
| BedrockRequest (access_key secret_access_key : string) (body : json)
    (modelId accept contentType : string).

(** A request together with the store at the moment it was issued: the
    references in it are read by the client library at that moment. *)
Record sent := Sent { sent_request : request; sent_store : gmap loc obj }.

(** ** The world *)

Record world := World {
  heap : gmap loc obj;          (* Python objects *)
  sink : list json;             (* arguments of the callback, in order *)
  stdout : list string;         (* what [print] wrote *)
  net : list sent;              (* requests issued, in order *)
  files : list (string * string) (* debug files written *)
}.

Definition M (A : Type) : Type := world → outcome A * world.

Definition ret {A} (a : A) : M A := λ w, (Ret a, w).
Definition raise {A} (e : exn) : M A := λ w, (Exc e, w).
Definition bind {A B} (m : M A) (k : A → M B) : M B :=
  λ w, match m w with
       | (Ret a, w') => k a w'
       | (Exc e, w') => (Exc e, w')
       end.
Definition lift {A} (o : outcome A) : M A := λ w, (o, w).

Declare Scope py_scope.
Delimit Scope py_scope with py.
Notation "x <- m ;; k" := (bind m (λ x, k))
  (at level 100, m at next level, right associativity) : py_scope.
Notation "m ;; k" := (bind m (λ _, k))
  (at level 100, right associativity) : py_scope.
Local Open Scope py_scope.

(** [try: body  except ...: handler] with the handler applied to whatever
    the body raises. *)
Definition try_except {A} (body : M A) (handler : exn → M A) : M A :=
  λ w, match body w with
       | (Ret a, w') => (Ret a, w')
       | (Exc e, w') => handler e w'
       end.

Definition get_heap : M (gmap loc obj) := λ w, (Ret (heap w), w).

(** The world [w] with its store replaced. *)
Definition with_heap (w : world) (h : gmap loc obj) : world :=
  World h (sink w) (stdout w) (net w) (files w).

Definition set_heap (h : gmap loc obj) : M unit :=
  λ w, (Ret tt, with_heap w h).

(** A new object at a location the store does not use yet. *)
Definition alloc (o : obj) : M val :=
  λ w, let l := fresh (dom (heap w)) in
       (Ret (VRef l), with_heap w (<[l := o]> (heap w))).

(** [await callback(text)]: the sink records its argument and returns. *)
Definition callback (text : json) : M unit :=
  λ w, (Ret tt, World (heap w) (sink w ++ [text]) (stdout w) (net w) (files w)).

(** [print(s)] *)
Definition print (s : string) : M unit :=
  λ w, (Ret tt, World (heap w) (sink w) (stdout w ++ [s]) (net w) (files w)).

(** [debug_file_writer.write_to_file(name, text)] *)
Definition write_to_file (name text : string) : M unit :=
  λ w, (Ret tt, World (heap w) (sink w) (stdout w) (net w) (files w ++ [(name, text)])).

(** Record a request, with the store as it is now. *)
Definition send (r : request) : M unit :=
  λ w, (Ret tt,
        World (heap w) (sink w) (stdout w) (net w ++ [Sent r (heap w)]) (files w)).

(** Ask the environment: the transport sees the whole world, the request
    just recorded included. *)
Definition ask {A} (transport : world → outcome A) : M A :=
  λ w, (transport w, w).

(** [for x in xs: body], threading the loop-carried locals. *)
Fixpoint for_each {A S} (xs : list A) (body : A → S → M S) (s : S) : M S :=
  match xs with
  | [] => ret s
  | x :: xs' => s' <- body x s ;; for_each xs' body s'
  end.

(** Iteration over a transport stream: the items, then its failure. *)
Definition for_stream {A S} (st : pystream A) (body : A → S → M S) (s : S) : M S :=
  s' <- for_each (items st) body s ;;
  match failure st with
  | Some e => raise e
  | None => ret s'
  end.

(** ** Operations on stored objects *)

(** [v[k]] for a string key [k]. *)
Definition getitem (v : val) (k : string) : M val :=
  λ w, match v with
       | VRef l =>
           match heap w !! l with
           | Some (ODict d) =>
               match dict_get k d with
               | Some x => (Ret x, w)
               | None => (Exc (KeyError k), w)
               end
           | _ => (Exc TypeError, w)
           end
       | _ => (Exc TypeError, w)
       end.

(** [v[k] = x] *)
Definition setitem (v : val) (k : string) (x : val) : M unit :=
  λ w, match v with
       | VRef l =>
           match heap w !! l with
           | Some (ODict d) => set_heap (<[l := ODict (dict_set k x d)]> (heap w)) w
           | _ => (Exc TypeError, w)
           end
       | _ => (Exc TypeError, w)
       end.

(** [del v[k]] *)
Definition delitem (v : val) (k : string) : M unit :=
  λ w, match v with
       | VRef l =>
           match heap w !! l with
           | Some (ODict d) =>
               match dict_get k d with
               | Some _ => set_heap (<[l := ODict (dict_del k d)]> (heap w)) w
               | None => (Exc (KeyError k), w)
               end
           | _ => (Exc TypeError, w)
           end
       | _ => (Exc TypeError, w)
       end.

(** [v.get(k)] *)
Definition dict_method_get (v : val) (k : string) : M val :=
  λ w, match v with
       | VRef l =>
           match heap w !! l with
           | Some (ODict d) => (Ret (default VNone (dict_get k d)), w)
           | _ => (Exc AttributeError, w)
           end
       | _ => (Exc AttributeError, w)
       end.

(** The elements of a list object, for indexing, slicing and iteration. *)
Definition list_elems (v : val) : M (list val) :=
  λ w, match v with
       | VRef l =>
           match heap w !! l with
           | Some (OList xs) => (Ret xs, w)
           | _ => (Exc TypeError, w)
           end
       | _ => (Exc TypeError, w)
       end.

(** [isinstance(v, list)] *)
Definition is_list (h : gmap loc obj) (v : val) : bool :=
  match v with
  | VRef l => match h !! l with Some (OList _) => true | _ => false end
  | _ => false
  end.

(** [dict(v)]: a new dictionary with the items of [v]; the values are
    shared with [v]. *)
Definition dict_copy (v : val) : M val :=
  λ w, match v with
       | VRef l =>
           match heap w !! l with
           | Some (ODict d) => alloc (ODict d) w
           | _ => (Exc TypeError, w)
           end
       | _ => (Exc TypeError, w)
       end.

(** [v == s] for a string literal [s]. *)
Definition val_eq_str (v : val) (s : string) : bool :=
  match v with
  | VStr t => String.eqb t s
  | _ => false
  end.

(** [v.split(sep)] *)
Definition str_split (v : val) (sep : string) : outcome (list string) :=
  match v with
  | VStr s => Ret (split sep s)
  | _ => Exc AttributeError
  end.

(** ** Message translation (lines 84-107 and 151-174, the same text) *)

(** Lines 97-98 and 164-165: media type and payload of a data URL. *)
Definition parse_data_url (image_data_url : val) : outcome (string * string) :=
  obind (str_split image_data_url ";") (λ by_semicolon,
  obind (py_index by_semicolon 0) (λ scheme_and_type,
  obind (py_index (split ":" scheme_and_type) 1) (λ media_type,
  obind (str_split image_data_url ",") (λ by_comma,
  obind (py_index by_comma 1) (λ base64_data,
  Ret (media_type, base64_data)))))).

(** The body of [for content in message["content"]]. *)
Definition translate_part (content : val) : M unit :=
  ty <- getitem content "type" ;;
  if val_eq_str ty "image_url" then
    setitem content "type" (VStr "image") ;;
    image_url <- getitem content "image_url" ;;
    image_data_url <- getitem image_url "url" ;;
    parsed <- lift (parse_data_url image_data_url) ;;
    delitem content "image_url" ;;
    source <- alloc (ODict [("type", VStr "base64");
                            ("media_type", VStr parsed.1);
                            ("data", VStr parsed.2)]) ;;
    setitem content "source" source
  else ret tt.

(** The body of [for message in claude_messages]. *)
Definition translate_message (message : val) : M unit :=
  message_content <- getitem message "content" ;;
  h <- get_heap ;;
  if is_list h message_content then
    parts <- list_elems message_content ;;
    for_each parts (λ part _, translate_part part) tt
  else ret tt.

(** [[dict(message) for message in xs]] *)
Fixpoint copy_all (xs : list val) : M (list val) :=
  match xs with
  | [] => ret []
  | message :: xs' =>
      c <- dict_copy message ;;
      cs <- copy_all xs' ;;
      ret (c :: cs)
  end.

(** From the caller's [messages] to [(system_prompt, claude_messages)]. *)
Definition translate_messages (messages : val) : M (val * val) :=
  ms <- list_elems messages ;;
  first <- lift (py_index ms 0) ;;
  system_prompt <- dict_method_get first "content" ;;
  copies <- copy_all (tail ms) ;;
  claude_messages <- alloc (OList copies) ;;
  for_each copies (λ message _, translate_message message) tt ;;
  ret (system_prompt, claude_messages).

(** ** [json.dumps] *)

Section dumps.
Context (rec : val → option (outcome json)).

Fixpoint dumps_elems (vs : list val) : option (outcome (list json)) :=
  match vs with
  | [] => Some (Ret [])
  | v :: vs' =>
      match rec v with
      | None => None
      | Some (Exc e) => Some (Exc e)
      | Some (Ret j) =>
          match dumps_elems vs' with
          | None => None
          | Some (Exc e) => Some (Exc e)
          | Some (Ret js) => Some (Ret (j :: js))
          end
      end
  end.

Fixpoint dumps_items (d : list (string * val)) : option (outcome (list (string * json))) :=
  match d with
  | [] => Some (Ret [])
  | (k, v) :: d' =>
      match rec v with
      | None => None
      | Some (Exc e) => Some (Exc e)
      | Some (Ret j) =>
          match dumps_items d' with
          | None => None
          | Some (Exc e) => Some (Exc e)
          | Some (Ret kjs) => Some (Ret ((k, j) :: kjs))
          end
      end
  end.
End dumps.

(** The encoder walks the value depth first.  [seen] holds the containers
    on the current path (the encoder's [markers]); meeting one of them
    again is its "Circular reference detected".  [None] is the fuel
    running out, which [dumps_fuel_enough] below excludes. *)
Fixpoint dumps_aux (fuel : nat) (h : gmap loc obj) (seen : list loc) (v : val)
  : option (outcome json) :=
  match fuel with
  | O => None
  | S n =>
      match v with
      | VNone => Some (Ret JNull)
      | VBool b => Some (Ret (JBool b))
      | VInt z => Some (Ret (JInt z))
      | VFloat m e => Some (Ret (JFloat m e))
      | VStr s => Some (Ret (JStr s))
      | VRef l =>
          if bool_decide (l ∈ seen)
          then Some (Exc (ValueError "Circular reference detected"))
          else
            match h !! l with
            | None => Some (Exc TypeError)
            | Some (OList vs) =>
                match dumps_elems (dumps_aux n h (l :: seen)) vs with
                | None => None
                | Some (Exc e) => Some (Exc e)
                | Some (Ret js) => Some (Ret (JList js))
                end
            | Some (ODict d) =>
                match dumps_items (dumps_aux n h (l :: seen)) d with
                | None => None
                | Some (Exc e) => Some (Exc e)
                | Some (Ret kjs) => Some (Ret (JObj kjs))
                end
            end
      end
  end.

Definition json_dumps (h : gmap loc obj) (v : val) : outcome json :=
  match dumps_aux (S (size h)) h [] v with
  | Some r => r
  | None => Exc RecursionError
  end.

(** ** The single-pass adapters *)

(** The body of [async for chunk in stream] in [stream_openai_response]. *)
Definition openai_chunk_step (chunk : ChatCompletionChunk) (full_response : string)
  : M string :=
  first_choice <- lift (py_index (choices chunk) 0) ;;
  let content := default "" (delta_content first_choice) in
  let full_response := full_response +:+ content in
  callback (JStr content) ;;
  ret full_response.

(** [stream_openai_response]: the sink of the model is the [callback]
    parameter of the source, the transport is what
    [client.chat.completions.create] answers.  [openai_params] is its
    [params] dictionary. *)
Definition openai_params (messages : val) (model : Llm) : list (string * val) :=
  let params := [("model", VStr (Llm_value model));
                 ("messages", messages);
                 ("stream", VBool true);
                 ("timeout", VInt 600);
                 ("temperature", VFloat 0 (-1))] in
  if bool_decide (model = GPT_4_VISION) || bool_decide (model = GPT_4_TURBO_2024_04_09)
  then dict_set "max_tokens" (VInt 4096) params
  else params.

Definition stream_openai_response
    (transport : world → outcome (pystream ChatCompletionChunk))
    (messages : val) (api_key : string) (base_url : option string)
    (model : Llm) : M string :=
  let params := openai_params messages model in
  send (OpenAIRequest api_key base_url params) ;;
  stream <- ask transport ;;
  full_response <- for_stream stream openai_chunk_step "" ;;
  ret full_response.

(** [stream_claude_response] *)
Definition stream_claude_response
    (transport : world → outcome MessageStream)
    (messages : val) (api_key : string) : M string :=
  let model := CLAUDE_3_SONNET in
  let max_tokens := 4096%Z in
  let temperature := VFloat 0 (-1) in
  translated <- translate_messages messages ;;
  let system_prompt := translated.1 in
  let claude_messages := translated.2 in
  send (AnthropicRequest api_key (Llm_value model) max_tokens temperature
          system_prompt claude_messages) ;;
  stream <- ask transport ;;
  for_stream (text_stream stream) (λ text _, callback (JStr text)) tt ;;
  let response := final_message stream in
  first_block <- lift (py_index (content response) 0) ;;
  lift (block_text first_block).

(** Lines 198-203 and 375-380: the text of a content-delta event, [None]
    for an event that carries none. *)
Definition decode_event (ev : event) : outcome (option json) :=
  match ev with
  | NoChunk => Ret None
  | Chunk None => Exc AttributeError
  | Chunk (Some parsed) =>
      obind parsed (λ chunk_obj,
      obind (json_getitem chunk_obj "type") (λ ty,
      if json_eq_str ty "content_block_delta" then
        obind (json_getitem chunk_obj "delta") (λ delta,
        obind (json_getitem delta "text") (λ text,
        Ret (Some text)))
      else Ret None))
  end.

(** The two [except] clauses shared by both managed-gateway functions. *)
Definition bedrock_except (err : exn) : M (option string) :=
  match err with
  | ClientError response_message =>
      match response_message with
      | Some message =>
          print ("A client error occurred: " +:+ message) ;;
          ret None
      | None => raise (KeyError "Message")
      end
  | _ =>
      print "An error occurred!" ;;
      raise err
  end.

(** The request body of both managed-gateway functions. *)
Definition bedrock_body (max_tokens : Z) (messages system temperature : val)
  : M json :=
  h <- get_heap ;;
  messages_json <- lift (json_dumps h messages) ;;
  system_json <- lift (json_dumps h system) ;;
  temperature_json <- lift (json_dumps h temperature) ;;
  ret (JObj [("anthropic_version", JStr "bedrock-2023-05-31");
             ("max_tokens", JInt max_tokens);
             ("messages", messages_json);
             ("system", system_json);
             ("temperature", temperature_json)]).

(** The body of [for event in stream] in
    [stream_claude_response_aws_bedrock]. *)
Definition bedrock_event_step (ev : event) (final_message : string) : M string :=
  decoded <- lift (decode_event ev) ;;
  match decoded with
  | Some text =>
      callback text ;;
      lift (str_iadd final_message text)
  | None => ret final_message
  end.

(** [stream_claude_response_aws_bedrock]; the result is [None] where the
    Python function falls off its end. *)
Definition stream_claude_response_aws_bedrock
    (transport : world → outcome BedrockResponse)
    (messages : val) (access_key secret_access_key : string)
  : M (option string) :=
  try_except
    (let model_id := "anthropic.claude-3-sonnet-20240229-v1:0" in
     let max_tokens := 4096%Z in
     let content_type := "application/json" in
     let accept := "*/*" in
     translated <- translate_messages messages ;;
     let system_prompt := translated.1 in
     let claude_messages := translated.2 in
     request_body <- bedrock_body max_tokens claude_messages system_prompt
                       (VFloat 0 (-1)) ;;
     send (BedrockRequest access_key secret_access_key request_body
             model_id accept content_type) ;;
     response <- ask transport ;;
     final_message <-
       match body response with
       | Some stream => for_stream stream bedrock_event_step ""
       | None => ret ""
       end ;;
     ret (Some final_message))
    bedrock_except.

(** ** The two-pass orchestrators *)

Definition prefix : string := "<thinking>".

Definition follow_up : string :=
  "You've done a good job with a first draft. Improve this further based on the original instructions so that the app is fully functional and looks like the original video of the app we're trying to replicate.".

Definition max_passes : nat := 2.

(** [v += xs] on a list object: the object is extended in place. *)
Definition list_extend (v : val) (xs : list val) : M unit :=
  λ w, match v with
       | VRef l =>
           match heap w !! l with
           | Some (OList ys) => set_heap (<[l := OList (ys ++ xs)]> (heap w)) w
           | _ => (Exc TypeError, w)
           end
       | _ => (Exc TypeError, w)
       end.

(** [messages + [{"role": "assistant", "content": prefix}] if
    include_thinking else messages] *)
Definition messages_to_send (include_thinking : bool) (messages : val) : M val :=
  if include_thinking then
    provisional <- alloc (ODict [("role", VStr "assistant");
                                 ("content", VStr prefix)]) ;;
    current <- list_elems messages ;;
    alloc (OList (current ++ [provisional]))
  else ret messages.

(** [messages += [{assistant turn}, {user follow-up}]] *)
Definition append_next_pass (messages : val) (response_text : string) : M unit :=
  assistant_turn <- alloc (ODict [("role", VStr "assistant");
                                  ("content", VStr (prefix +:+ response_text))]) ;;
  user_turn <- alloc (ODict [("role", VStr "user");
                             ("content", VStr follow_up)]) ;;
  list_extend messages [assistant_turn; user_turn].

(** The body of [async for text in stream.text_stream] in
    [stream_claude_response_native]. *)
Definition native_text_step (text : string) (full_stream : string) : M string :=
  print text ;;
  let full_stream := full_stream +:+ text in
  callback (JStr text) ;;
  ret full_stream.

(** The body of [for event in stream] in
    [stream_claude_response_native_aws_bedrock]; the locals it updates are
    [response_text] and [full_stream]. *)
Definition bedrock_pass_event_step (ev : event) (acc : string * string)
  : M (string * string) :=
  decoded <- lift (decode_event ev) ;;
  match decoded with
  | Some text =>
      response_text <- lift (str_iadd acc.1 text) ;;
      print (match text with JStr t => t | _ => "" end) ;;
      full_stream <- lift (str_iadd acc.2 text) ;;
      callback text ;;
      ret (response_text, full_stream)
  | None => ret acc
  end.

Section orchestrators.
(** Collaborators that live outside this module: the flag
    [config.IS_DEBUG_ENABLED], [DebugFileWriter.extract_html_content],
    and what [utils.pprint_prompt] prints for a value in a store (or
    raises). *)
Variable IS_DEBUG_ENABLED : bool.
Variable extract_html_content : string → string.
Variable pprint_prompt_text : gmap loc obj → val → outcome string.

Definition pprint_prompt (v : val) : M unit :=
  h <- get_heap ;;
  text <- lift (pprint_prompt_text h v) ;;
  print text.

(** [response.content[0].text] *)
Definition response_first_text (response : Message) : M string :=
  first_block <- lift (py_index (content response) 0) ;;
  lift (block_text first_block).

Section native.
Variable transport : world → outcome MessageStream.
Variable system_prompt : string.
Variable messages : val.
Variable api_key : string.
Variable include_thinking : bool.
Variable model : Llm.

(** The body of the [while] loop, after [current_pass_num += 1]: one
    pass.  It returns the new values of the locals [response] and
    [full_stream]. *)
Definition native_pass (current_pass_num : nat) (full_stream : string)
  : M (Message * string) :=
  to_send <- messages_to_send include_thinking messages ;;
  pprint_prompt to_send ;;
  send (AnthropicRequest api_key (Llm_value model) 4096 (VFloat 0 (-1))
          (VStr system_prompt) to_send) ;;
  stream <- ask transport ;;
  full_stream <- for_stream (text_stream stream) native_text_step full_stream ;;
  let response := final_message stream in
  response_text <- response_first_text response ;;
  (if IS_DEBUG_ENABLED then
     write_to_file ("pass_" +:+ pretty (current_pass_num - 1) +:+ ".html")
       (extract_html_content response_text) ;;
     thinking <- lift (py_index (split "</thinking>" response_text) 0) ;;
     write_to_file ("thinking_pass_" +:+ pretty (current_pass_num - 1) +:+ ".txt")
       thinking
   else ret tt) ;;
  text_again <- response_first_text response ;;
  append_next_pass messages text_again ;;
  print ("Token usage: Input Tokens: " +:+ pretty (input_tokens (usage response))
         +:+ ", Output Tokens: " +:+ pretty (output_tokens (usage response))) ;;
  ret (response, full_stream).

(** The [while current_pass_num <= max_passes] loop, by recursion on
    the number of passes still to run, [max_passes + 1 -
    current_pass_num]. *)
Fixpoint native_passes (remaining current_pass_num : nat)
    (response : option Message) (full_stream : string)
  : M (option Message * string) :=
  match remaining with
  | O => ret (response, full_stream)
  | S remaining' =>
      let current_pass_num := S current_pass_num in
      pass <- native_pass current_pass_num full_stream ;;
      native_passes remaining' current_pass_num (Some pass.1) pass.2
  end.

(** [stream_claude_response_native] *)
Definition stream_claude_response_native : M string :=
  let current_pass_num := 1 in
  looped <- native_passes (max_passes + 1 - current_pass_num) current_pass_num
              None "" ;;
  let response := looped.1 in
  let full_stream := looped.2 in
  (if IS_DEBUG_ENABLED then write_to_file "full_stream.txt" full_stream
   else ret tt) ;;
  match response with
  | None => raise (Exception_ "No HTML response found in AI response")
  | Some response => response_first_text response
  end.
End native.

Section bedrock.
Variable transport : world → outcome BedrockResponse.
Variable system_prompt : string.
Variable messages : val.
Variable access_key secret_access_key : string.
Variable include_thinking : bool.

(** One pass of the managed-gateway orchestrator; it returns the new
    values of the locals [response] (the response dictionary) and
    [full_stream]. *)
Definition bedrock_pass (full_stream : string)
  : M (BedrockResponse * string) :=
  to_send <- messages_to_send include_thinking messages ;;
  pprint_prompt to_send ;;
  request_body <- bedrock_body 4096 to_send (VStr system_prompt)
                    (VFloat 0 (-1)) ;;
  send (BedrockRequest access_key secret_access_key request_body
          "anthropic.claude-3-sonnet-20240229-v1:0" "*/*" "application/json") ;;
  response <- ask transport ;;
  streamed <-
    match body response with
    | Some stream => for_stream stream bedrock_pass_event_step ("", full_stream)
    | None => ret ("", full_stream)
    end ;;
  let response_text := streamed.1 in
  let full_stream := streamed.2 in
  append_next_pass messages response_text ;;
  ret (response, full_stream).

(** The loop.  The source takes a [model] argument too and ignores it
    (its [model_id] is a constant). *)
Fixpoint bedrock_passes (remaining current_pass_num : nat)
    (response : option BedrockResponse) (full_stream : string)
  : M (option BedrockResponse * string) :=
  match remaining with
  | O => ret (response, full_stream)
  | S remaining' =>
      let current_pass_num := S current_pass_num in
      pass <- bedrock_pass full_stream ;;
      bedrock_passes remaining' current_pass_num (Some pass.1) pass.2
  end.

(** [stream_claude_response_native_aws_bedrock] *)
Definition stream_claude_response_native_aws_bedrock : M (option string) :=
  try_except
    (let current_pass_num := 1 in
     looped <- bedrock_passes (max_passes + 1 - current_pass_num)
                 current_pass_num None "" ;;
     let response := looped.1 in
     let full_stream := looped.2 in
     match response with
     | Some r =>
         if response_truthy r then ret (Some full_stream)
         else raise (Exception_ "No HTML response found in AI response")
     | None => raise (Exception_ "No HTML response found in AI response")
     end)
    bedrock_except.
End bedrock.
End orchestrators.

(** ** Vocabulary of the properties *)

(** Two worlds that differ in the store only. *)
Definition same_io (w w' : world) : Prop :=
  sink w' = sink w ∧ stdout w' = stdout w ∧ net w' = net w ∧ files w' = files w.

(** The image part as [translate_part] leaves it. *)
Definition source_dict (media_type data : string) : obj :=
  ODict [("type", VStr "base64"); ("media_type", VStr media_type); ("data", VStr data)].

Definition retyped (dp : list (string * val)) : list (string * val) :=
  dict_set "type" (VStr "image") dp.

Definition rewritten (dp : list (string * val)) (s : loc) : list (string * val) :=
  dict_set "source" (VRef s) (dict_del "image_url" (retyped dp)).

(** The keys a translation may change in a dictionary. *)
Definition rewritten_key (k : string) : Prop :=
  k = "type" ∨ k = "image_url" ∨ k = "source".

(** [h'] comes from [h] by allocations and by rewrites of image parts:
    lists are kept, dictionaries keep every key the rewrite does not
    touch. *)
Definition rewrites (h h' : gmap loc obj) : Prop :=
  (∀ l xs, h !! l = Some (OList xs) → h' !! l = Some (OList xs)) ∧
  (∀ l d, h !! l = Some (ODict d) →
     ∃ d', h' !! l = Some (ODict d') ∧
           ∀ k, ¬ rewritten_key k → dict_get k d' = dict_get k d).

Definition translation_step (w w' : world) : Prop :=
  same_io w w' ∧ rewrites (heap w) (heap w').

(** [c] is the copy made of message [m]: a new dictionary which, when [m]
    was a dictionary of the caller, holds its items. *)
Definition copy_at (w w1 : world) (m c : val) : Prop :=
  ∃ lm lc d, m = VRef lm ∧ c = VRef lc ∧ heap w !! lc = None ∧
             heap w1 !! lc = Some (ODict d) ∧
             ∀ o, heap w !! lm = Some o → o = ODict d.

(** Concatenation of increments, in arrival order. *)
Definition concat_text (incs : list string) : string :=
  foldr String.append "" incs.

(** The increment a direct-API chunk yields: the content of its first
    choice, the empty string when it has none. *)
Definition chunk_increment (chunk : ChatCompletionChunk) : option string :=
  (λ c, default "" (delta_content c)) <$> (choices chunk !! 0).

(** The text of a content-delta event, when decoding it succeeds. *)
Definition event_text (ev : event) : option json :=
  match decode_event ev with
  | Ret (Some text) => Some text
  | _ => None
  end.

(** An event whose decoded chunk has type ["content_block_delta"]. *)
Definition is_content_delta (ev : event) : bool :=
  match ev with
  | Chunk (Some (Ret chunk_obj)) =>
      match json_getitem chunk_obj "type" with
      | Ret ty => json_eq_str ty "content_block_delta"
      | Exc _ => false
      end
  | _ => false
  end.

(** A world that differs from [w] in what the sink received and in what
    was printed. *)
Definition with_output (w : world) (delivered : list json) (printed : list string) : world :=
  World (heap w) (sink w ++ delivered) (stdout w ++ printed) (net w) (files w).

(** The states of one image part [p], with items [dp], through the
    translation loop that starts in store [h1]: not visited yet, or
    rewritten from the data URL the caller gave it. *)
Definition part_pending (h1 : gmap loc obj) (p : loc) (dp : list (string * val))
    (w : world) : Prop :=
  heap w !! p = Some (ODict dp) ∧ rewrites h1 (heap w).

Definition part_done (h1 : gmap loc obj) (p : loc) (dp : list (string * val))
    (w : world) : Prop :=
  ∃ s mt data,
    h1 !! s = None ∧
    heap w !! p = Some (ODict (rewritten dp s)) ∧
    heap w !! s = Some (source_dict mt data) ∧
    ∀ u du urlv,
      dict_get "image_url" dp = Some (VRef u) →
      h1 !! u = Some (ODict du) →
      dict_get "url" du = Some urlv →
      parse_data_url urlv = Ret (mt, data).

(** The world once request [r] has been issued from [w]. *)
Definition sent_world (w : world) (r : request) : world :=
  World (heap w) (sink w) (stdout w) (net w ++ [Sent r (heap w)]) (files w).

(** [c] is the turn made from message [m]: an object the caller's store
    [h] did not hold, which in the store [hs] of the request has every
    item of [m] except those the image rewrite may touch. *)
Definition turn_of (h hs : gmap loc obj) (m c : val) : Prop :=
  ∃ lc d', c = VRef lc ∧ h !! lc = None ∧ hs !! lc = Some (ODict d') ∧
    ∀ lm d, m = VRef lm → h !! lm = Some (ODict d) →
      ∀ k, ¬ rewritten_key k → dict_get k d' = dict_get k d.

(** The turns the orchestrators create. *)
Definition provisional_turn : obj :=
  ODict [("role", VStr "assistant"); ("content", VStr prefix)].

Definition assistant_turn (response_text : string) : obj :=
  ODict [("role", VStr "assistant"); ("content", VStr (prefix +:+ response_text))].

Definition user_turn : obj :=
  ODict [("role", VStr "user"); ("content", VStr follow_up)].

(** What a pass sends when the caller's list [lm] holds [current]: the
    list itself, or with [include_thinking] a new list [nl] that ends with a
    new provisional turn [p].  [fresh_objects] are the objects made for the
    request. *)
Definition outgoing (include_thinking : bool) (h hs : gmap loc obj) (lm : loc)
    (current : list val) (to_send : val) (fresh_objects : list loc) : Prop :=
  if include_thinking then
    ∃ p nl, h !! p = None ∧ h !! nl = None ∧ p ≠ nl ∧
            to_send = VRef nl ∧ fresh_objects = [p; nl] ∧
            hs = <[nl := OList (current ++ [VRef p])]> (<[p := provisional_turn]> h)
  else to_send = VRef lm ∧ fresh_objects = [] ∧ hs = h.

(** Steps that leave the store, the sink and the requests alone. *)
Definition quiet (w w' : world) : Prop :=
  heap w' = heap w ∧ sink w' = sink w ∧ net w' = net w.

(** The store across one pass: the request store [hs] is the store before
    the pass plus the objects made for the request; the pass ends with two
    new turns [a] and [u] appended to the caller's list. *)
Definition pass_store (include_thinking : bool) (h h' : gmap loc obj) (lm : loc)
    (current : list val) (response_text : string) (a u : loc)
    (to_send : val) (hs : gmap loc obj) (fresh_objects : list loc) : Prop :=
  outgoing include_thinking h hs lm current to_send fresh_objects ∧
  hs !! a = None ∧ hs !! u = None ∧ a ≠ u ∧
  h' = <[lm := OList (current ++ [VRef a; VRef u])]>
         (<[u := user_turn]> (<[a := assistant_turn response_text]> hs)).

(** What a request carries, read in the store [hs] it was issued in: the
    caller's list [lm] itself, or with [include_thinking] a list [nl] of
    its own, made of the turns of the caller's list followed by a
    provisional turn [p]; the caller's list is the same in both cases. *)
Definition request_view (include_thinking : bool) (hs : gmap loc obj) (lm : loc)
    (current : list val) (to_send : val) (fresh_objects : list loc) : Prop :=
  hs !! lm = Some (OList current) ∧
  if include_thinking then
    ∃ p nl, fresh_objects = [p; nl] ∧ to_send = VRef nl ∧
            hs !! nl = Some (OList (current ++ [VRef p])) ∧
            hs !! p = Some provisional_turn
  else to_send = VRef lm ∧ fresh_objects = [].

(** The events of a managed-gateway response. *)
Definition response_events (response : BedrockResponse) : list event :=
  match body response with
  | Some stream => items stream
  | None => []
  end.

(** ** Example stores and transports *)

(** A caller's conversation: a system message, and a user message with a
    text part and an image part. *)
Definition example_store : gmap loc obj :=
  list_to_map [
    (1%positive, OList [VRef 2; VRef 3]);
    (2%positive, ODict [("role", VStr "system"); ("content", VStr "You are an expert.")]);
    (3%positive, ODict [("role", VStr "user"); ("content", VRef 4)]);
    (4%positive, OList [VRef 5; VRef 6]);
    (5%positive, ODict [("type", VStr "text"); ("text", VStr "Build this page.")]);
    (6%positive, ODict [("type", VStr "image_url"); ("image_url", VRef 7)]);
    (7%positive, ODict [("url", VStr "data:image/png;base64,AAAA"); ("detail", VStr "high")])].

Definition world_of (h : gmap loc obj) : world := World h [] [] [] [].

(** The same conversation, the data URL without its comma. *)
Definition malformed_store : gmap loc obj :=
  <[7%positive := ODict [("url", VStr "data:image/png;base64"); ("detail", VStr "high")]]>
    example_store.

(** A conversation of the two-pass orchestrators: one user turn. *)
Definition draft_store : gmap loc obj :=
  list_to_map [
    (1%positive, OList [VRef 2]);
    (2%positive, ODict [("role", VStr "user"); ("content", VStr "Build this page.")])].

(** A native-SDK transport that streams [texts] and reports [blocks] as its
    final message, whatever it is asked. *)
Definition text_transport (texts : list string) (blocks : list content_block)
  : world → outcome MessageStream :=
  λ _, Ret (MkMessageStream (Stream texts None) (MkMessage blocks (MkUsage 0 0))).

(** A direct-API transport that streams [chunks]. *)
Definition chunk_transport (chunks : list ChatCompletionChunk)
  : world → outcome (pystream ChatCompletionChunk) :=
  λ _, Ret (Stream chunks None).

Definition delta_event (text : string) : event :=
  Chunk (Some (Ret (JObj [("type", JStr "content_block_delta");
                          ("index", JInt 0);
                          ("delta", JObj [("type", JStr "text_delta");
                                          ("text", JStr text)])]))).

Definition stop_event : event :=
  Chunk (Some (Ret (JObj [("type", JStr "message_stop")]))).

(** A managed-gateway transport that streams [events]. *)
Definition event_transport (events : list event) : world → outcome BedrockResponse :=
  λ _, Ret (MkBedrockResponse (Some (Stream events None)) true).

(** A managed-gateway client that refuses the request. *)
Definition denied_transport : world → outcome BedrockResponse :=
  λ _, Exc (ClientError (Some "User is not authorized to perform: bedrock:InvokeModelWithResponseStream")).

(** Transports that answer ["A"] to the first request and ["B"] to every
    later one. *)
Definition two_pass_text_transport : world → outcome MessageStream :=
  λ w, if bool_decide (length (net w) ≤ 1)
       then text_transport ["A"] [TextBlock "A"] w
       else text_transport ["B"] [TextBlock "B"] w.

Definition two_pass_event_transport : world → outcome BedrockResponse :=
  λ w, if bool_decide (length (net w) ≤ 1)
       then event_transport [delta_event "A"; stop_event] w
       else event_transport [delta_event "B"; stop_event] w.

(** What [utils.pprint_prompt] prints, for the examples. *)
Definition quiet_pprint : gmap loc obj → val → outcome string :=
  λ _ _, Ret "".

(** ** Vocabulary of the further properties *)

(** The models for which [stream_openai_response] sets ["max_tokens"]. *)
Definition takes_max_tokens (model : Llm) : bool :=
  bool_decide (model = GPT_4_VISION) || bool_decide (model = GPT_4_TURBO_2024_04_09).

(** [h'] comes from [h] by a translation: every object of [h] is still
    there, unchanged, unless it was a dictionary of type ["image_url"],
    which may have become one of type ["image"] with the same items under
    every key the rewrite does not touch. *)
Definition image_rewrites (h h' : gmap loc obj) : Prop :=
  ∀ l o, h !! l = Some o →
    h' !! l = Some o ∨
    ∃ d d', o = ODict d ∧ dict_get "type" d = Some (VStr "image_url") ∧
            h' !! l = Some (ODict d') ∧ dict_get "type" d' = Some (VStr "image") ∧
            ∀ k, ¬ rewritten_key k → dict_get k d' = dict_get k d.

(** The values an object holds. *)
Definition held (o : obj) : list val :=
  match o with
  | ODict d => d.*2
  | OList xs => xs
  end.

Definition allocated (h : gmap loc obj) (v : val) : bool :=
  match v with
  | VRef l => bool_decide (is_Some (h !! l))
  | _ => true
  end.

(** A store without dangling references, as every Python store is. *)
Definition closed (h : gmap loc obj) : Prop :=
  map_Forall (λ _ o, Forall (λ v, allocated h v = true) (held o)) h.

(** A content part the translation passes over: a dictionary whose type
    is not ["image_url"]. *)
Definition part_settled (h : gmap loc obj) (q : val) : Prop :=
  ∃ p d ty, q = VRef p ∧ h !! p = Some (ODict d) ∧
            dict_get "type" d = Some ty ∧ val_eq_str ty "image_url" = false.

(** A message the translation passes over: a dictionary with a content
    that is an object of the store and, when a list, holds settled parts
    only. *)
Definition message_settled (h : gmap loc obj) (m : val) : Prop :=
  ∃ l d v, m = VRef l ∧ h !! l = Some (ODict d) ∧ dict_get "content" d = Some v ∧
           allocated h v = true ∧
           ∀ lv parts, v = VRef lv → h !! lv = Some (OList parts) →
                       Forall (part_settled h) parts.

(** A message ready for the translation: a dictionary whose content, if it
    has one, is an object of the store. *)
Definition message_ready (h : gmap loc obj) (m : val) : Prop :=
  ∃ l d, m = VRef l ∧ h !! l = Some (ODict d) ∧
         ∀ v, dict_get "content" d = Some v → allocated h v = true.

Global Instance closed_dec h : Decision (closed h).
Proof. unfold closed. apply _. Defined.

(** The text of [s] before the first [c], all of [s] when it has none. *)
Fixpoint before (c : ascii) (s : string) : string :=
  match s with
  | EmptyString => EmptyString
  | String x s' => if Ascii.eqb c x then EmptyString else String x (before c s')
  end.

(** The text of [s] after the first [c], when it has one. *)
Fixpoint after (c : ascii) (s : string) : option string :=
  match s with
  | EmptyString => None
  | String x s' => if Ascii.eqb c x then Some s' else after c s'
  end.

(** A native-SDK transport that answers the first request and fails on
    every later one. *)
Definition second_request_fails : world → outcome MessageStream :=
  λ w, if bool_decide (length (net w) ≤ 1)
       then text_transport ["A"] [TextBlock "A"] w
       else Exc (TransportError "overloaded_error").

(** A managed-gateway client that answers the first request and refuses
    every later one. *)
Definition second_request_denied : world → outcome BedrockResponse :=
  λ w, if bool_decide (length (net w) ≤ 1)
       then event_transport [delta_event "A"; stop_event] w
       else denied_transport w.

(** The two files a pass of the native orchestrator writes when
    [IS_DEBUG_ENABLED] is on: the HTML extracted from the text of the pass,
    and the part of that text before ["</thinking>"]. *)
Definition debug_files (IS_DEBUG_ENABLED : bool) (extract_html_content : string → string)
    (pass : nat) (response_text : string) : list (string * string) :=
  if IS_DEBUG_ENABLED
  then [("pass_" +:+ pretty pass +:+ ".html", extract_html_content response_text);
        ("thinking_pass_" +:+ pretty pass +:+ ".txt",
         default "" (split "</thinking>" response_text !! 0))]
  else [].

(** An event the managed-gateway loop gets through: it decodes, and when
    it is a content delta its text is a string. *)
Definition event_decodes (ev : event) : bool :=
  match decode_event ev with
  | Ret (Some (JStr _)) | Ret None => true
  | _ => false
  end.

(** A data URL of the shape [data:<media_type>;base64,<payload>]. *)
Definition well_formed_data_url (url media_type payload : string) : Prop :=
  url = "data:" +:+ media_type +:+ ";base64," +:+ payload ∧
  contains_char ";" media_type = false ∧ contains_char ":" media_type = false ∧
  contains_char "," media_type = false ∧ contains_char "," payload = false.

(** An image part as the caller writes it: a dictionary of type
    ["image_url"] whose [image_url] is a dictionary with a well-formed data
    URL. *)
Definition image_part_ready (h : gmap loc obj) (q : val) : Prop :=
  ∃ p dp u du url media_type payload,
    q = VRef p ∧ h !! p = Some (ODict dp) ∧
    dict_get "type" dp = Some (VStr "image_url") ∧
    dict_get "image_url" dp = Some (VRef u) ∧
    h !! u = Some (ODict du) ∧ dict_get "url" du = Some (VStr url) ∧
    well_formed_data_url url media_type payload.

(** A content part the translation gets through: one it passes over, or an
    image part with a well-formed data URL. *)
Definition part_translatable (h : gmap loc obj) (q : val) : Prop :=
  part_settled h q ∨ image_part_ready h q.

(** A message the translation gets through: a dictionary whose content is
    an object of the store and, when a list, holds translatable parts
    only. *)
Definition message_translatable (h : gmap loc obj) (m : val) : Prop :=
  ∃ l d v, m = VRef l ∧ h !! l = Some (ODict d) ∧ dict_get "content" d = Some v ∧
           allocated h v = true ∧
           ∀ lv parts, v = VRef lv → h !! lv = Some (OList parts) →
                       Forall (part_translatable h) parts.

(** [h'] comes from [h] by visits that completed: every object of [h] is
    unchanged, or was an image part and is now rewritten, with a source
    dictionary of its own. *)
Definition translated (h h' : gmap loc obj) : Prop :=
  ∀ l o, h !! l = Some o →
    h' !! l = Some o ∨
    ∃ d s u media_type data,
      o = ODict d ∧ dict_get "type" d = Some (VStr "image_url") ∧
      dict_get "image_url" d = Some (VRef u) ∧
      h' !! l = Some (ODict (rewritten d s)) ∧
      h' !! s = Some (source_dict media_type data).

(** [v] is a tree of depth at most [n] in [h]: no dangling reference and
    no cycle below it, which is what [json.dumps] needs. *)
Fixpoint serialisable (n : nat) (h : gmap loc obj) (v : val) : bool :=
  match n, v with
  | S n', VRef l =>
      match h !! l with
      | Some o => forallb (serialisable n' h) (held o)
      | None => false
      end
  | O, VRef _ => false
  | _, _ => true
  end.

(** [l'] is held by the object at [l]. *)
Definition child (h : gmap loc obj) (l l' : loc) : Prop :=
  ∃ o, h !! l = Some o ∧ VRef l' ∈ held o.

(** An image part whose data URL has no comma. *)
Definition image_part_malformed (h : gmap loc obj) (p : loc) : Prop :=
  ∃ dp u du url,
    h !! p = Some (ODict dp) ∧
    dict_get "type" dp = Some (VStr "image_url") ∧
    dict_get "image_url" dp = Some (VRef u) ∧
    h !! u = Some (ODict du) ∧ dict_get "url" du = Some (VStr url) ∧
    contains_char "," url = false.

(** Worlds related by visits that completed: nothing sent, printed or
    delivered, and a store reached by rewrites of image parts. *)
Definition visits (w w' : world) : Prop :=
  same_io w w' ∧ translated (heap w) (heap w').

(** * Properties *)

(** ** Strings *)

Lemma append_cons x (a b : string) : String x a +:+ b = String x (a +:+ b).
Proof. reflexivity. Qed.

Lemma append_assoc (a b c : string) : (a +:+ b) +:+ c = a +:+ (b +:+ c).
Proof. induction a as [|x a IH]; [done | by rewrite !append_cons, IH]. Qed.

Lemma contains_char_append c a b :
  contains_char c (a +:+ b) = contains_char c a || contains_char c b.
Proof.
  induction a as [|x a IH]; [done |].
  rewrite append_cons. cbn [contains_char].
  destruct (Ascii.eqb_spec c x); [done | apply IH].
Qed.

Lemma prefix_single c x s :
  String.prefix (String c EmptyString) (String x s) = bool_decide (c = x).
Proof.
  simpl. destruct (ascii_dec c x) as [->|Hne].
  - rewrite bool_decide_eq_true_2; [|done]. by destruct s.
  - by rewrite bool_decide_eq_false_2.
Qed.

Lemma split_aux_nonempty sep skip s : split_aux sep skip s ≠ [].
Proof.
  revert skip. induction s as [|x s IH]; intros skip; cbn [split_aux]; [done |].
  destruct skip; [|apply IH].
  destruct (String.prefix sep (String x s)); [done |].
  destruct (split_aux sep 0 s) eqn:E; done.
Qed.

(** Splitting on a character that does not occur gives the whole string. *)
Lemma split_absent c s :
  contains_char c s = false → split (String c EmptyString) s = [s].
Proof.
  unfold split. induction s as [|x s IH]; simpl contains_char; intros H; [done |].
  destruct (Ascii.eqb_spec c x) as [|Hne]; [done |].
  cbn [split_aux]. rewrite prefix_single, bool_decide_eq_false_2 by done.
  by rewrite (IH H).
Qed.

(** The first token ends at the first occurrence of the separator. *)
Lemma split_first c a rest :
  contains_char c a = false →
  split (String c EmptyString) (a +:+ String c rest)
  = a :: split (String c EmptyString) rest.
Proof.
  unfold split. induction a as [|x a IH]; simpl contains_char; intros H.
  - change ("" +:+ String c rest) with (String c rest).
    cbn [split_aux]. rewrite prefix_single, bool_decide_eq_true_2 by done.
    done.
  - destruct (Ascii.eqb_spec c x) as [|Hne]; [done |].
    change (String x a +:+ String c rest) with (String x (a +:+ String c rest)).
    cbn [split_aux]. rewrite prefix_single, bool_decide_eq_false_2 by done.
    by rewrite (IH H).
Qed.

Lemma parse_data_url_well_formed media_type payload :
  contains_char ";" media_type = false →
  contains_char ":" media_type = false →
  contains_char "," media_type = false →
  contains_char "," payload = false →
  parse_data_url (VStr ("data:" +:+ media_type +:+ ";base64," +:+ payload))
  = Ret (media_type, payload).
Proof.
  intros Hsemi Hcolon Hcomma Hpay. unfold parse_data_url, str_split.
  cbn [obind].
  replace ("data:" +:+ media_type +:+ ";base64," +:+ payload)
    with (("data:" +:+ media_type) +:+ String ";" ("base64," +:+ payload))
    by (by rewrite append_assoc).
  rewrite (split_first ";") by (by rewrite contains_char_append, Hsemi).
  cbn [py_index lookup list_lookup obind].
  change ("data:" +:+ media_type) with ("data" +:+ String ":" media_type) at 1.
  rewrite (split_first ":"), (split_absent ":") by done.
  cbn [py_index lookup list_lookup obind].
  replace (("data:" +:+ media_type) +:+ String ";" ("base64," +:+ payload))
    with (("data:" +:+ media_type +:+ ";base64") +:+ String "," payload)
    by (by rewrite !append_assoc).
  rewrite (split_first ","), (split_absent ",") by
    (done || by rewrite !contains_char_append, Hcomma).
  done.
Qed.

Lemma parse_data_url_no_comma url :
  contains_char "," url = false → parse_data_url (VStr url) = Exc IndexError.
Proof.
  intros H. unfold parse_data_url, str_split. cbn [obind].
  rewrite (split_absent ",") by done.
  pose proof (split_aux_nonempty ";" 0 url) as Hne. unfold split.
  destruct (split_aux ";" 0 url) as [|t ts]; [done |].
  cbn [py_index lookup list_lookup obind].
  unfold py_index at 1.
  by destruct (split_aux ":" 0 t !! 1).
Qed.

(** ** Dictionaries *)

Section dict_facts.
Context {V : Type}.
Implicit Types (d : list (string * V)) (k : string).

Lemma dict_get_set_eq k v d : dict_get k (dict_set k v d) = Some v.
Proof.
  induction d as [|[k' v'] d IH]; simpl.
  - by rewrite String.eqb_refl.
  - destruct (String.eqb_spec k k'); simpl.
    + by rewrite String.eqb_refl.
    + by destruct (String.eqb_spec k k').
Qed.

Lemma dict_get_set_ne k k' v d :
  k ≠ k' → dict_get k' (dict_set k v d) = dict_get k' d.
Proof.
  intros Hne. induction d as [|[k0 v0] d IH]; simpl.
  - by destruct (String.eqb_spec k' k).
  - destruct (String.eqb_spec k k0) as [->|]; simpl.
    + destruct (String.eqb_spec k' k0); [|done]. congruence.
    + by destruct (String.eqb_spec k' k0).
Qed.

Lemma dict_get_del_eq k d : dict_get k (dict_del k d) = None.
Proof.
  induction d as [|[k' v'] d IH]; simpl; [done |].
  destruct (String.eqb_spec k k') as [|Hne]; simpl; [done |].
  by destruct (String.eqb_spec k k').
Qed.

Lemma dict_get_del_ne k k' d :
  k ≠ k' → dict_get k' (dict_del k d) = dict_get k' d.
Proof.
  intros Hne. induction d as [|[k0 v0] d IH]; simpl; [done |].
  destruct (String.eqb_spec k k0) as [->|]; simpl.
  - destruct (String.eqb_spec k' k0); [congruence | done].
  - by destruct (String.eqb_spec k' k0).
Qed.
End dict_facts.

Lemma val_eq_str_true v s : val_eq_str v s = true ↔ v = VStr s.
Proof.
  destruct v; simpl; try (split; [done | congruence]).
  destruct (String.eqb_spec s0 s); split; congruence.
Qed.

(** ** The monad *)

Lemma same_io_refl w : same_io w w.
Proof. by repeat split. Qed.

Lemma same_io_trans w1 w2 w3 : same_io w1 w2 → same_io w2 w3 → same_io w1 w3.
Proof. unfold same_io. intros (?&?&?&?) (?&?&?&?). repeat split; congruence. Qed.

Lemma bind_inv {A B} (m : M A) (k : A → M B) w r w' :
  bind m k w = (r, w') →
  (∃ a w1, m w = (Ret a, w1) ∧ k a w1 = (r, w'))
  ∨ (∃ e, m w = (Exc e, w') ∧ r = Exc e).
Proof.
  unfold bind. destruct (m w) as [[a|e] w1]; intros H.
  - left. eauto.
  - right. simplify_eq. eauto.
Qed.

Lemma bind_ret_inv {A B} (m : M A) (k : A → M B) w b w' :
  bind m k w = (Ret b, w') →
  ∃ a w1, m w = (Ret a, w1) ∧ k a w1 = (Ret b, w').
Proof. intros [?|(e&_&?)]%bind_inv; [done | congruence]. Qed.

Lemma bind_run {A B} (m : M A) (k : A → M B) w a w1 :
  m w = (Ret a, w1) → bind m k w = k a w1.
Proof. unfold bind. by intros ->. Qed.

Lemma bind_exc {A B} (m : M A) (k : A → M B) w e w1 :
  m w = (Exc e, w1) → bind m k w = (Exc e, w1).
Proof. unfold bind. by intros ->. Qed.

Lemma same_io_with_heap w h : same_io w (with_heap w h).
Proof. by repeat split. Qed.

Lemma lift_inv {A} (o : outcome A) w r w' : lift o w = (r, w') → r = o ∧ w' = w.
Proof. unfold lift. by intros [= <- <-]. Qed.

(** *** The store primitives on a known object *)

Lemma alloc_run o w :
  ∃ l, heap w !! l = None ∧
       alloc o w = (Ret (VRef l), with_heap w (<[l := o]> (heap w))).
Proof.
  exists (fresh (dom (heap w))). split; [|done].
  apply not_elem_of_dom, is_fresh.
Qed.

Lemma getitem_dict l d k w :
  heap w !! l = Some (ODict d) →
  getitem (VRef l) k w
  = (match dict_get k d with Some x => Ret x | None => Exc (KeyError k) end, w).
Proof. unfold getitem. intros ->. by destruct (dict_get k d). Qed.

Lemma getitem_inv v k w r w' :
  getitem v k w = (r, w') →
  w' = w ∧
  ∀ x, r = Ret x →
       ∃ l d, v = VRef l ∧ heap w !! l = Some (ODict d) ∧ dict_get k d = Some x.
Proof.
  unfold getitem. intros H. repeat case_match; simplify_eq; (split; [done |]);
    intros x' ?; simplify_eq; eauto.
Qed.

Lemma setitem_dict l d k x w :
  heap w !! l = Some (ODict d) →
  setitem (VRef l) k x w
  = (Ret tt, with_heap w (<[l := ODict (dict_set k x d)]> (heap w))).
Proof. unfold setitem. by intros ->. Qed.

Lemma delitem_dict l d k x w :
  heap w !! l = Some (ODict d) → dict_get k d = Some x →
  delitem (VRef l) k w
  = (Ret tt, with_heap w (<[l := ODict (dict_del k d)]> (heap w))).
Proof. unfold delitem. by intros -> ->. Qed.

Lemma list_elems_inv v w r w' :
  list_elems v w = (r, w') →
  w' = w ∧
  ∀ xs, r = Ret xs → ∃ l, v = VRef l ∧ heap w !! l = Some (OList xs).
Proof.
  unfold list_elems. intros H. repeat case_match; simplify_eq; (split; [done |]);
    intros x' ?; simplify_eq; eauto.
Qed.

Lemma list_elems_list l xs w :
  heap w !! l = Some (OList xs) → list_elems (VRef l) w = (Ret xs, w).
Proof. unfold list_elems. by intros ->. Qed.

(** ** Message translation *)

(** What one visit of a content part does to the store: nothing, the
    retyping alone when the data URL cannot be read, or the whole rewrite. *)
Lemma translate_part_cases q w r w' :
  translate_part q w = (r, w') →
  same_io w w' ∧
  ( (heap w' = heap w ∧
     ∀ p dp, q = VRef p → heap w !! p = Some (ODict dp) →
             dict_get "type" dp = Some (VStr "image_url") → ∃ e, r = Exc e)
  ∨ ∃ p dp, q = VRef p ∧ heap w !! p = Some (ODict dp) ∧
      dict_get "type" dp = Some (VStr "image_url") ∧
      ( ((∃ e, r = Exc e) ∧ heap w' = <[p := ODict (retyped dp)]> (heap w))
      ∨ ∃ u du urlv mt data s,
          r = Ret tt ∧
          dict_get "image_url" dp = Some (VRef u) ∧
          <[p := ODict (retyped dp)]> (heap w) !! u = Some (ODict du) ∧
          dict_get "url" du = Some urlv ∧
          parse_data_url urlv = Ret (mt, data) ∧
          heap w !! s = None ∧
          heap w' = <[p := ODict (rewritten dp s)]> (<[s := source_dict mt data]> (heap w)))).
Proof.
  unfold translate_part. intros H.
  apply bind_inv in H as [(ty & w1 & Hty & H)|(e & Hty & ->)];
    apply getitem_inv in Hty as [-> Hty].
  2:{ split; [apply same_io_refl |]. left. split; [done | by eauto]. }
  destruct (Hty _ eq_refl) as (l & d & -> & Hl & Hd). clear Hty.
  destruct (val_eq_str ty "image_url") eqn:Hv.
  2:{ injection H as <- <-. split; [apply same_io_refl |]. left. split; [done |].
      intros p dp [= <-] ? ?. simplify_eq. }
  apply val_eq_str_true in Hv as ->.
  rewrite (bind_run _ _ _ _ _ (setitem_dict _ _ "type" _ _ Hl)) in H.
  fold (retyped d) in H. set (h1 := <[l := ODict (retyped d)]> (heap w)) in *.
  assert (Hl1 : heap (with_heap w h1) !! l = Some (ODict (retyped d)))
    by apply lookup_insert_eq.
  assert (Hfail : ∀ e, same_io w (with_heap w h1) ∧
    ( (heap (with_heap w h1) = heap w ∧
       ∀ p dp, VRef l = VRef p → heap w !! p = Some (ODict dp) →
               dict_get "type" dp = Some (VStr "image_url") → ∃ e', @Exc unit e = Exc e')
    ∨ ∃ p dp, VRef l = VRef p ∧ heap w !! p = Some (ODict dp) ∧
        dict_get "type" dp = Some (VStr "image_url") ∧
        ( ((∃ e', @Exc unit e = Exc e') ∧ heap (with_heap w h1) = <[p := ODict (retyped dp)]> (heap w))
        ∨ ∃ u du urlv mt data s,
            @Exc unit e = Ret tt ∧
            dict_get "image_url" dp = Some (VRef u) ∧
            <[p := ODict (retyped dp)]> (heap w) !! u = Some (ODict du) ∧
            dict_get "url" du = Some urlv ∧
            parse_data_url urlv = Ret (mt, data) ∧
            heap w !! s = None ∧
            heap (with_heap w h1) = <[p := ODict (rewritten dp s)]> (<[s := source_dict mt data]> (heap w))))).
  { intros e. split; [apply same_io_with_heap |]. right. exists l, d.
    split_and!; [done..|]. left. eauto. }
  unfold bind at 1 in H. rewrite (getitem_dict _ _ "image_url" _ Hl1) in H.
  unfold retyped in H at 1. rewrite dict_get_set_ne in H by done.
  destruct (dict_get "image_url" d) as [iu|] eqn:Hiu; cbv beta iota in H.
  2:{ injection H as <- <-. apply Hfail. }
  apply bind_inv in H as [(urlv & w2 & Hu & H)|(e & Hu & ->)];
    apply getitem_inv in Hu as [-> Hu]; [|apply Hfail].
  destruct (Hu _ eq_refl) as (u & du & -> & Hlu & Hdu). clear Hu.
  apply bind_inv in H as [(parsed & w2 & Hparse & H)|(e & Hparse & ->)];
    apply lift_inv in Hparse as [Hparse ->]; [|apply Hfail].
  assert (Hiu1 : dict_get "image_url" (retyped d) = Some (VRef u))
    by (unfold retyped; by rewrite dict_get_set_ne).
  rewrite (bind_run _ _ _ _ _ (delitem_dict _ _ "image_url" _ _ Hl1 Hiu1)) in H.
  set (w3 := with_heap _ _) in H.
  destruct (alloc_run (ODict [("type", VStr "base64"); ("media_type", VStr parsed.1);
                              ("data", VStr parsed.2)]) w3) as (s & Hs & Halloc).
  rewrite (bind_run _ _ _ _ _ Halloc) in H.
  assert (Hsl : s ≠ l).
  { intros ->. subst w3. cbn [heap with_heap] in Hs. by rewrite lookup_insert_eq in Hs. }
  erewrite setitem_dict in H; last first.
  { cbn [heap with_heap]. rewrite lookup_insert_ne by done. subst w3.
    cbn [heap with_heap]. apply lookup_insert_eq. }
  injection H as <- <-. split; [by repeat split |].
  right. exists l, d. split_and!; [done..|]. right.
  exists u, du, urlv, parsed.1, parsed.2, s.
  split_and!; try done.
  - by destruct parsed.
  - subst w3. cbn [heap with_heap] in Hs. subst h1.
    rewrite !lookup_insert_ne in Hs by done. done.
  - cbn [heap with_heap]. subst w3 h1. cbn [heap with_heap].
    rewrite insert_insert_eq. rewrite (insert_insert_ne _ s l) by done.
    by rewrite insert_insert_eq.
Qed.

Lemma rewrites_refl h : rewrites h h.
Proof. split; eauto. Qed.

Lemma rewrites_trans h1 h2 h3 : rewrites h1 h2 → rewrites h2 h3 → rewrites h1 h3.
Proof.
  intros [L1 D1] [L2 D2]. split; [by eauto |].
  intros l d Hl. destruct (D1 _ _ Hl) as (d' & Hl' & Hk).
  destruct (D2 _ _ Hl') as (d'' & Hl'' & Hk'). exists d''. split; [done |].
  intros k Hnk. by rewrite Hk', Hk.
Qed.

Lemma rewrites_None h h' l : rewrites h h' → h' !! l = None → h !! l = None.
Proof.
  intros [L D] Hn. destruct (h !! l) as [[d|xs]|] eqn:E; [| |done].
  - destruct (D _ _ E) as (? & ? & _). congruence.
  - rewrite (L _ _ E) in Hn. done.
Qed.

Lemma rewrites_alloc h l o : h !! l = None → rewrites h (<[l := o]> h).
Proof.
  intros Hn. split.
  - intros l' xs Hl'. rewrite lookup_insert_ne; [done | congruence].
  - intros l' d Hl'. exists d. rewrite lookup_insert_ne; [done | congruence].
Qed.

Lemma rewrites_dict h l d d' :
  h !! l = Some (ODict d) →
  (∀ k, ¬ rewritten_key k → dict_get k d' = dict_get k d) →
  rewrites h (<[l := ODict d']> h).
Proof.
  intros Hl Hk. split.
  - intros l' xs Hl'. rewrite lookup_insert_ne; [done | congruence].
  - intros l' d0 Hl'. destruct (decide (l = l')) as [<-|Hne].
    + exists d'. rewrite lookup_insert_eq. split; [done |]. by simplify_eq.
    + exists d0. by rewrite lookup_insert_ne.
Qed.

Lemma translation_step_refl w : translation_step w w.
Proof. split; [apply same_io_refl | apply rewrites_refl]. Qed.

Lemma translation_step_trans w1 w2 w3 :
  translation_step w1 w2 → translation_step w2 w3 → translation_step w1 w3.
Proof.
  intros [] []. split; [by eapply same_io_trans | by eapply rewrites_trans].
Qed.

Lemma retyped_other k dp : k ≠ "type" → dict_get k (retyped dp) = dict_get k dp.
Proof. intros. unfold retyped. by rewrite dict_get_set_ne. Qed.

Lemma rewritten_other k dp s :
  ¬ rewritten_key k → dict_get k (rewritten dp s) = dict_get k dp.
Proof.
  unfold rewritten_key, rewritten, retyped. intros Hk.
  rewrite !dict_get_set_ne, dict_get_del_ne, dict_get_set_ne by naive_solver. done.
Qed.

Lemma rewritten_type dp s : dict_get "type" (rewritten dp s) = Some (VStr "image").
Proof.
  unfold rewritten, retyped.
  by rewrite dict_get_set_ne, dict_get_del_ne, dict_get_set_eq.
Qed.

Lemma rewritten_image_url dp s : dict_get "image_url" (rewritten dp s) = None.
Proof. unfold rewritten. by rewrite dict_get_set_ne, dict_get_del_eq. Qed.

Lemma rewritten_source dp s : dict_get "source" (rewritten dp s) = Some (VRef s).
Proof. unfold rewritten. by rewrite dict_get_set_eq. Qed.

Lemma translate_part_step q w r w' :
  translate_part q w = (r, w') → translation_step w w'.
Proof.
  intros [Hio Hc]%translate_part_cases. split; [done |].
  destruct Hc as [[-> _]|(p & dp & -> & Hp & Hty & [[_ ->]|Hok])].
  - apply rewrites_refl.
  - eapply rewrites_dict; [done |]. intros k Hk. apply retyped_other.
    unfold rewritten_key in Hk. naive_solver.
  - destruct Hok as (u & du & urlv & mt & data & s & _ & _ & _ & _ & _ & Hs & ->).
    eapply rewrites_trans; [by apply rewrites_alloc |].
    eapply rewrites_dict.
    + rewrite lookup_insert_ne; [done | congruence].
    + intros k Hk. by apply rewritten_other.
Qed.

(** ** Loops *)

Lemma for_each_preserves {A S} (P : world → Prop) (body : A → S → M S) xs :
  (∀ x s w r w', x ∈ xs → P w → body x s w = (r, w') → P w') →
  ∀ s w r w', P w → for_each xs body s w = (r, w') → P w'.
Proof.
  induction xs as [|x xs IH]; intros Hbody s w r w' HP H; cbn [for_each] in H.
  - by injection H as <- <-.
  - apply bind_inv in H as [(s1 & w1 & Hx & H)|(e & Hx & ->)].
    + eapply IH; [| |done].
      * intros. eapply Hbody; [by right | done..].
      * eapply Hbody; [by left | done..].
    + eapply Hbody; [by left | done..].
Qed.

(** A loop that completes has run its body on every element: a state
    [Pend] that each successful step keeps or turns into [Done], and that
    the step on [x0] always turns into [Done], ends in [Done]. *)
Lemma for_each_reaches {A S} (Pend Done : world → Prop) (body : A → S → M S) x0 xs :
  (∀ x s w s' w', Done w → body x s w = (Ret s', w') → Done w') →
  (∀ x s w s' w', Pend w → body x s w = (Ret s', w') →
     (Pend w' ∨ Done w') ∧ (x = x0 → Done w')) →
  ∀ s w s' w', for_each xs body s w = (Ret s', w') →
    (Done w → Done w') ∧
    (Pend w → (Pend w' ∨ Done w') ∧ (x0 ∈ xs → Done w')).
Proof.
  intros HD HP. induction xs as [|x xs IH]; intros s w s' w' H; cbn [for_each] in H.
  - injection H as <- <-. split; [done |]. intros. split; [by left |].
    by intros ?%elem_of_nil.
  - apply bind_ret_inv in H as (s1 & w1 & Hx & H).
    destruct (IH _ _ _ _ H) as [IHD IHP]. split.
    + intros. eapply IHD, HD; done.
    + intros Hpend. destruct (HP _ _ _ _ _ Hpend Hx) as [[Hp1|Hd1] Hx0].
      * destruct (IHP Hp1) as [Hor Hin]. split; [done |].
        intros [->|?]%elem_of_cons; [by apply IHD, Hx0 | by apply Hin].
      * split; [right|intros _]; by apply IHD.
Qed.

Lemma translate_message_step m w r w' :
  translate_message m w = (r, w') → translation_step w w'.
Proof.
  unfold translate_message. intros H.
  apply bind_inv in H as [(c & w1 & Hc & H)|(e & Hc & ->)];
    apply getitem_inv in Hc as [-> _]; [|apply translation_step_refl].
  unfold bind at 1, get_heap in H.
  destruct (is_list (heap w) c).
  - apply bind_inv in H as [(parts & w1 & Hp & H)|(e & Hp & ->)];
      apply list_elems_inv in Hp as [-> _]; [|apply translation_step_refl].
    revert H. apply (for_each_preserves (translation_step w)).
    + intros x s w1 r1 w2 _ Hw1 Hx. eapply translation_step_trans; [done |].
      by eapply translate_part_step.
    + apply translation_step_refl.
  - injection H as <- <-. apply translation_step_refl.
Qed.

Lemma rewrites_subseteq (h h' : gmap loc obj) : h ⊆ h' → rewrites h h'.
Proof.
  intros Hsub. split.
  - intros l xs Hl. by eapply lookup_weaken.
  - intros l d Hl. exists d. split; [by eapply lookup_weaken | done].
Qed.

Lemma translation_step_with_heap w h :
  rewrites (heap w) h → translation_step w (with_heap w h).
Proof. intros. split; [apply same_io_with_heap | done]. Qed.

Lemma bind_step {A B} (R : world → world → Prop) (m : M A) (k : A → M B) w r w' :
  (∀ w1 w2 w3, R w1 w2 → R w2 w3 → R w1 w3) →
  (∀ r1 w1, m w = (r1, w1) → R w w1) →
  (∀ a w1 r2 w2, k a w1 = (r2, w2) → R w1 w2) →
  bind m k w = (r, w') → R w w'.
Proof.
  intros Htrans Hm Hk [(a & w1 & Ha & H)|(e & Ha & ->)]%bind_inv; [|by eapply Hm].
  eapply Htrans; [by eapply Hm | by eapply Hk].
Qed.

Lemma dict_copy_inv v w r w' :
  dict_copy v w = (r, w') →
  (w' = w ∧ ∃ e, r = Exc e)
  ∨ ∃ l d c, v = VRef l ∧ heap w !! l = Some (ODict d) ∧ heap w !! c = None ∧
             r = Ret (VRef c) ∧ w' = with_heap w (<[c := ODict d]> (heap w)).
Proof.
  unfold dict_copy. intros H.
  destruct v as [| | | | |l]; try (left; injection H as <- <-; by eauto).
  destruct (heap w !! l) as [[d|xs]|] eqn:Hl; try (left; injection H as <- <-; by eauto).
  right. destruct (alloc_run (ODict d) w) as (c & Hc & Halloc).
  rewrite Halloc in H. simplify_eq. eauto 10.
Qed.

Lemma copy_all_spec xs w r w' :
  copy_all xs w = (r, w') →
  same_io w w' ∧ heap w ⊆ heap w' ∧
  ∀ cs, r = Ret cs → Forall2 (copy_at w w') xs cs.
Proof.
  revert w r w'. induction xs as [|x xs IH]; intros w r w' H; cbn [copy_all] in H.
  - injection H as <- <-. split; [apply same_io_refl |]. split; [done |].
    intros cs [= <-]. constructor.
  - apply bind_inv in H as [(c & w1 & Hc & H)|(e & Hc & ->)];
      apply dict_copy_inv in Hc as [[-> (e' & ?)]|(l & d & lc & -> & Hl & Hlc & ? & ->)];
      simplify_eq.
    2:{ split; [apply same_io_refl |]. split; [done |]. by intros. }
    assert (Hsub1 : heap w ⊆ <[lc := ODict d]> (heap w)) by by apply insert_subseteq.
    apply bind_inv in H as [(cs & w2 & Hcs & H)|(e & Hcs & ->)];
      apply IH in Hcs as (Hio & Hsub & Hall); cbn [heap with_heap] in *.
    2:{ split; [by eapply same_io_trans; [apply same_io_with_heap |] |].
        split; [by etrans |]. by intros. }
    injection H as <- <-.
    split; [by eapply same_io_trans; [apply same_io_with_heap |] |].
    split; [by etrans |]. intros cs' [= <-]. constructor.
    + exists l, lc, d. split_and!; try done.
      * eapply lookup_weaken; [|done]. apply lookup_insert_eq.
      * intros o. rewrite Hl. by intros [= <-].
    + eapply Forall2_impl; [by apply Hall |].
      intros m c' (lm & lc' & d' & -> & -> & Hn & Hc' & Ho).
      exists lm, lc', d'. split_and!; try done.
      * by eapply lookup_weaken_None.
      * intros o Hlm. apply Ho. by eapply lookup_weaken.
Qed.

Lemma length_tail {A} (l : list A) : length (tail l) = length l - 1.
Proof. destruct l; simpl; lia. Qed.

(** The translation, opened at its loop. *)
Lemma translate_messages_inv messages w system_prompt claude_messages w' :
  translate_messages messages w = (Ret (system_prompt, claude_messages), w') →
  ∃ lm ms first lf df lc copies w1,
    messages = VRef lm ∧ heap w !! lm = Some (OList ms) ∧
    ms !! 0 = Some first ∧
    first = VRef lf ∧ heap w !! lf = Some (ODict df) ∧
    system_prompt = default VNone (dict_get "content" df) ∧
    claude_messages = VRef lc ∧
    same_io w w1 ∧ heap w ⊆ heap w1 ∧
    heap w !! lc = None ∧ heap w1 !! lc = Some (OList copies) ∧
    Forall2 (copy_at w w1) (tail ms) copies ∧
    for_each copies (λ message _, translate_message message) tt w1 = (Ret tt, w').
Proof.
  unfold translate_messages. intros H.
  apply bind_ret_inv in H as (ms & w1 & Hms & H).
  apply list_elems_inv in Hms as [-> Hms]. destruct (Hms _ eq_refl) as (lm & -> & Hlm).
  apply bind_ret_inv in H as (first & w1 & Hfirst & H).
  apply lift_inv in Hfirst as [Hfirst ->].
  unfold py_index in Hfirst. destruct (ms !! 0) as [first'|] eqn:Hfirst'; [|done].
  injection Hfirst as ->.
  apply bind_ret_inv in H as (sys & w1 & Hsys & H).
  unfold dict_method_get in Hsys.
  destruct first' as [| | | | |lf]; try done.
  destruct (heap w !! lf) as [[df|?]|] eqn:Hlf; try done.
  injection Hsys as <- <-.
  apply bind_ret_inv in H as (copies & w2 & Hcopies & H).
  apply copy_all_spec in Hcopies as (Hio & Hsub & Hall).
  destruct (alloc_run (OList copies) w2) as (lc & Hlc & Halloc).
  rewrite (bind_run _ _ _ _ _ Halloc) in H.
  apply bind_ret_inv in H as ([] & w3 & Hloop & H). injection H as <- <- <-.
  exists lm, ms, (VRef lf), lf, df, lc, copies,
    (with_heap w2 (<[lc := OList copies]> (heap w2))).
  split_and!; try done.
  - cbn [heap with_heap]. etrans; [done |]. by apply insert_subseteq.
  - by eapply lookup_weaken_None.
  - apply lookup_insert_eq.
  - eapply Forall2_impl; [by apply Hall |].
    intros m c (lm' & lc' & d' & -> & -> & Hn & Hc' & Ho).
    exists lm', lc', d'. split_and!; try done. cbn [heap with_heap].
    rewrite lookup_insert_ne; [done |]. intros ->. congruence.
Qed.

Lemma translate_messages_step messages w r w' :
  translate_messages messages w = (r, w') → translation_step w w'.
Proof.
  unfold translate_messages.
  pose proof translation_step_trans as Ht.
  apply bind_step; [done | by intros ?? [-> _]%list_elems_inv; apply translation_step_refl |].
  intros ms w1 r1 w2.
  apply bind_step; [done | by intros ?? [_ ->]%lift_inv; apply translation_step_refl |].
  clear w1. intros first w1 r2 w3.
  apply bind_step; [done | |].
  { intros r3 w4 Hg. unfold dict_method_get in Hg.
    repeat case_match; simplify_eq; apply translation_step_refl. }
  clear. intros sys w1 r w2. pose proof translation_step_trans as Ht.
  apply bind_step; [done | |].
  { intros r3 w4 (Hio & Hsub & _)%copy_all_spec. split; [done | by apply rewrites_subseteq]. }
  clear w1. intros copies w1 r1 w3.
  destruct (alloc_run (OList copies) w1) as (lc & Hlc & Halloc).
  rewrite (bind_run _ _ _ _ _ Halloc).
  intros H.
  apply (Ht _ (with_heap w1 (<[lc := OList copies]> (heap w1))));
    [apply translation_step_with_heap, rewrites_alloc, Hlc |].
  revert H. apply (bind_step translation_step); [done | |].
  - intros r3 w4. apply (for_each_preserves (translation_step _)).
    + intros x s w5 r5 w6 _ Hw5 Hx. eapply Ht; [done |].
      by eapply translate_message_step.
    + apply translation_step_refl.
  - intros [] w4 r4 w5 [= <- <-]. apply translation_step_refl.
Qed.

(** ** One image part through the translation *)

Section image_part.
(** [h1] is the store when the loop over the copies starts, [p] an image
    part in it, [dp] its items. *)
Variable h1 : gmap loc obj.
Variable p : loc.
Variable dp : list (string * val).
Hypothesis Hdp : dict_get "type" dp = Some (VStr "image_url").

Lemma part_done_kept q w r w' :
  part_done h1 p dp w → translate_part q w = (r, w') → part_done h1 p dp w'.
Proof.
  intros (s & mt & data & Hs1 & Hp & Hs & Hurl) [_ Hc]%translate_part_cases.
  exists s, mt, data. split; [done |].
  destruct Hc as [[-> _]|(p' & dp' & -> & Hp' & Hty' & Hc)]; [done |].
  assert (p' ≠ p).
  { intros ->. rewrite Hp in Hp'. injection Hp' as <-.
    by rewrite rewritten_type in Hty'. }
  assert (p' ≠ s).
  { intros ->. rewrite Hs in Hp'. by injection Hp' as <-. }
  destruct Hc as [[_ ->]|(u & du & urlv & mt' & data' & s' & _ & _ & _ & _ & _ & Hs' & ->)].
  - by rewrite !lookup_insert_ne.
  - assert (s' ≠ p) by congruence. assert (s' ≠ s) by congruence.
    by rewrite !lookup_insert_ne.
Qed.

Lemma part_pending_step q w w' :
  part_pending h1 p dp w → translate_part q w = (Ret tt, w') →
  (part_pending h1 p dp w' ∨ part_done h1 p dp w') ∧ (q = VRef p → part_done h1 p dp w').
Proof.
  intros [Hp Hrw] Hq. pose proof (translate_part_step _ _ _ _ Hq) as [_ Hstep].
  apply translate_part_cases in Hq as [_ Hc].
  destruct Hc as [[Hh Hexc]|(p' & dp' & -> & Hp' & Hty' & Hc)].
  { split.
    - left. split; [by rewrite Hh | by eapply rewrites_trans].
    - intros ->. by destruct (Hexc _ _ eq_refl Hp Hdp). }
  destruct Hc as [[[e ?] _]|(u & du & urlv & mt & data & s & _ & Hiu & Hu & Hurl & Hparse & Hs & Hw')];
    [done |].
  unfold part_pending, part_done. rewrite Hw'.
  destruct (decide (p' = p)) as [->|Hne].
  - rewrite Hp in Hp'. injection Hp' as <-.
    assert (∃ s0 mt0 data0,
      h1 !! s0 = None ∧
      <[p:=ODict (rewritten dp s)]> (<[s:=source_dict mt data]> (heap w)) !! p
        = Some (ODict (rewritten dp s0)) ∧
      <[p:=ODict (rewritten dp s)]> (<[s:=source_dict mt data]> (heap w)) !! s0
        = Some (source_dict mt0 data0) ∧
      ∀ u du urlv,
        dict_get "image_url" dp = Some (VRef u) →
        h1 !! u = Some (ODict du) →
        dict_get "url" du = Some urlv →
        parse_data_url urlv = Ret (mt0, data0)) as Hdone;
      [|split; [right | intros _]; exact Hdone].
    exists s, mt, data. split_and!.
    + by eapply rewrites_None.
    + apply lookup_insert_eq.
    + rewrite lookup_insert_ne by congruence. apply lookup_insert_eq.
    + intros u0 du0 urlv0 Hiu0 Hu0 Hurl0. rewrite Hiu in Hiu0. injection Hiu0 as <-.
      destruct Hrw as [_ HD]. destruct (HD _ _ Hu0) as (du' & Hu' & Hk).
      assert (dict_get "url" du = dict_get "url" du0) as Heq.
      { destruct (decide (p = u)) as [<-|Hpu].
        - rewrite lookup_insert_eq in Hu. injection Hu as <-.
          rewrite Hp in Hu'. injection Hu' as <-.
          rewrite retyped_other by done. apply Hk.
          unfold rewritten_key. naive_solver.
        - rewrite lookup_insert_ne in Hu by done. rewrite Hu in Hu'.
          injection Hu' as <-. apply Hk. unfold rewritten_key. naive_solver. }
      rewrite Heq, Hurl0 in Hurl. by injection Hurl as <-.
  - split; [|congruence]. left. split; [|by rewrite <-Hw'; eapply rewrites_trans].
    rewrite !lookup_insert_ne; [done | congruence | congruence].
Qed.

Lemma message_done_kept m w r w' :
  part_done h1 p dp w → translate_message m w = (r, w') → part_done h1 p dp w'.
Proof.
  unfold translate_message. intros Hd H.
  apply bind_inv in H as [(c & w1 & Hc & H)|(e & Hc & ->)];
    apply getitem_inv in Hc as [-> _]; [|done].
  unfold bind at 1, get_heap in H.
  destruct (is_list (heap w) c); [|by injection H as <- <-].
  apply bind_inv in H as [(parts & w1 & Hp & H)|(e & Hp & ->)];
    apply list_elems_inv in Hp as [-> _]; [|done].
  revert H. apply (for_each_preserves (part_done h1 p dp)); [|done].
  intros x s w1 r1 w2 _ Hw1 Hx. by eapply part_done_kept.
Qed.

(** The copy [c0] of a message whose content list [parts] holds [p]. *)
Variable c0 : loc.
Variable d0 : list (string * val).
Variable cl : loc.
Variable parts : list val.
Hypothesis Hc0 : h1 !! c0 = Some (ODict d0).
Hypothesis Hcontent : dict_get "content" d0 = Some (VRef cl).
Hypothesis Hcl : h1 !! cl = Some (OList parts).
Hypothesis Hin : VRef p ∈ parts.

Lemma message_pending_step m w w' :
  part_pending h1 p dp w → translate_message m w = (Ret tt, w') →
  (part_pending h1 p dp w' ∨ part_done h1 p dp w') ∧ (m = VRef c0 → part_done h1 p dp w').
Proof.
  unfold translate_message. intros Hpend H.
  apply bind_ret_inv in H as (c & w1 & Hc & H).
  apply getitem_inv in Hc as [-> Hc]. destruct (Hc _ eq_refl) as (lm & dm & -> & Hlm & Hdm).
  unfold bind at 1, get_heap in H.
  destruct (is_list (heap w) c) eqn:Hlist.
  2:{ injection H as <-. split; [by left |]. intros [= ->].
      destruct Hpend as [_ [HL HD]]. destruct (HD _ _ Hc0) as (d' & Hd' & Hk).
      rewrite Hlm in Hd'. injection Hd' as <-.
      rewrite Hk, Hcontent in Hdm by (unfold rewritten_key; naive_solver).
      injection Hdm as <-. unfold is_list in Hlist. by rewrite (HL _ _ Hcl) in Hlist. }
  apply bind_ret_inv in H as (parts' & w1 & Hp & H).
  apply list_elems_inv in Hp as [-> Hp]. destruct (Hp _ eq_refl) as (cl' & -> & Hcl').
  destruct (for_each_reaches (part_pending h1 p dp) (part_done h1 p dp)
              (λ part (_ : unit), translate_part part) (VRef p) parts') with
    (s := tt) (w := w) (s' := tt) (w' := w') as [_ Hreach]; [| |done|].
  { intros x [] w1 [] w2 ? ?. by eapply part_done_kept. }
  { intros x [] w1 [] w2 ? ?. by eapply part_pending_step. }
  destruct (Hreach Hpend) as [Hor Hdone]. split; [done |].
  intros [= ->]. apply Hdone.
  destruct Hpend as [_ [HL HD]]. destruct (HD _ _ Hc0) as (d' & Hd' & Hk).
  rewrite Hlm in Hd'. injection Hd' as <-.
  rewrite Hk, Hcontent in Hdm by (unfold rewritten_key; naive_solver).
  injection Hdm as <-. rewrite (HL _ _ Hcl) in Hcl'. by injection Hcl' as <-.
Qed.

Lemma messages_loop_rewrites_part copies w w' :
  VRef c0 ∈ copies → part_pending h1 p dp w →
  for_each copies (λ message (_ : unit), translate_message message) tt w = (Ret tt, w') →
  part_done h1 p dp w'.
Proof.
  intros Hc Hpend Hloop.
  destruct (for_each_reaches (part_pending h1 p dp) (part_done h1 p dp)
              (λ message (_ : unit), translate_message message) (VRef c0) copies) with
    (s := tt) (w := w) (s' := tt) (w' := w') as [_ Hreach]; [| |done|].
  { intros x [] w1 [] w2 ? ?. by eapply message_done_kept. }
  { intros x [] w1 [] w2 ? ?. by eapply message_pending_step. }
  by apply Hreach.
Qed.
End image_part.

Lemma with_output_nil w : with_output w [] [] = w.
Proof. destruct w. unfold with_output. cbn. by rewrite !app_nil_r. Qed.

Lemma with_output_app w d1 p1 d2 p2 :
  with_output (with_output w d1 p1) d2 p2 = with_output w (d1 ++ d2) (p1 ++ p2).
Proof. unfold with_output. cbn. by rewrite !app_assoc. Qed.

Lemma with_output_sink w d :
  World (heap w) (sink w ++ d) (stdout w) (net w) (files w) = with_output w d [].
Proof. unfold with_output. by rewrite app_nil_r. Qed.

Lemma append_nil_r s : s +:+ "" = s.
Proof. induction s as [|c s IH]; [done |]. by rewrite append_cons, IH. Qed.

Lemma concat_text_cons s incs : concat_text (s :: incs) = s +:+ concat_text incs.
Proof. reflexivity. Qed.

(** *** Native SDK: every text of the stream goes to the sink *)

Lemma native_loop_run texts w :
  for_each texts (λ text (_ : unit), callback (JStr text)) tt w
  = (Ret tt, with_output w (JStr <$> texts) []).
Proof.
  revert w. induction texts as [|t texts IH]; intros w; cbn [for_each].
  - by rewrite with_output_nil.
  - unfold bind at 1, callback at 1. rewrite IH. f_equal.
    unfold with_output. cbn. by rewrite <-!app_assoc, !app_nil_r.
Qed.

(** *** Direct API *)

Lemma openai_loop_inv chunks acc w r w' :
  for_each chunks openai_chunk_step acc w = (r, w') →
  ∃ incs, w' = with_output w (JStr <$> incs) [] ∧
    Forall2 (λ chunk inc, chunk_increment chunk = Some inc)
      (take (length incs) chunks) incs ∧
    match r with
    | Ret acc' => length incs = length chunks ∧ acc' = acc +:+ concat_text incs
    | Exc e => e = IndexError
    end.
Proof.
  revert acc w. induction chunks as [|chunk chunks IH]; intros acc w H; cbn [for_each] in H.
  - injection H as <- <-. exists []. rewrite with_output_nil. simpl.
    split_and!; [done | constructor | done | by rewrite append_nil_r].
  - unfold openai_chunk_step at 1, bind at 1 2, lift, py_index in H.
    assert (Hci : chunk_increment chunk
                  = (λ c, default "" (delta_content c)) <$> (choices chunk !! 0)) by done.
    destruct (choices chunk !! 0) as [c|] eqn:Hc; cbn in Hci.
    + unfold bind at 1, callback at 1, ret at 1 in H.
      apply IH in H as (incs & -> & Hall & Hr).
      exists (default "" (delta_content c) :: incs). split_and!.
      * unfold with_output. cbn. by rewrite <-!app_assoc, !app_nil_r.
      * cbn. by constructor.
      * destruct r as [acc'|e]; [|done].
        destruct Hr as [Hlen ->]. split; [by cbn; rewrite Hlen |].
        by rewrite concat_text_cons, append_assoc.
    + injection H as <- <-. exists []. rewrite with_output_nil.
      split_and!; [done | constructor | done].
Qed.

(** *** Managed gateway, single pass *)

Lemma event_text_content_delta ev r :
  decode_event ev = Ret r → is_Some r ↔ is_content_delta ev = true.
Proof.
  assert (Hno : is_Some (@None json) ↔ false = true).
  { split; [by intros [] | done]. }
  unfold decode_event, is_content_delta.
  destruct ev as [|[[chunk_obj|e]|]]; cbn [obind]; try by intros [= <-].
  destruct (json_getitem chunk_obj "type") as [ty|e]; cbn [obind]; [|done].
  destruct (json_eq_str ty "content_block_delta"); [|by intros [= <-]].
  destruct (json_getitem chunk_obj "delta") as [delta|e]; cbn [obind]; [|done].
  destruct (json_getitem delta "text"); cbn [obind]; [|done].
  intros [= <-]. split; eauto.
Qed.

Lemma event_texts_cons ev evs :
  omap event_text (ev :: evs)
  = match decode_event ev with
    | Ret (Some text) => text :: omap event_text evs
    | _ => omap event_text evs
    end.
Proof. unfold event_text at 1. cbn. by destruct (decode_event ev) as [[]|]. Qed.

Lemma bedrock_loop_inv evs acc w r w' :
  for_each evs bedrock_event_step acc w = (r, w') →
  ∃ n, w' = with_output w (omap event_text (take n evs)) [] ∧
    ∀ acc', r = Ret acc' →
      take n evs = evs ∧
      length (omap event_text evs)
      = length (filter (λ ev, is_content_delta ev = true) evs) ∧
      ∃ incs, omap event_text evs = JStr <$> incs ∧ acc' = acc +:+ concat_text incs.
Proof.
  revert acc w. induction evs as [|ev evs IH]; intros acc w H; cbn [for_each] in H.
  - injection H as <- <-. exists 0. rewrite with_output_nil. split; [done |].
    intros ? [= <-]. split_and!; [done..|]. exists []. by rewrite append_nil_r.
  - unfold bedrock_event_step at 1, bind at 1 2, lift at 1 in H.
    destruct (decode_event ev) as [[text|]|e] eqn:Hd.
    + unfold bind at 1, callback at 1, lift, str_iadd in H.
      destruct text as [| | | |t| |];
        try (injection H as <- <-; exists 1; cbn [take]; rewrite event_texts_cons, Hd;
             split; [apply with_output_sink | by intros]).
      apply IH in H as (n & -> & Hr).
      exists (S n). cbn [take]. rewrite event_texts_cons, Hd. split.
      { unfold with_output. cbn. by rewrite <-!app_assoc, !app_nil_r. }
      intros acc' ->. destruct (Hr _ eq_refl) as (-> & Hlen & incs & Hincs & ->).
      rewrite event_texts_cons, Hd. split_and!.
      * done.
      * rewrite filter_cons_True by (by apply (event_text_content_delta _ _ Hd)).
        cbn. by rewrite Hlen.
      * exists (t :: incs). rewrite Hincs. split; [done |].
        by rewrite concat_text_cons, append_assoc.
    + unfold ret at 1 in H. apply IH in H as (n & -> & Hr).
      exists (S n). cbn [take]. rewrite event_texts_cons, Hd. split; [done |].
      intros acc' ->. destruct (Hr _ eq_refl) as (-> & Hlen & Hincs).
      rewrite event_texts_cons, Hd. split_and!; [done | | done].
      rewrite filter_cons_False; [done |].
      intros Hc. apply (event_text_content_delta _ _ Hd) in Hc. by destruct Hc.
    + injection H as <- <-. exists 0. rewrite with_output_nil. by split.
Qed.

(** ** The single-pass adapters *)

Lemma for_stream_inv {A S} (st : pystream A) (body : A → S → M S) s w r w' :
  for_stream st body s w = (r, w') →
  ∃ r1, for_each (items st) body s w = (r1, w') ∧
        r = match r1, failure st with
            | Ret _, Some e => Exc e
            | _, _ => r1
            end.
Proof.
  unfold for_stream. intros [(s1 & w1 & H1 & H)|(e & H1 & ->)]%bind_inv.
  - destruct (failure st); injection H as <- <-; eauto.
  - eauto.
Qed.

(** The direct-API call: the request goes out first; then either the
    transport refuses it, or every chunk up to the first failure yields
    one increment for the sink. *)
Lemma stream_openai_response_inv transport messages api_key base_url model w r w' :
  stream_openai_response transport messages api_key base_url model w = (r, w') →
  let ws := sent_world w (OpenAIRequest api_key base_url (openai_params messages model)) in
  match transport ws with
  | Exc e => r = Exc e ∧ w' = ws
  | Ret stream =>
      ∃ incs, w' = with_output ws (JStr <$> incs) [] ∧
        Forall2 (λ chunk inc, chunk_increment chunk = Some inc)
          (take (length incs) (items stream)) incs ∧
        ∀ text, r = Ret text →
          length incs = length (items stream) ∧
          failure stream = None ∧
          text = concat_text incs
  end.
Proof.
  intros H ws. unfold stream_openai_response in H. cbv zeta in H.
  unfold bind at 1, send at 1, bind at 1, ask at 1 in H.
  fold (sent_world w (OpenAIRequest api_key base_url (openai_params messages model))) in H.
  fold ws in H. destruct (transport ws) as [stream|e]; [|by injection H as <- <-].
  apply bind_inv in H as [(full & w1 & Hloop & H)|(e & Hloop & ->)];
    apply for_stream_inv in Hloop as (r1 & Hloop & Hr1);
    apply openai_loop_inv in Hloop as (incs & -> & Hall & Hincs); exists incs.
  - injection H as <- <-. split_and!; [done..|]. intros text [= <-].
    destruct r1 as [acc|]; [|by destruct (failure stream)].
    destruct Hincs as [Hlen ->]. destruct (failure stream); [done |].
    by injection Hr1 as ->.
  - by split_and!.
Qed.

(** The native-SDK call, once the translation has succeeded. *)
Lemma stream_claude_response_run transport messages api_key w system_prompt claude_messages w1 :
  translate_messages messages w = (Ret (system_prompt, claude_messages), w1) →
  let ws := sent_world w1 (AnthropicRequest api_key (Llm_value CLAUDE_3_SONNET) 4096
                             (VFloat 0 (-1)) system_prompt claude_messages) in
  stream_claude_response transport messages api_key w
  = match transport ws with
    | Exc e => (Exc e, ws)
    | Ret stream =>
        (match failure (text_stream stream) with
         | Some e => Exc e
         | None => obind (py_index (content (final_message stream)) 0) block_text
         end,
         with_output ws (JStr <$> items (text_stream stream)) [])
    end.
Proof.
  intros Htr ws. unfold stream_claude_response. cbv zeta.
  rewrite (bind_run _ _ _ _ _ Htr).
  cbn [fst snd]. unfold bind at 1, send at 1, bind at 1, ask at 1.
  fold (sent_world w1 (AnthropicRequest api_key (Llm_value CLAUDE_3_SONNET) 4096
                             (VFloat 0 (-1)) system_prompt claude_messages)).
  fold ws. destruct (transport ws) as [stream|e]; [|done].
  unfold bind at 1, for_stream, bind at 1. rewrite native_loop_run.
  destruct (failure (text_stream stream)); [done |].
  unfold ret at 1, bind at 1, lift at 1.
  destruct (py_index _ 0); [|done]. done.
Qed.

(** What the managed-gateway call does after a successful translation,
    inside its [try]. *)
Lemma stream_claude_response_aws_bedrock_inv transport messages access_key secret_access_key w r w' :
  stream_claude_response_aws_bedrock transport messages access_key secret_access_key w = (r, w') →
  (∃ e w1, translate_messages messages w = (Exc e, w1) ∧ bedrock_except e w1 = (r, w'))
  ∨ ∃ system_prompt claude_messages w1,
      translate_messages messages w = (Ret (system_prompt, claude_messages), w1) ∧
      ( (∃ e, bedrock_body 4096 claude_messages system_prompt (VFloat 0 (-1)) w1 = (Exc e, w1) ∧
              bedrock_except e w1 = (r, w'))
      ∨ ∃ request_body,
          bedrock_body 4096 claude_messages system_prompt (VFloat 0 (-1)) w1
            = (Ret request_body, w1) ∧
          let ws := sent_world w1 (BedrockRequest access_key secret_access_key request_body
                      "anthropic.claude-3-sonnet-20240229-v1:0" "*/*" "application/json") in
          match transport ws with
          | Exc e => bedrock_except e ws = (r, w')
          | Ret response =>
              let evs := match body response with
                         | Some stream => items stream
                         | None => []
                         end in
              ∃ n wl, wl = with_output ws (omap event_text (take n evs)) [] ∧
                ( (∃ e, bedrock_except e wl = (r, w'))
                ∨ ∃ incs, r = Ret (Some (concat_text incs)) ∧ w' = wl ∧
                    take n evs = evs ∧
                    omap event_text evs = JStr <$> incs ∧
                    length (omap event_text evs)
                    = length (filter (λ ev, is_content_delta ev = true) evs) ∧
                    match body response with
                    | Some stream => failure stream = None
                    | None => True
                    end)
          end).
Proof.
  intros H. unfold stream_claude_response_aws_bedrock, try_except in H.
  cbv zeta in H.
  destruct (translate_messages messages w) as [[[sys cm]|e] w1] eqn:Htr.
  2:{ left. rewrite (bind_exc _ _ _ _ _ Htr) in H. eauto. }
  right. exists sys, cm, w1. split; [done |].
  rewrite (bind_run _ _ _ _ _ Htr) in H. cbn [fst snd] in H.
  assert (Hb : ∃ rb, bedrock_body 4096 cm sys (VFloat 0 (-1)) w1 = (rb, w1)).
  { unfold bedrock_body, bind, get_heap, lift, ret.
    repeat (destruct (json_dumps _ _)); eauto. }
  destruct Hb as [[request_body|e] Hb].
  2:{ left. rewrite (bind_exc _ _ _ _ _ Hb) in H. eauto. }
  right. exists request_body. split; [done |].
  rewrite (bind_run _ _ _ _ _ Hb) in H.
  unfold bind at 1, send at 1, bind at 1, ask at 1 in H.
  intros ws.
  fold (sent_world w1 (BedrockRequest access_key secret_access_key request_body
          "anthropic.claude-3-sonnet-20240229-v1:0" "*/*" "application/json")) in H.
  fold ws in H. destruct (transport ws) as [response|e]; [|done].
  intros evs. subst evs.
  destruct (body response) as [stream|] eqn:Hbody.
  - destruct (for_stream stream bedrock_event_step "" ws) as [r1 wl] eqn:Hloop.
    pose proof Hloop as Hloop'.
    apply for_stream_inv in Hloop as (r2 & Hloop & Hr1).
    apply bedrock_loop_inv in Hloop as (n & -> & Hdel).
    exists n, (with_output ws (omap event_text (take n (items stream))) []).
    split; [done |].
    destruct r1 as [final|e].
    + rewrite (bind_run _ _ _ _ _ Hloop') in H. injection H as <- <-.
      right. destruct r2 as [final'|]; [|by destruct (failure stream)].
      destruct (Hdel _ eq_refl) as (Hd & Hlen & incs & Hincs & ->).
      destruct (failure stream); [done |]. injection Hr1 as ->.
      exists incs. split_and!; done.
    + rewrite (bind_exc _ _ _ _ _ Hloop') in H. left. eauto.
  - unfold bind at 1, ret at 1 in H. injection H as <- <-.
    exists 0, ws. cbn. rewrite with_output_nil. split; [done |]. right. exists []. done.
Qed.

Lemma messages_loop_step copies w r w' :
  for_each copies (λ message (_ : unit), translate_message message) tt w = (r, w') →
  translation_step w w'.
Proof.
  apply (for_each_preserves (translation_step w)); [|apply translation_step_refl].
  intros x s w1 r1 w2 _ Hw1 Hx. eapply translation_step_trans; [done |].
  by eapply translate_message_step.
Qed.

(** ** [json.dumps] *)

Lemma dumps_elems_length rec vs js :
  dumps_elems rec vs = Some (Ret js) → length js = length vs.
Proof.
  revert js. induction vs as [|v vs IH]; intros js; cbn [dumps_elems].
  - by intros [= <-].
  - destruct (rec v) as [[j|]|]; [|done..].
    destruct (dumps_elems rec vs) as [[js'|]|]; [|done..].
    intros [= <-]. cbn. by rewrite (IH js').
Qed.

Lemma json_dumps_list h l xs j :
  h !! l = Some (OList xs) → json_dumps h (VRef l) = Ret j →
  ∃ js, j = JList js ∧ length js = length xs.
Proof.
  unfold json_dumps. cbn [dumps_aux]. intros ->.
  rewrite bool_decide_eq_false_2 by apply not_elem_of_nil.
  destruct (dumps_elems _ xs) as [[js|]|] eqn:Hd; [|done..].
  intros [= <-]. exists js. split; [done |]. by eapply dumps_elems_length.
Qed.

Lemma bedrock_body_inv max_tokens messages system temperature w r w' :
  bedrock_body max_tokens messages system temperature w = (r, w') →
  w' = w ∧
  ∀ request_body, r = Ret request_body →
    ∃ messages_json system_json temperature_json,
      json_dumps (heap w) messages = Ret messages_json ∧
      json_dumps (heap w) system = Ret system_json ∧
      json_dumps (heap w) temperature = Ret temperature_json ∧
      request_body = JObj [("anthropic_version", JStr "bedrock-2023-05-31");
                           ("max_tokens", JInt max_tokens);
                           ("messages", messages_json);
                           ("system", system_json);
                           ("temperature", temperature_json)].
Proof.
  unfold bedrock_body, bind, get_heap, lift, ret.
  destruct (json_dumps (heap w) messages) as [mj|]; [|by intros [= <- <-]].
  destruct (json_dumps (heap w) system) as [sj|]; [|by intros [= <- <-]].
  destruct (json_dumps (heap w) temperature) as [tj|]; [|by intros [= <- <-]].
  intros [= <- <-]. split; [done |]. intros ? [= <-]. eauto 10.
Qed.

(** ** The translated request *)

(** A successful translation returns the content of the first message and
    a new list with one new turn for each of the other messages. *)
Lemma translate_messages_turns messages w system_prompt claude_messages w1 lm ms lf df :
  translate_messages messages w = (Ret (system_prompt, claude_messages), w1) →
  messages = VRef lm → heap w !! lm = Some (OList ms) →
  ms !! 0 = Some (VRef lf) → heap w !! lf = Some (ODict df) →
  system_prompt = default VNone (dict_get "content" df) ∧
  ∃ lc copies, claude_messages = VRef lc ∧ heap w !! lc = None ∧
    heap w1 !! lc = Some (OList copies) ∧
    length copies = length ms - 1 ∧
    Forall2 (turn_of (heap w) (heap w1)) (tail ms) copies.
Proof.
  intros Htr -> Hlm Hfirst Hlf.
  apply translate_messages_inv in Htr
    as (lm' & ms' & first & lf' & df' & lc & copies & w0 & [= <-] & Hlm' & Hfirst' & -> &
        Hlf' & -> & -> & Hio & Hsub & Hlc & Hlc0 & Hcopies & Hloop).
  rewrite Hlm in Hlm'. injection Hlm' as <-.
  rewrite Hfirst in Hfirst'. injection Hfirst' as <-.
  rewrite Hlf in Hlf'. injection Hlf' as <-.
  split; [done |]. exists lc, copies.
  apply messages_loop_step in Hloop as [_ [HL HD]].
  split_and!; [done | done | by apply HL | |].
  - rewrite <-(Forall2_length _ _ _ Hcopies). apply length_tail.
  - eapply Forall2_impl; [done |].
    intros m c (lm' & lc' & d & -> & -> & Hn & Hc & Ho).
    destruct (HD _ _ Hc) as (d' & Hc' & Hk).
    exists lc', d'. split_and!; [done..|].
    intros lm'' d0 [= <-] Hd0. apply Ho in Hd0 as [= ->]. done.
Qed.

Lemma bedrock_except_inv e w r w' :
  bedrock_except e w = (r, w') →
  heap w' = heap w ∧ sink w' = sink w ∧ net w' = net w ∧ files w' = files w ∧
  match e with
  | ClientError (Some message) =>
      r = Ret None ∧ stdout w' = stdout w ++ ["A client error occurred: " +:+ message]
  | ClientError None => r = Exc (KeyError "Message") ∧ stdout w' = stdout w
  | _ => r = Exc e ∧ stdout w' = stdout w ++ ["An error occurred!"]
  end.
Proof.
  unfold bedrock_except, bind, print, raise, ret.
  destruct e as [[m|]| | | | | | | |]; intros [= <- <-]; done.
Qed.

Lemma getitem_some l d k x w :
  heap w !! l = Some (ODict d) → dict_get k d = Some x →
  getitem (VRef l) k w = (Ret x, w).
Proof. intros Hl Hk. by rewrite (getitem_dict _ _ _ _ Hl), Hk. Qed.

(** One visit of an image part whose data URL is in place: the rewrite when
    the URL parses, the exception of the parse otherwise. *)
Lemma translate_part_run p dp u du urlv w :
  heap w !! p = Some (ODict dp) →
  dict_get "type" dp = Some (VStr "image_url") →
  dict_get "image_url" dp = Some (VRef u) →
  heap w !! u = Some (ODict du) →
  dict_get "url" du = Some urlv →
  ∃ s, heap w !! s = None ∧
    translate_part (VRef p) w
    = match parse_data_url urlv with
      | Ret parsed =>
          (Ret tt, with_heap w (<[p := ODict (rewritten dp s)]>
                                  (<[s := source_dict parsed.1 parsed.2]> (heap w))))
      | Exc e => (Exc e, with_heap w (<[p := ODict (retyped dp)]> (heap w)))
      end.
Proof.
  intros Hp Hty Hiu Hu Hurl.
  set (h1 := <[p := ODict (retyped dp)]> (heap w)).
  set (w3 := with_heap w (<[p := ODict (dict_del "image_url" (retyped dp))]> h1)).
  set (s := fresh (dom (heap w3))).
  assert (Hs : heap w3 !! s = None) by apply not_elem_of_dom, is_fresh.
  assert (Hsp : s ≠ p).
  { intros ->. subst w3. cbn [heap with_heap] in Hs. by rewrite lookup_insert_eq in Hs. }
  exists s. split.
  { subst w3 h1. cbn [heap with_heap] in Hs. by rewrite !lookup_insert_ne in Hs. }
  unfold translate_part.
  rewrite (bind_run _ _ _ _ _ (getitem_some _ _ _ _ _ Hp Hty)).
  change (val_eq_str (VStr "image_url") "image_url") with true. cbv iota.
  rewrite (bind_run _ _ _ _ _ (setitem_dict _ _ "type" _ _ Hp)).
  fold (retyped dp). fold h1.
  assert (Hp1 : heap (with_heap w h1) !! p = Some (ODict (retyped dp)))
    by apply lookup_insert_eq.
  assert (Hiu1 : dict_get "image_url" (retyped dp) = Some (VRef u))
    by by rewrite retyped_other.
  rewrite (bind_run _ _ _ _ _ (getitem_some _ _ _ _ _ Hp1 Hiu1)).
  assert (Hu1 : ∃ du1, heap (with_heap w h1) !! u = Some (ODict du1) ∧
                       dict_get "url" du1 = Some urlv).
  { cbn [heap with_heap]. subst h1. destruct (decide (p = u)) as [<-|Hne].
    - rewrite lookup_insert_eq. eexists. split; [done |].
      rewrite retyped_other by done. rewrite Hp in Hu. by injection Hu as ->.
    - rewrite lookup_insert_ne by done. eauto. }
  destruct Hu1 as (du1 & Hu1 & Hurl1).
  rewrite (bind_run _ _ _ _ _ (getitem_some _ _ _ _ _ Hu1 Hurl1)).
  unfold bind at 1, lift at 1.
  destruct (parse_data_url urlv) as [parsed|e]; [|done].
  rewrite (bind_run _ _ _ _ _ (delitem_dict _ _ "image_url" _ _ Hp1 Hiu1)).
  fold w3. unfold bind at 1, alloc at 1. fold s.
  erewrite setitem_dict; last first.
  { cbn [heap with_heap]. rewrite lookup_insert_ne by done. apply lookup_insert_eq. }
  do 2 f_equal. subst s w3 h1. cbn [heap with_heap] in *. set (s := fresh _) in *.
  unfold rewritten, source_dict.
  rewrite insert_insert_eq. rewrite (insert_insert_ne _ s p) by done.
  by rewrite insert_insert_eq.
Qed.

Lemma translate_failure_native transport messages api_key w e w1 :
  translate_messages messages w = (Exc e, w1) →
  stream_claude_response transport messages api_key w = (Exc e, w1).
Proof. intros H. unfold stream_claude_response. cbv zeta. by rewrite (bind_exc _ _ _ _ _ H). Qed.

Lemma translate_failure_bedrock transport messages access_key secret_access_key w e w1 :
  translate_messages messages w = (Exc e, w1) →
  stream_claude_response_aws_bedrock transport messages access_key secret_access_key w
  = bedrock_except e w1.
Proof.
  intros H. unfold stream_claude_response_aws_bedrock, try_except. cbv zeta.
  by rewrite (bind_exc _ _ _ _ _ H).
Qed.

Lemma translate_part_well_formed w p dp u du media_type payload :
  heap w !! p = Some (ODict dp) →
  dict_get "type" dp = Some (VStr "image_url") →
  dict_get "image_url" dp = Some (VRef u) →
  heap w !! u = Some (ODict du) →
  dict_get "url" du = Some (VStr ("data:" +:+ media_type +:+ ";base64," +:+ payload)) →
  contains_char ";" media_type = false →
  contains_char ":" media_type = false →
  contains_char "," media_type = false →
  contains_char "," payload = false →
  ∃ s w', translate_part (VRef p) w = (Ret tt, w') ∧
          heap w !! s = None ∧
          heap w' !! p = Some (ODict (rewritten dp s)) ∧
          heap w' !! s = Some (source_dict media_type payload).
Proof.
  intros Hp Hty Hiu Hu Hurl H1 H2 H3 H4.
  destruct (translate_part_run _ _ _ _ _ _ Hp Hty Hiu Hu Hurl) as (s & Hs & Hrun).
  rewrite (parse_data_url_well_formed _ _ H1 H2 H3 H4) in Hrun.
  exists s. eexists. split; [exact Hrun |]. cbn [heap with_heap fst snd].
  split_and!; [done | apply lookup_insert_eq |].
  rewrite lookup_insert_ne by congruence. apply lookup_insert_eq.
Qed.

Lemma translate_part_no_comma w p dp u du url :
  heap w !! p = Some (ODict dp) →
  dict_get "type" dp = Some (VStr "image_url") →
  dict_get "image_url" dp = Some (VRef u) →
  heap w !! u = Some (ODict du) →
  dict_get "url" du = Some (VStr url) →
  contains_char "," url = false →
  ∃ w', translate_part (VRef p) w = (Exc IndexError, w') ∧
        net w' = net w ∧ sink w' = sink w.
Proof.
  intros Hp Hty Hiu Hu Hurl Hno.
  destruct (translate_part_run _ _ _ _ _ _ Hp Hty Hiu Hu Hurl) as (s & Hs & Hrun).
  rewrite (parse_data_url_no_comma _ Hno) in Hrun.
  eexists. split; [exact Hrun |]. done.
Qed.

Lemma failed_translation_before_network messages w w1 :
  translate_messages messages w = (Exc IndexError, w1) →
  net w1 = net w ∧ sink w1 = sink w ∧
  (∀ transport api_key,
     stream_claude_response transport messages api_key w = (Exc IndexError, w1)) ∧
  (∀ transport access_key secret_access_key,
     ∃ w2, stream_claude_response_aws_bedrock transport messages access_key
             secret_access_key w = (Exc IndexError, w2) ∧
           net w2 = net w ∧ sink w2 = sink w).
Proof.
  intros Htr.
  pose proof (translate_messages_step _ _ _ _ Htr) as [(Hsink & _ & Hnet & _) _].
  split_and!; [done | done | |].
  - intros. by apply translate_failure_native.
  - intros. rewrite (translate_failure_bedrock _ _ _ _ _ _ _ Htr).
    destruct (bedrock_except IndexError w1) as [r w2] eqn:He.
    apply bedrock_except_inv in He as (_ & Hs2 & Hn2 & _ & -> & _).
    exists w2. split; [done |]. split; congruence.
Qed.

(** A comma-less data URL ends both single-pass adapters with
    [IndexError], no request issued. *)
Example malformed_url_stops_before_network transport_native transport_bedrock :
  (∃ w', stream_claude_response transport_native (VRef 1) "key"
           (world_of malformed_store) = (Exc IndexError, w') ∧ net w' = [] ∧ sink w' = []) ∧
  (∃ w', stream_claude_response_aws_bedrock transport_bedrock (VRef 1) "id" "secret"
           (world_of malformed_store) = (Exc IndexError, w') ∧ net w' = [] ∧ sink w' = []).
Proof.
  assert (∃ w1, translate_messages (VRef 1) (world_of malformed_store)
                = (Exc IndexError, w1)) as [w1 Htr] by (eexists; vm_compute; reflexivity).
  destruct (failed_translation_before_network _ _ _ Htr) as (Hn & Hs & Hnat & Hbed).
  split.
  - exists w1. by rewrite Hnat.
  - destruct (Hbed transport_bedrock "id" "secret") as (w2 & -> & ? & ?). by exists w2.
Qed.

Lemma native_request_shape w lm ms lf df transport api_key r w' :
  heap w !! lm = Some (OList ms) →
  ms !! 0 = Some (VRef lf) →
  heap w !! lf = Some (ODict df) →
  stream_claude_response transport (VRef lm) api_key w = (r, w') →
  net w' = net w ∨
  ∃ lc copies hs,
    net w' = net w ++
      [Sent (AnthropicRequest api_key "claude-3-sonnet-20240229" 4096 (VFloat 0 (-1))
               (default VNone (dict_get "content" df)) (VRef lc)) hs] ∧
    hs !! lc = Some (OList copies) ∧
    length copies = length ms - 1 ∧
    Forall2 (turn_of (heap w) hs) (tail ms) copies.
Proof.
  intros Hlm Hfirst Hlf Hrun.
  destruct (translate_messages (VRef lm) w) as [[[sys cm]|e] w1] eqn:Htr.
  - pose proof (translate_messages_step _ _ _ _ Htr) as [(_ & _ & Hnet & _) _].
    destruct (translate_messages_turns _ _ _ _ _ _ _ _ _ Htr eq_refl Hlm Hfirst Hlf)
      as (-> & lc & copies & -> & Hlc & Hlc1 & Hlen & Hturns).
    rewrite (stream_claude_response_run _ _ _ _ _ _ _ Htr) in Hrun.
    right. exists lc, copies, (heap w1).
    split; [|done].
    destruct (transport _); injection Hrun as <- <-; cbn; by rewrite Hnet.
  - rewrite (translate_failure_native _ _ _ _ _ _ Htr) in Hrun. injection Hrun as <- <-.
    left. by pose proof (translate_messages_step _ _ _ _ Htr) as [(_ & _ & Hnet & _) _].
Qed.

Lemma json_dumps_float h m e : json_dumps h (VFloat m e) = Ret (JFloat m e).
Proof. reflexivity. Qed.

Lemma bedrock_request_shape w lm ms lf df transport access_key secret_access_key r w' :
  heap w !! lm = Some (OList ms) →
  ms !! 0 = Some (VRef lf) →
  heap w !! lf = Some (ODict df) →
  stream_claude_response_aws_bedrock transport (VRef lm) access_key secret_access_key w
  = (r, w') →
  net w' = net w ∨
  ∃ lc copies turns system_json hs,
    net w' = net w ++
      [Sent (BedrockRequest access_key secret_access_key
               (JObj [("anthropic_version", JStr "bedrock-2023-05-31");
                      ("max_tokens", JInt 4096);
                      ("messages", JList turns);
                      ("system", system_json);
                      ("temperature", JFloat 0 (-1))])
               "anthropic.claude-3-sonnet-20240229-v1:0" "*/*" "application/json") hs] ∧
    json_dumps hs (default VNone (dict_get "content" df)) = Ret system_json ∧
    hs !! lc = Some (OList copies) ∧
    json_dumps hs (VRef lc) = Ret (JList turns) ∧
    length turns = length ms - 1 ∧
    Forall2 (turn_of (heap w) hs) (tail ms) copies.
Proof.
  intros Hlm Hfirst Hlf Hrun.
  apply stream_claude_response_aws_bedrock_inv in Hrun
    as [(e & w1 & Htr & He)|(sys & cm & w1 & Htr & Hrest)];
    pose proof (translate_messages_step _ _ _ _ Htr) as [(_ & _ & Hnet & _) _].
  { left. apply bedrock_except_inv in He as (_ & _ & -> & _). done. }
  destruct (translate_messages_turns _ _ _ _ _ _ _ _ _ Htr eq_refl Hlm Hfirst Hlf)
    as (-> & lc & copies & -> & Hlc & Hlc1 & Hlen & Hturns).
  destruct Hrest as [(e & _ & He)|(request_body & Hbody & Hrest)].
  { left. apply bedrock_except_inv in He as (_ & _ & -> & _). done. }
  right. apply bedrock_body_inv in Hbody as [_ Hbody].
  destruct (Hbody _ eq_refl) as (mj & sj & tj & Hmj & Hsj & Htj & ->).
  destruct (json_dumps_list _ _ _ _ Hlc1 Hmj) as (turns & -> & Hturnslen).
  rewrite json_dumps_float in Htj. injection Htj as <-.
  exists lc, copies, turns, sj, (heap w1).
  split_and!; try done; [|congruence].
  cbv zeta in Hrest. destruct (transport _) as [response|e].
  - destruct Hrest as (n & wl & -> & [[e He]|(incs & _ & -> & _)]).
    + apply bedrock_except_inv in He as (_ & _ & -> & _). cbn. by rewrite Hnet.
    + cbn. by rewrite Hnet.
  - apply bedrock_except_inv in Hrest as (_ & _ & -> & _). cbn. by rewrite Hnet.
Qed.

(** Every image part of a translated message ends rewritten in the
    caller's own store. *)
Lemma translate_messages_rewrites_part messages w system_prompt claude_messages w1
    lm ms i m dm cl parts p dp :
  translate_messages messages w = (Ret (system_prompt, claude_messages), w1) →
  messages = VRef lm → heap w !! lm = Some (OList ms) →
  ms !! S i = Some (VRef m) → heap w !! m = Some (ODict dm) →
  dict_get "content" dm = Some (VRef cl) → heap w !! cl = Some (OList parts) →
  VRef p ∈ parts → heap w !! p = Some (ODict dp) →
  dict_get "type" dp = Some (VStr "image_url") →
  ∃ s media_type data,
    heap w !! s = None ∧
    heap w1 !! p = Some (ODict (rewritten dp s)) ∧
    heap w1 !! s = Some (source_dict media_type data) ∧
    ∀ u du urlv,
      dict_get "image_url" dp = Some (VRef u) →
      heap w !! u = Some (ODict du) →
      dict_get "url" du = Some urlv →
      parse_data_url urlv = Ret (media_type, data).
Proof.
  intros Htr -> Hlm Hm Hdm Hcontent Hcl Hin Hp Hty.
  apply translate_messages_inv in Htr
    as (lm' & ms' & first & lf' & df' & lc & copies & w0 & [= <-] & Hlm' & _ & _ &
        _ & _ & _ & Hio & Hsub & Hlc & Hlc0 & Hcopies & Hloop).
  rewrite Hlm in Hlm'. injection Hlm' as <-.
  assert (Htail : tail ms !! i = Some (VRef m)) by (by destruct ms).
  destruct (Forall2_lookup_l _ _ _ _ _ Hcopies Htail)
    as (c & Hc & lm' & lc' & d & [= <-] & -> & Hn & Hc0 & Ho).
  apply Ho in Hdm as [= <-].
  destruct (messages_loop_rewrites_part (heap w0) p dp Hty lc' dm cl parts) with
    (copies := copies) (w := w0) (w' := w1) as (s & mt & data & Hs & Hp1 & Hs1 & Hurl);
    try done.
  - by eapply lookup_weaken.
  - by eapply list_elem_of_lookup_2.
  - split; [by eapply lookup_weaken | apply rewrites_refl].
  - exists s, mt, data. split_and!; try done.
    + by eapply lookup_weaken_None.
    + intros u du urlv Hiu Hu Hurlv.
      eapply Hurl; [done | by eapply lookup_weaken | done].
Qed.

(** The shallow copy: the turn made from a message holds the very content
    list of that message. *)
Lemma turn_shares_content h hs m c lm dm cl :
  turn_of h hs m c → m = VRef lm → h !! lm = Some (ODict dm) →
  dict_get "content" dm = Some (VRef cl) →
  ∃ lc dc, c = VRef lc ∧ hs !! lc = Some (ODict dc) ∧
           dict_get "content" dc = Some (VRef cl).
Proof.
  intros (lc & d' & -> & _ & Hc & Hk) -> Hlm Hcontent.
  exists lc, d'. split_and!; [done..|].
  rewrite (Hk _ _ eq_refl Hlm); [done |]. unfold rewritten_key. naive_solver.
Qed.

Lemma native_keeps_translated_store transport messages api_key w x w1 r w' :
  translate_messages messages w = (Ret x, w1) →
  stream_claude_response transport messages api_key w = (r, w') →
  heap w' = heap w1.
Proof.
  destruct x as [sys cm]. intros Htr Hrun.
  rewrite (stream_claude_response_run _ _ _ _ _ _ _ Htr) in Hrun.
  by destruct (transport _); injection Hrun as <- <-.
Qed.

Lemma bedrock_keeps_translated_store transport messages access_key secret_access_key
    w x w1 r w' :
  translate_messages messages w = (Ret x, w1) →
  stream_claude_response_aws_bedrock transport messages access_key secret_access_key w
  = (r, w') →
  heap w' = heap w1.
Proof.
  destruct x as [sys cm]. intros Htr Hrun.
  apply stream_claude_response_aws_bedrock_inv in Hrun
    as [(e & w2 & Htr' & He)|(sys' & cm' & w2 & Htr' & Hrest)]; [congruence |].
  rewrite Htr in Htr'. injection Htr' as <- <- <-.
  destruct Hrest as [(e & _ & He)|(request_body & Hbody & Hrest)].
  { by apply bedrock_except_inv in He as (-> & _). }
  cbv zeta in Hrest. destruct (transport _) as [response|e].
  - destruct Hrest as (n & wl & -> & [[e He]|(incs & _ & -> & _)]); [|done].
    by apply bedrock_except_inv in He as (-> & _).
  - by apply bedrock_except_inv in Hrest as (-> & _).
Qed.

(** C10: the translation of the single-pass native and managed-gateway
    adapters changes the caller's own objects.  Whenever the translation
    completes, every image part [p] found in the content list of a message
    after the first has, in the caller's store, its type set to ["image"],
    its [image_url] item deleted and a [source] item added that refers to a
    new dictionary with the media type and payload of its data URL; its
    other items are kept.  The turn sent for the message is a copy that
    shares the content list, and neither adapter touches the store after
    the translation. *)
Theorem translation_mutates_caller_parts messages w system_prompt claude_messages w1
    lm ms i m dm cl parts p dp :
  translate_messages messages w = (Ret (system_prompt, claude_messages), w1) →
  messages = VRef lm → heap w !! lm = Some (OList ms) →
  ms !! S i = Some (VRef m) → heap w !! m = Some (ODict dm) →
  dict_get "content" dm = Some (VRef cl) → heap w !! cl = Some (OList parts) →
  VRef p ∈ parts → heap w !! p = Some (ODict dp) →
  dict_get "type" dp = Some (VStr "image_url") →
  (∃ dp' s media_type data,
     heap w1 !! p = Some (ODict dp') ∧
     dict_get "type" dp' = Some (VStr "image") ∧
     dict_get "image_url" dp' = None ∧
     dict_get "source" dp' = Some (VRef s) ∧
     (∀ k, ¬ rewritten_key k → dict_get k dp' = dict_get k dp) ∧
     heap w !! s = None ∧
     heap w1 !! s = Some (source_dict media_type data) ∧
     ∀ u du urlv,
       dict_get "image_url" dp = Some (VRef u) →
       heap w !! u = Some (ODict du) →
       dict_get "url" du = Some urlv →
       parse_data_url urlv = Ret (media_type, data)) ∧
  heap w1 !! p ≠ heap w !! p ∧
  (∃ lt copies lc dc,
     claude_messages = VRef lt ∧ heap w1 !! lt = Some (OList copies) ∧
     copies !! i = Some (VRef lc) ∧ heap w !! lc = None ∧
     heap w1 !! lc = Some (ODict dc) ∧
     dict_get "content" dc = Some (VRef cl) ∧
     heap w1 !! cl = Some (OList parts)) ∧
  (∀ transport api_key r w',
     stream_claude_response transport messages api_key w = (r, w') →
     heap w' = heap w1) ∧
  (∀ transport access_key secret_access_key r w',
     stream_claude_response_aws_bedrock transport messages access_key secret_access_key w
     = (r, w') →
     heap w' = heap w1).
Proof.
  intros Htr Hmsg Hlm Hm Hdm Hcontent Hcl Hin Hp Hty.
  destruct (translate_messages_rewrites_part _ _ _ _ _ _ _ _ _ _ _ _ _ _
              Htr Hmsg Hlm Hm Hdm Hcontent Hcl Hin Hp Hty)
    as (s & mt & data & Hs & Hp1 & Hs1 & Hurl).
  split_and!.
  - exists (rewritten dp s), s, mt, data.
    split_and!; try done.
    + apply rewritten_type.
    + apply rewritten_image_url.
    + apply rewritten_source.
    + intros. by apply rewritten_other.
  - rewrite Hp1, Hp. intros [= Heq].
    pose proof (rewritten_type dp s) as Ht. rewrite Heq, Hty in Ht. done.
  - pose proof (translate_messages_step _ _ _ _ Htr) as [_ [HL _]].
    subst messages.
    assert (∃ lf df, ms !! 0 = Some (VRef lf) ∧ heap w !! lf = Some (ODict df))
      as (lf & df & Hfirst & Hlf).
    { apply translate_messages_inv in Htr
        as (lm' & ms' & first & lf' & df' & _ & _ & _ & [= <-] & Hlm' & Hf & -> & Hlf & _).
      rewrite Hlm in Hlm'. injection Hlm' as <-. eauto. }
    destruct (translate_messages_turns _ _ _ _ _ _ _ _ _ Htr eq_refl Hlm Hfirst Hlf)
      as (_ & lt & copies & -> & Hlt & Hlt1 & Hlen & Hturns).
    assert (Htail : tail ms !! i = Some (VRef m)) by (by destruct ms).
    destruct (Forall2_lookup_l _ _ _ _ _ Hturns Htail) as (c & Hc & Hturn).
    destruct (turn_shares_content _ _ _ _ _ _ _ Hturn eq_refl Hdm Hcontent)
      as (lc & dc & -> & Hlc & Hdc).
    destruct Hturn as (lc' & d' & [= <-] & Hnew & _).
    exists lt, copies, lc, dc. split_and!; try done. by apply HL.
  - intros. by eapply native_keeps_translated_store.
  - intros. by eapply bedrock_keeps_translated_store.
Qed.

Lemma translation_mutates_caller_parts_witness :
  (∃ dp' s media_type data,
     heap (translate_messages (VRef 1) (world_of example_store)).2 !! 6%positive
     = Some (ODict dp') ∧
     dict_get "type" dp' = Some (VStr "image") ∧
     dict_get "image_url" dp' = None ∧
     dict_get "source" dp' = Some (VRef s) ∧
     heap (translate_messages (VRef 1) (world_of example_store)).2 !! s
     = Some (source_dict media_type data)) ∧
  heap (translate_messages (VRef 1) (world_of example_store)).2 !! 6%positive
  ≠ example_store !! 6%positive.
Proof.
  destruct (translation_mutates_caller_parts (VRef 1) (world_of example_store)
              (VStr "You are an expert.") (VRef 9)
              (translate_messages (VRef 1) (world_of example_store)).2
              1%positive [VRef 2; VRef 3] 0 3%positive
              [("role", VStr "user"); ("content", VRef 4)] 4%positive [VRef 5; VRef 6]
              6%positive [("type", VStr "image_url"); ("image_url", VRef 7)])
    as (Hpart & Hchanged & _).
  - vm_compute. reflexivity.
  - reflexivity.
  - reflexivity.
  - reflexivity.
  - reflexivity.
  - reflexivity.
  - reflexivity.
  - apply list_elem_of_further, list_elem_of_here.
  - reflexivity.
  - reflexivity.
  - split; [|exact Hchanged].
    destruct Hpart as (dp' & s & mt & data & H1 & H2 & H3 & H4 & _ & _ & H5 & _).
    exists dp', s, mt, data. repeat split; assumption.
Defined.

(** ** What the sink receives and what the call returns *)

Lemma take_prefix_of {A} n (l : list A) : take n l `prefix_of` l.
Proof. exists (drop n l). by rewrite take_drop. Qed.

Lemma openai_sink transport messages api_key base_url model w r w' :
  stream_openai_response transport messages api_key base_url model w = (r, w') →
  ∃ chunks incs,
    sink w' = sink w ++ (JStr <$> incs) ∧
    Forall2 (λ chunk inc, chunk_increment chunk = Some inc) chunks incs ∧
    (chunks = [] ∨
     ∃ ws stream, transport ws = Ret stream ∧ chunks `prefix_of` items stream).
Proof.
  intros H%stream_openai_response_inv. cbv zeta in H.
  destruct (transport _) as [stream|e] eqn:Ht.
  - destruct H as (incs & -> & Hall & Hr).
    exists (take (length incs) (items stream)), incs.
    split_and!; [done | done |]. right. eauto using take_prefix_of.
  - destruct H as [-> ->]. exists [], []. cbn. rewrite app_nil_r.
    split_and!; [done | constructor | by left].
Qed.

Lemma openai_returns transport messages api_key base_url model w text w' :
  stream_openai_response transport messages api_key base_url model w = (Ret text, w') →
  ∃ ws stream incs,
    transport ws = Ret stream ∧
    Forall2 (λ chunk inc, chunk_increment chunk = Some inc) (items stream) incs ∧
    sink w' = sink w ++ (JStr <$> incs) ∧
    text = concat_text incs.
Proof.
  intros H%stream_openai_response_inv. cbv zeta in H.
  destruct (transport _) as [stream|e] eqn:Ht; [|by destruct H].
  destruct H as (incs & -> & Hall & Hr).
  destruct (Hr _ eq_refl) as (Hlen & _ & ->).
  rewrite Hlen, firstn_all in Hall. eauto 10.
Qed.

Lemma native_sink transport messages api_key w r w' :
  stream_claude_response transport messages api_key w = (r, w') →
  ∃ texts,
    sink w' = sink w ++ (JStr <$> texts) ∧
    (texts = [] ∨
     ∃ ws stream, transport ws = Ret stream ∧ texts = items (text_stream stream)).
Proof.
  intros Hrun.
  destruct (translate_messages messages w) as [[[sys cm]|e] w1] eqn:Htr;
    pose proof (translate_messages_step _ _ _ _ Htr) as [(Hsink & _) _].
  - rewrite (stream_claude_response_run _ _ _ _ _ _ _ Htr) in Hrun. cbv zeta in Hrun.
    destruct (transport _) as [stream|e] eqn:Ht; injection Hrun as <- <-.
    + exists (items (text_stream stream)). cbn. rewrite Hsink. eauto 10.
    + exists []. cbn. rewrite Hsink, app_nil_r. eauto.
  - rewrite (translate_failure_native _ _ _ _ _ _ Htr) in Hrun. injection Hrun as <- <-.
    exists []. cbn. rewrite Hsink, app_nil_r. eauto.
Qed.

Lemma first_block_text blocks text :
  obind (py_index blocks 0) block_text = Ret text ↔ head blocks = Some (TextBlock text).
Proof.
  destruct blocks as [|[t|] blocks]; cbn; split; try done; by intros [= ->].
Qed.

Lemma native_returns transport messages api_key w text w' :
  stream_claude_response transport messages api_key w = (Ret text, w') →
  ∃ ws stream,
    transport ws = Ret stream ∧
    sink w' = sink w ++ (JStr <$> items (text_stream stream)) ∧
    head (content (final_message stream)) = Some (TextBlock text).
Proof.
  intros Hrun.
  destruct (translate_messages messages w) as [[[sys cm]|e] w1] eqn:Htr;
    pose proof (translate_messages_step _ _ _ _ Htr) as [(Hsink & _) _].
  - rewrite (stream_claude_response_run _ _ _ _ _ _ _ Htr) in Hrun. cbv zeta in Hrun.
    destruct (transport _) as [stream|e] eqn:Ht; [|done].
    injection Hrun as Hr <-. destruct (failure (text_stream stream)); [done |].
    apply first_block_text in Hr. do 2 eexists. split; [done |].
    cbn. by rewrite Hsink.
  - by rewrite (translate_failure_native _ _ _ _ _ _ Htr) in Hrun.
Qed.

Lemma bedrock_sink transport messages access_key secret_access_key w r w' :
  stream_claude_response_aws_bedrock transport messages access_key secret_access_key w
  = (r, w') →
  ∃ events,
    sink w' = sink w ++ omap event_text events ∧
    (events = [] ∨
     ∃ ws response stream,
       transport ws = Ret response ∧ body response = Some stream ∧
       events `prefix_of` items stream).
Proof.
  intros H. apply stream_claude_response_aws_bedrock_inv in H
    as [(e & w1 & Htr & He)|(sys & cm & w1 & Htr & Hrest)];
    pose proof (translate_messages_step _ _ _ _ Htr) as [(Hsink & _) _].
  { apply bedrock_except_inv in He as (_ & -> & _). exists []. cbn.
    rewrite app_nil_r. eauto. }
  destruct Hrest as [(e & _ & He)|(request_body & Hbody & Hrest)].
  { apply bedrock_except_inv in He as (_ & -> & _). exists []. cbn.
    rewrite app_nil_r. eauto. }
  cbv zeta in Hrest. destruct (transport _) as [response|e] eqn:Ht.
  - destruct Hrest as (n & wl & -> & Hrest).
    assert (sink w' = sink w ++
        omap event_text (take n match body response with
                                | Some stream => items stream
                                | None => []
                                end)) as ->.
    { destruct Hrest as [[e He]|(incs & _ & -> & _)].
      - apply bedrock_except_inv in He as (_ & -> & _). cbn. by rewrite Hsink.
      - cbn. by rewrite Hsink. }
    destruct (body response) as [stream|] eqn:Hb.
    + exists (take n (items stream)). split; [done |]. right.
      eauto 10 using take_prefix_of.
    + exists []. rewrite take_nil. eauto.
  - apply bedrock_except_inv in Hrest as (_ & -> & _). exists []. cbn.
    rewrite Hsink, app_nil_r. eauto.
Qed.

Lemma bedrock_returns transport messages access_key secret_access_key w text w' :
  stream_claude_response_aws_bedrock transport messages access_key secret_access_key w
  = (Ret (Some text), w') →
  ∃ ws response events incs,
    transport ws = Ret response ∧
    events = match body response with Some stream => items stream | None => [] end ∧
    omap event_text events = JStr <$> incs ∧
    length incs = length (filter (λ ev, is_content_delta ev = true) events) ∧
    sink w' = sink w ++ (JStr <$> incs) ∧
    text = concat_text incs.
Proof.
  assert (Hno : ∀ e w0 w0', bedrock_except e w0 = (Ret (Some text), w0') → False).
  { intros e w0 w0' He. apply bedrock_except_inv in He as (_ & _ & _ & _ & He).
    destruct e as [[m|]| | | | | | | |]; by destruct He. }
  intros H. apply stream_claude_response_aws_bedrock_inv in H
    as [(e & w1 & Htr & He)|(sys & cm & w1 & Htr & Hrest)]; [by exfalso; eapply Hno |];
    pose proof (translate_messages_step _ _ _ _ Htr) as [(Hsink & _) _].
  destruct Hrest as [(e & _ & He)|(request_body & Hbody & Hrest)]; [by exfalso; eapply Hno |].
  cbv zeta in Hrest. destruct (transport _) as [response|e] eqn:Ht; [|by exfalso; eapply Hno].
  destruct Hrest as (n & wl & -> & [[e He]|(incs & [= ->] & -> & Htake & Hincs & Hlen & _)]);
    [by exfalso; eapply Hno |].
  eexists. exists response. eexists. exists incs.
  split; [exact Ht |]. split; [reflexivity |].
  split_and!.
  - exact Hincs.
  - by rewrite <-Hlen, Hincs, length_fmap.
  - cbn. by rewrite Htake, Hincs, Hsink.
  - done.
Qed.

Lemma not_content_delta_no_text ev : is_content_delta ev = false → event_text ev = None.
Proof.
  intros Hc. unfold event_text. destruct (decode_event ev) as [[text|]|e] eqn:Hd; [|done..].
  apply event_text_content_delta in Hd. destruct Hd as [Hd _].
  rewrite Hd in Hc; [done | by eexists].
Qed.

(** C1, as the code has it: a direct-API or managed-gateway call that
    returns a text returns the concatenation, in arrival order, of the
    increments it delivered to the sink.  A native-SDK call delivers the
    texts of the transport's stream and returns the text of the first
    content block of the transport's final message; the two agree when that
    block is the concatenation of the streamed texts. *)
Theorem returned_text_and_increments :
  (∀ transport messages api_key base_url model w text w',
     stream_openai_response transport messages api_key base_url model w = (Ret text, w') →
     ∃ incs, sink w' = sink w ++ (JStr <$> incs) ∧ text = concat_text incs) ∧
  (∀ transport messages access_key secret_access_key w text w',
     stream_claude_response_aws_bedrock transport messages access_key secret_access_key w
     = (Ret (Some text), w') →
     ∃ incs, sink w' = sink w ++ (JStr <$> incs) ∧ text = concat_text incs) ∧
  (∀ transport messages api_key w text w',
     stream_claude_response transport messages api_key w = (Ret text, w') →
     ∃ ws stream,
       transport ws = Ret stream ∧
       sink w' = sink w ++ (JStr <$> items (text_stream stream)) ∧
       head (content (final_message stream)) = Some (TextBlock text) ∧
       (head (content (final_message stream))
        = Some (TextBlock (concat_text (items (text_stream stream)))) →
        text = concat_text (items (text_stream stream)))).
Proof.
  split_and!.
  - intros * (ws & stream & incs & _ & _ & ? & ?)%openai_returns. eauto.
  - intros * (ws & response & events & incs & _ & _ & _ & _ & ? & ?)%bedrock_returns. eauto.
  - intros * (ws & stream & Ht & Hs & Hh)%native_returns.
    exists ws, stream. split_and!; [done..|]. rewrite Hh. by intros [= ->].
Qed.

Lemma returned_text_and_increments_witness :
  ∃ incs,
    sink (stream_openai_response
            (chunk_transport [ChatChunk [Choice (Some "<h")]; ChatChunk [Choice None];
                              ChatChunk [Choice (Some "tml>")]])
            (VRef 1) "key" None GPT_4_VISION (world_of example_store)).2
    = sink (world_of example_store) ++ (JStr <$> incs) ∧
    "<html>" = concat_text incs.
Proof.
  apply (proj1 returned_text_and_increments
           (chunk_transport [ChatChunk [Choice (Some "<h")]; ChatChunk [Choice None];
                             ChatChunk [Choice (Some "tml>")]])
           (VRef 1) "key" None GPT_4_VISION (world_of example_store) "<html>").
  vm_compute. reflexivity.
Defined.

(** C1 as stated fails for the native-SDK variant: a transport whose final
    message has two text blocks ["a"] and ["b"], streamed as ["a"], ["b"],
    makes the call return ["a"] after the sink received ["a"] and ["b"]. *)
Lemma native_return_is_not_the_concatenation :
  ¬ (∀ transport messages api_key w text w',
       stream_claude_response transport messages api_key w = (Ret text, w') →
       ∃ incs, sink w' = sink w ++ (JStr <$> incs) ∧ text = concat_text incs).
Proof.
  intros H.
  destruct (stream_claude_response
              (text_transport ["a"; "b"] [TextBlock "a"; TextBlock "b"])
              (VRef 1) "key" (world_of example_store)) as [r w'] eqn:Hrun.
  assert (r = Ret "a" ∧ sink w' = [JStr "a"; JStr "b"]) as [-> Hsink].
  { vm_compute in Hrun. by injection Hrun as <- <-. }
  destruct (H _ _ _ _ _ _ Hrun) as (incs & Hincs & Htext).
  rewrite Hsink in Hincs. cbn in Hincs.
  destruct incs as [|i1 [|i2 [|i3 incs]]]; try done.
  injection Hincs as <- <-. done.
Qed.

(** ** The two-pass orchestrators *)

Lemma quiet_refl w : quiet w w.
Proof. done. Qed.

Lemma quiet_trans w1 w2 w3 : quiet w1 w2 → quiet w2 w3 → quiet w1 w3.
Proof. unfold quiet. intros (?&?&?) (?&?&?). split_and!; congruence. Qed.

Lemma messages_to_send_inv include_thinking lm current w to_send w' :
  heap w !! lm = Some (OList current) →
  messages_to_send include_thinking (VRef lm) w = (Ret to_send, w') →
  ∃ fresh_objects hs,
    outgoing include_thinking (heap w) hs lm current to_send fresh_objects ∧
    w' = with_heap w hs.
Proof.
  intros Hlm. unfold messages_to_send, outgoing. destruct include_thinking.
  - destruct (alloc_run provisional_turn w) as (p & Hp & Hallocp).
    fold provisional_turn. rewrite (bind_run _ _ _ _ _ Hallocp).
    assert (Hlm1 : heap (with_heap w (<[p:=provisional_turn]> (heap w))) !! lm
                   = Some (OList current)).
    { cbn [heap with_heap]. rewrite lookup_insert_ne; [done | congruence]. }
    rewrite (bind_run _ _ _ _ _ (list_elems_list lm current _ Hlm1)).
    destruct (alloc_run (OList (current ++ [VRef p]))
                (with_heap w (<[p:=provisional_turn]> (heap w)))) as (nl & Hnl & Hallocnl).
    rewrite Hallocnl. intros [= <- <-]. exists [p; nl]. eexists. split; [|done].
    exists p, nl. cbn [heap with_heap] in *. split_and!; try done.
    + rewrite lookup_insert_None in Hnl. by destruct Hnl.
    + intros <-. by rewrite lookup_insert_eq in Hnl.
  - intros [= <- <-]. exists [], (heap w). by destruct w.
Qed.

Lemma outgoing_keeps include_thinking h hs lm current to_send fresh_objects l o :
  outgoing include_thinking h hs lm current to_send fresh_objects →
  h !! l = Some o → hs !! l = Some o.
Proof.
  unfold outgoing. destruct include_thinking.
  - intros (p & nl & Hp & Hnl & _ & _ & _ & ->) Hl.
    rewrite !lookup_insert_ne; [done | congruence | congruence].
  - by intros (_ & _ & ->).
Qed.

Lemma outgoing_fresh include_thinking h hs lm current to_send fresh_objects l :
  outgoing include_thinking h hs lm current to_send fresh_objects →
  l ∈ fresh_objects → h !! l = None ∧ is_Some (hs !! l).
Proof.
  unfold outgoing. destruct include_thinking.
  - intros (p & nl & Hp & Hnl & Hne & _ & -> & ->) Hl.
    apply elem_of_cons in Hl as [->|Hl]; [|apply list_elem_of_singleton in Hl as ->].
    + split; [done |]. rewrite lookup_insert_ne by done. by rewrite lookup_insert_eq.
    + split; [done |]. by rewrite lookup_insert_eq.
  - intros (_ & -> & _) Hl. by apply elem_of_nil in Hl.
Qed.

(** [messages += [...]] after a pass. *)
Lemma append_next_pass_run lm current response_text w :
  heap w !! lm = Some (OList current) →
  ∃ a u, heap w !! a = None ∧ heap w !! u = None ∧ a ≠ u ∧
    append_next_pass (VRef lm) response_text w
    = (Ret tt, with_heap w (<[lm := OList (current ++ [VRef a; VRef u])]>
                              (<[u := user_turn]>
                                 (<[a := assistant_turn response_text]> (heap w))))).
Proof.
  intros Hlm. unfold append_next_pass.
  destruct (alloc_run (assistant_turn response_text) w) as (a & Ha & Halloca).
  fold (assistant_turn response_text). rewrite (bind_run _ _ _ _ _ Halloca).
  destruct (alloc_run user_turn (with_heap w (<[a:=assistant_turn response_text]> (heap w))))
    as (u & Hu & Hallocu).
  fold user_turn. rewrite (bind_run _ _ _ _ _ Hallocu).
  cbn [heap with_heap] in *. apply lookup_insert_None in Hu as [Hu Hau].
  exists a, u. split_and!; [done..|].
  unfold list_extend. cbn [heap with_heap].
  rewrite !lookup_insert_ne, Hlm by congruence. done.
Qed.

(** The streaming loop of a native pass never fails: it prints and
    delivers every text. *)
Lemma native_pass_loop_run texts full_stream w :
  for_each texts native_text_step full_stream w
  = (Ret (full_stream +:+ concat_text texts), with_output w (JStr <$> texts) texts).
Proof.
  revert full_stream w. induction texts as [|t texts IH]; intros fs w; cbn [for_each].
  - rewrite with_output_nil. cbn. by rewrite append_nil_r.
  - unfold native_text_step at 1, bind at 1 2 3, print at 1, callback at 1, ret at 1.
    rewrite IH. f_equal.
    + by rewrite concat_text_cons, append_assoc.
    + unfold with_output. cbn. by rewrite <-!app_assoc.
Qed.

Lemma pass_store_facts include_thinking h h' lm current t a u to_send hs fresh_objects :
  h !! lm = Some (OList current) →
  pass_store include_thinking h h' lm current t a u to_send hs fresh_objects →
  hs !! lm = Some (OList current) ∧
  h' !! lm = Some (OList (current ++ [VRef a; VRef u])) ∧
  h' !! a = Some (assistant_turn t) ∧
  h' !! u = Some user_turn ∧
  h !! a = None ∧ h !! u = None ∧ a ≠ lm ∧ u ≠ lm ∧
  (∀ l o, l ≠ lm → hs !! l = Some o → h' !! l = Some o) ∧
  (∀ l o, l ≠ lm → h !! l = Some o → h' !! l = Some o) ∧
  (∀ l, l ∈ fresh_objects →
        h !! l = None ∧ l ≠ a ∧ l ≠ u ∧ l ≠ lm ∧ is_Some (h' !! l)).
Proof.
  intros Hlm (Hout & Ha & Hu & Hau & ->).
  pose proof (outgoing_keeps _ _ _ _ _ _ _ _ _ Hout Hlm) as Hlms.
  assert (a ≠ lm) by congruence. assert (u ≠ lm) by congruence.
  assert (Hframe : ∀ l o, l ≠ lm → hs !! l = Some o →
    <[lm:=OList (current ++ [VRef a; VRef u])]>
      (<[u:=user_turn]> (<[a:=assistant_turn t]> hs)) !! l = Some o).
  { intros l o Hl Hhs. rewrite !lookup_insert_ne; [done | congruence..]. }
  split_and!; try done.
  - apply lookup_insert_eq.
  - rewrite !lookup_insert_ne by done. apply lookup_insert_eq.
  - rewrite lookup_insert_ne by done. apply lookup_insert_eq.
  - destruct (h !! a) eqn:E; [|done].
    by rewrite (outgoing_keeps _ _ _ _ _ _ _ _ _ Hout E) in Ha.
  - destruct (h !! u) eqn:E; [|done].
    by rewrite (outgoing_keeps _ _ _ _ _ _ _ _ _ Hout E) in Hu.
  - intros l o Hl Hh. apply Hframe; [done |]. by eapply outgoing_keeps.
  - intros l Hl. destruct (outgoing_fresh _ _ _ _ _ _ _ _ Hout Hl) as [Hn [o Ho]].
    assert (l ≠ lm) by congruence.
    split_and!; [done | congruence | congruence | done |].
    exists o. by apply Hframe.
Qed.

Lemma print_quiet s w r w' : print s w = (r, w') → r = Ret tt ∧ quiet w w'.
Proof. unfold print. by intros [= <- <-]. Qed.

Lemma write_to_file_quiet n t w r w' :
  write_to_file n t w = (r, w') → r = Ret tt ∧ quiet w w'.
Proof. unfold write_to_file. by intros [= <- <-]. Qed.

Lemma pprint_prompt_quiet pprint_prompt_text v w r w' :
  pprint_prompt pprint_prompt_text v w = (r, w') → quiet w w'.
Proof.
  unfold pprint_prompt, bind, get_heap, lift.
  destruct (pprint_prompt_text _ _); [|by intros [= <- <-]].
  by intros [_ ?]%print_quiet.
Qed.

Lemma response_first_text_inv response w r w' :
  response_first_text response w = (r, w') →
  w' = w ∧ ∀ t, r = Ret t → head (content response) = Some (TextBlock t).
Proof.
  unfold response_first_text, bind, lift.
  destruct (content response) as [|[t|] blocks]; cbn; intros [= <- <-]; split; try done.
  by intros ? [= ->].
Qed.

Section native_pass.
Variable IS_DEBUG_ENABLED : bool.
Variable extract_html_content : string → string.
Variable pprint_prompt_text : gmap loc obj → val → outcome string.
Variable transport : world → outcome MessageStream.
Variable system_prompt : string.
Variable lm : loc.
Variable api_key : string.
Variable include_thinking : bool.
Variable model : Llm.

Abbreviation request to_send :=
  (AnthropicRequest api_key (Llm_value model) 4096 (VFloat 0 (-1))
     (VStr system_prompt) to_send).

Lemma native_pass_inv current_pass_num full_stream w response full_stream' w' current :
  heap w !! lm = Some (OList current) →
  native_pass IS_DEBUG_ENABLED extract_html_content pprint_prompt_text transport
    system_prompt (VRef lm) api_key include_thinking model current_pass_num full_stream w
  = (Ret (response, full_stream'), w') →
  ∃ to_send hs fresh_objects ws stream t a u,
    pass_store include_thinking (heap w) (heap w') lm current t a u to_send hs
      fresh_objects ∧
    net w' = net w ++ [Sent (request to_send) hs] ∧
    transport ws = Ret stream ∧
    net ws = net w' ∧
    response = final_message stream ∧
    head (content response) = Some (TextBlock t) ∧
    sink w' = sink w ++ (JStr <$> items (text_stream stream)) ∧
    full_stream' = full_stream +:+ concat_text (items (text_stream stream)).
Proof.
  intros Hlm H. unfold native_pass in H.
  apply bind_ret_inv in H as (to_send & w1 & Hsend & H).
  apply (messages_to_send_inv _ _ _ _ _ _ Hlm) in Hsend as (fresh_objects & hs & Hout & ->).
  apply bind_ret_inv in H as ([] & w2 & Hpp & H).
  apply pprint_prompt_quiet in Hpp as (Hh2 & Hs2 & Hn2). cbn [heap with_heap sink net] in *.
  unfold bind at 1, send at 1, bind at 1, ask at 1 in H.
  destruct (transport _) as [stream|e] eqn:Ht; [|done].
  apply bind_ret_inv in H as (fs1 & w3 & Hloop & H).
  apply for_stream_inv in Hloop as (r1 & Hloop & Hr1).
  rewrite native_pass_loop_run in Hloop. injection Hloop as <- <-.
  destruct (failure (text_stream stream)); [done |]. injection Hr1 as ->.
  apply bind_ret_inv in H as (t & w4 & Ht1 & H).
  apply response_first_text_inv in Ht1 as [-> Ht1]. specialize (Ht1 _ eq_refl).
  apply bind_ret_inv in H as ([] & w4 & Hdbg & H).
  assert (Hq4 : quiet (with_output (World (heap w2) (sink w2) (stdout w2)
                         (net w2 ++ [Sent (request to_send) (heap w2)]) (files w2))
                         (JStr <$> items (text_stream stream)) (items (text_stream stream)))
                      w4).
  { destruct IS_DEBUG_ENABLED; [|by injection Hdbg as <-].
    apply bind_ret_inv in Hdbg as ([] & w5 & [_ Hq5]%write_to_file_quiet & Hdbg).
    apply bind_ret_inv in Hdbg as (thinking & w6 & [_ ->]%lift_inv & Hdbg).
    apply write_to_file_quiet in Hdbg as [_ Hq6]. by eapply quiet_trans. }
  destruct Hq4 as (Hh4 & Hs4 & Hn4). cbn [heap sink net with_output] in *.
  apply bind_ret_inv in H as (t' & w5 & Ht2 & H).
  apply response_first_text_inv in Ht2 as [-> Ht2]. specialize (Ht2 _ eq_refl).
  rewrite Ht1 in Ht2. injection Ht2 as <-.
  assert (Hlm4 : heap w4 !! lm = Some (OList current)).
  { rewrite Hh4, Hh2. by eapply outgoing_keeps. }
  destruct (append_next_pass_run lm current t w4 Hlm4) as (a & u & Ha & Hu & Hau & Happ).
  rewrite (bind_run _ _ _ _ _ Happ) in H.
  apply bind_ret_inv in H as ([] & w6 & [_ (Hh6 & Hs6 & Hn6)]%print_quiet & H).
  injection H as <- <- <-. cbn [heap sink net with_heap] in *.
  exists to_send, hs, fresh_objects. do 2 eexists. exists t, a, u.
  split_and!; [| |exact Ht| |done|done| |done].
  - rewrite Hh4, Hh2 in *. by split_and!.
  - by rewrite Hn6, Hn4, Hn2, Hh2.
  - cbn. by rewrite Hn6, Hn4.
  - by rewrite Hs6, Hs4, Hs2.
Qed.
End native_pass.

Lemma bedrock_pass_loop_inv evs acc w acc' w' :
  for_each evs bedrock_pass_event_step acc w = (Ret acc', w') →
  ∃ incs, omap event_text evs = JStr <$> incs ∧
    w' = with_output w (JStr <$> incs) incs ∧
    acc' = (acc.1 +:+ concat_text incs, acc.2 +:+ concat_text incs).
Proof.
  revert acc w. induction evs as [|ev evs IH]; intros [rt fs] w H; cbn [for_each] in H.
  - injection H as <- <-. exists []. rewrite with_output_nil. cbn.
    by rewrite !append_nil_r.
  - apply bind_ret_inv in H as ([rt1 fs1] & w1 & Hstep & H).
    unfold bedrock_pass_event_step in Hstep.
    apply bind_ret_inv in Hstep as (decoded & w2 & [Hd ->]%lift_inv & Hstep).
    rewrite event_texts_cons, <-Hd.
    apply IH in H as (incs & Hincs & -> & ->).
    destruct decoded as [text|].
    + apply bind_ret_inv in Hstep as (rt2 & w2 & [Hrt ->]%lift_inv & Hstep).
      destruct text as [| | | |t| |]; try done. cbn in Hrt. injection Hrt as ->.
      unfold bind at 1, print at 1, bind at 1, lift at 1, str_iadd, bind at 1,
        callback at 1, ret in Hstep.
      injection Hstep as <- <- <-. cbn [fst snd].
      exists (t :: incs). rewrite Hincs. split_and!; [done | |].
      * unfold with_output. cbn. by rewrite <-!app_assoc.
      * by rewrite !concat_text_cons, !append_assoc.
    + injection Hstep as <- <- <-. by exists incs.
Qed.

Section bedrock_pass.
Variable pprint_prompt_text : gmap loc obj → val → outcome string.
Variable transport : world → outcome BedrockResponse.
Variable system_prompt : string.
Variable lm : loc.
Variable access_key secret_access_key : string.
Variable include_thinking : bool.

Abbreviation bedrock_request messages_json :=
  (BedrockRequest access_key secret_access_key
     (JObj [("anthropic_version", JStr "bedrock-2023-05-31");
            ("max_tokens", JInt 4096);
            ("messages", messages_json);
            ("system", JStr system_prompt);
            ("temperature", JFloat 0 (-1))])
     "anthropic.claude-3-sonnet-20240229-v1:0" "*/*" "application/json").

Lemma bedrock_pass_inv full_stream w response full_stream' w' current :
  heap w !! lm = Some (OList current) →
  bedrock_pass pprint_prompt_text transport system_prompt (VRef lm) access_key
    secret_access_key include_thinking full_stream w
  = (Ret (response, full_stream'), w') →
  ∃ to_send hs fresh_objects messages_json ws incs a u,
    pass_store include_thinking (heap w) (heap w') lm current (concat_text incs) a u
      to_send hs fresh_objects ∧
    json_dumps hs to_send = Ret messages_json ∧
    net w' = net w ++ [Sent (bedrock_request messages_json) hs] ∧
    transport ws = Ret response ∧
    net ws = net w' ∧
    omap event_text (match body response with
                     | Some stream => items stream
                     | None => []
                     end) = JStr <$> incs ∧
    sink w' = sink w ++ (JStr <$> incs) ∧
    full_stream' = full_stream +:+ concat_text incs.
Proof.
  intros Hlm H. unfold bedrock_pass in H.
  apply bind_ret_inv in H as (to_send & w1 & Hsend & H).
  apply (messages_to_send_inv _ _ _ _ _ _ Hlm) in Hsend as (fresh_objects & hs & Hout & ->).
  apply bind_ret_inv in H as ([] & w2 & Hpp & H).
  apply pprint_prompt_quiet in Hpp as (Hh2 & Hs2 & Hn2). cbn [heap with_heap sink net] in *.
  apply bind_ret_inv in H as (request_body & w3 & Hbody & H).
  apply bedrock_body_inv in Hbody as [-> Hbody].
  destruct (Hbody _ eq_refl) as (mj & sj & tj & Hmj & Hsj & Htj & ->). clear Hbody.
  rewrite json_dumps_float in Htj. injection Htj as <-.
  assert (sj = JStr system_prompt) as -> by (by injection Hsj as <-).
  unfold bind at 1, send at 1, bind at 1, ask at 1 in H.
  destruct (transport _) as [response'|e] eqn:Ht; [|done].
  apply bind_ret_inv in H as ([rt fs1] & w3 & Hloop & H).
  assert (∃ incs,
    omap event_text (match body response' with
                     | Some stream => items stream
                     | None => []
                     end) = JStr <$> incs ∧
    w3 = with_output (World (heap w2) (sink w2) (stdout w2)
                        (net w2 ++ [Sent (bedrock_request mj) (heap w2)]) (files w2))
           (JStr <$> incs) incs ∧
    rt = concat_text incs ∧ fs1 = full_stream +:+ concat_text incs)
    as (incs & Hincs & Hw3 & Hrt & Hfs1).
  { destruct (body response') as [stream|].
    - apply for_stream_inv in Hloop as ([acc'|] & Hloop & Hr1);
        [|by destruct (failure stream)].
      apply bedrock_pass_loop_inv in Hloop as (incs & Hincs & -> & ->).
      destruct (failure stream); [done |]. injection Hr1 as -> ->.
      by exists incs.
    - injection Hloop as <- <- <-. exists []. rewrite with_output_nil. cbn.
      by rewrite append_nil_r. }
  cbn [fst snd] in H. subst rt fs1.
  assert (Hlm3 : heap w3 !! lm = Some (OList current)).
  { subst w3. cbn. rewrite Hh2. by eapply outgoing_keeps. }
  destruct (append_next_pass_run lm current (concat_text incs) w3 Hlm3)
    as (a & u & Ha & Hu & Hau & Happ).
  rewrite (bind_run _ _ _ _ _ Happ) in H. injection H as <- <- <-.
  subst w3. cbn [heap sink net with_heap with_output] in *.
  exists to_send, hs, fresh_objects, mj. eexists. exists incs, a, u.
  rewrite Hh2 in *.
  split_and!; [by split_and! | done | by rewrite Hn2 | exact Ht | done | done |
               by rewrite Hs2 | done].
Qed.
End bedrock_pass.

Lemma outgoing_view include_thinking h hs lm current to_send fresh_objects :
  h !! lm = Some (OList current) →
  outgoing include_thinking h hs lm current to_send fresh_objects →
  request_view include_thinking hs lm current to_send fresh_objects.
Proof.
  intros Hlm Hout. split; [by eapply outgoing_keeps |].
  unfold outgoing in Hout. destruct include_thinking; [|by destruct Hout as (? & ? & _)].
  destruct Hout as (p & nl & Hp & Hnl & Hne & -> & -> & ->).
  exists p, nl. split_and!; [done | done | apply lookup_insert_eq |].
  rewrite lookup_insert_ne by done. apply lookup_insert_eq.
Qed.

Lemma two_pass_store include_thinking h0 h1 h2 lm original
    t1 a1 u1 to_send1 hs1 fresh1 t2 a2 u2 to_send2 hs2 fresh2 :
  h0 !! lm = Some (OList original) →
  pass_store include_thinking h0 h1 lm original t1 a1 u1 to_send1 hs1 fresh1 →
  pass_store include_thinking h1 h2 lm (original ++ [VRef a1; VRef u1]) t2 a2 u2
    to_send2 hs2 fresh2 →
  request_view include_thinking hs1 lm original to_send1 fresh1 ∧
  request_view include_thinking hs2 lm (original ++ [VRef a1; VRef u1]) to_send2 fresh2 ∧
  h2 !! lm = Some (OList (original ++ [VRef a1; VRef u1; VRef a2; VRef u2])) ∧
  h2 !! a1 = Some (assistant_turn t1) ∧ h2 !! u1 = Some user_turn ∧
  h2 !! a2 = Some (assistant_turn t2) ∧ h2 !! u2 = Some user_turn ∧
  h0 !! a1 = None ∧ h0 !! u1 = None ∧ h0 !! a2 = None ∧ h0 !! u2 = None ∧
  NoDup [a1; u1; a2; u2] ∧
  (∀ l o, l ≠ lm → h0 !! l = Some o → h2 !! l = Some o) ∧
  (∀ l, l ∈ fresh1 ++ fresh2 → h0 !! l = None ∧ l ≠ lm ∧ l ∉ [a1; u1; a2; u2]).
Proof.
  intros Hlm P1 P2.
  destruct (pass_store_facts _ _ _ _ _ _ _ _ _ _ _ Hlm P1)
    as (Hs1 & Hlm1 & Ha1 & Hu1 & Hna1 & Hnu1 & Ha1lm & Hu1lm & Hf1 & Hg1 & Hfresh1).
  destruct (pass_store_facts _ _ _ _ _ _ _ _ _ _ _ Hlm1 P2)
    as (Hs2 & Hlm2 & Ha2 & Hu2 & Hna2 & Hnu2 & Ha2lm & Hu2lm & Hf2 & Hg2 & Hfresh2).
  destruct P1 as (Hout1 & Hsa1 & Hsu1 & Hau1 & _).
  destruct P2 as (Hout2 & Hsa2 & Hsu2 & Hau2 & _).
  assert (a2 ≠ a1) by congruence. assert (a2 ≠ u1) by congruence.
  assert (u2 ≠ a1) by congruence. assert (u2 ≠ u1) by congruence.
  assert (Hold : ∀ l, l ≠ lm → h1 !! l = None → h0 !! l = None).
  { intros l Hl Hn. destruct (h0 !! l) eqn:E; [|done]. by rewrite (Hg1 _ _ Hl E) in Hn. }
  split_and!; try done.
  - exact (outgoing_view _ _ _ _ _ _ _ Hlm Hout1).
  - exact (outgoing_view _ _ _ _ _ _ _ Hlm1 Hout2).
  - by rewrite <-app_assoc in Hlm2.
  - by apply Hg2.
  - by apply Hg2.
  - by apply Hold.
  - by apply Hold.
  - repeat constructor; set_solver.
  - intros l o Hl Hh. by apply Hg2, Hg1.
  - intros l [Hl|Hl]%elem_of_app.
    + destruct (Hfresh1 _ Hl) as (Hn & Hla1 & Hlu1 & Hllm & [o Ho]).
      split_and!; [done..|]. set_solver by congruence.
    + destruct (Hfresh2 _ Hl) as (Hn & Hla2 & Hlu2 & Hllm & _).
      split_and!; [by apply Hold | done |].
      assert (l ≠ a1) by congruence. assert (l ≠ u1) by congruence. set_solver.
Qed.

Section native_orchestrator.
Variable IS_DEBUG_ENABLED : bool.
Variable extract_html_content : string → string.
Variable pprint_prompt_text : gmap loc obj → val → outcome string.
Variable transport : world → outcome MessageStream.
Variable system_prompt : string.
Variable lm : loc.
Variable api_key : string.
Variable include_thinking : bool.
Variable model : Llm.

Abbreviation native_request to_send :=
  (AnthropicRequest api_key (Llm_value model) 4096 (VFloat 0 (-1))
     (VStr system_prompt) to_send).

(** A run of the native orchestrator that returns is two passes. *)
Lemma native_two_passes w text w' original :
  heap w !! lm = Some (OList original) →
  stream_claude_response_native IS_DEBUG_ENABLED extract_html_content
    pprint_prompt_text transport system_prompt (VRef lm) api_key include_thinking model w
  = (Ret text, w') →
  ∃ h1 to_send1 hs1 fresh1 ws1 stream1 t1 a1 u1
       to_send2 hs2 fresh2 ws2 stream2 a2 u2,
    pass_store include_thinking (heap w) h1 lm original t1 a1 u1 to_send1 hs1 fresh1 ∧
    pass_store include_thinking h1 (heap w') lm (original ++ [VRef a1; VRef u1])
      text a2 u2 to_send2 hs2 fresh2 ∧
    net w' = net w ++ [Sent (native_request to_send1) hs1;
                       Sent (native_request to_send2) hs2] ∧
    transport ws1 = Ret stream1 ∧ transport ws2 = Ret stream2 ∧
    net ws1 = net w ++ [Sent (native_request to_send1) hs1] ∧
    net ws2 = net w' ∧
    head (content (final_message stream1)) = Some (TextBlock t1) ∧
    head (content (final_message stream2)) = Some (TextBlock text) ∧
    sink w' = sink w ++ (JStr <$> items (text_stream stream1))
                     ++ (JStr <$> items (text_stream stream2)).
Proof.
  intros Hlm H. unfold stream_claude_response_native in H. cbv zeta in H.
  change (max_passes + 1 - 1) with 2 in H. cbn [native_passes] in H.
  apply bind_ret_inv in H as ([response full] & w3 & Hloop & H).
  apply bind_ret_inv in Hloop as ([r1 fs1] & w1 & Hp1 & Hloop).
  apply bind_ret_inv in Hloop as ([r2 fs2] & w2 & Hp2 & Hloop).
  injection Hloop as <- <- <-. cbn [fst snd] in *.
  apply (native_pass_inv _ _ _ _ _ _ _ _ _ _ _ _ _ _ _ _ Hlm) in Hp1
    as (to_send1 & hs1 & fresh1 & ws1 & stream1 & t1 & a1 & u1 &
        P1 & Hn1 & Ht1 & Hws1 & -> & Hh1 & Hs1 & ->).
  destruct (pass_store_facts _ _ _ _ _ _ _ _ _ _ _ Hlm P1) as (_ & Hlm1 & _).
  apply (native_pass_inv _ _ _ _ _ _ _ _ _ _ _ _ _ _ _ _ Hlm1) in Hp2
    as (to_send2 & hs2 & fresh2 & ws2 & stream2 & t2 & a2 & u2 &
        P2 & Hn2 & Ht2 & Hws2 & -> & Hh2 & Hs2 & ->).
  apply bind_ret_inv in H as ([] & w4 & Hdbg & H).
  assert (quiet w2 w4) as (Hh4 & Hs4 & Hn4).
  { destruct IS_DEBUG_ENABLED; [|by injection Hdbg as <-].
    by apply write_to_file_quiet in Hdbg as [_ ?]. }
  apply response_first_text_inv in H as [-> Htext]. specialize (Htext _ eq_refl).
  rewrite Hh2 in Htext. injection Htext as <-.
  exists (heap w1), to_send1, hs1, fresh1, ws1, stream1, t1, a1, u1,
    to_send2, hs2, fresh2, ws2, stream2, a2, u2.
  rewrite Hh4, Hs4, Hn4.
  split_and!; [done | done | | done | done | congruence | done | done | done |].
  - by rewrite Hn2, Hn1, <-app_assoc.
  - by rewrite Hs2, Hs1, <-app_assoc.
Qed.
End native_orchestrator.

Section bedrock_orchestrator.
Variable pprint_prompt_text : gmap loc obj → val → outcome string.
Variable transport : world → outcome BedrockResponse.
Variable system_prompt : string.
Variable lm : loc.
Variable access_key secret_access_key : string.
Variable include_thinking : bool.

Abbreviation gateway_request messages_json :=
  (BedrockRequest access_key secret_access_key
     (JObj [("anthropic_version", JStr "bedrock-2023-05-31");
            ("max_tokens", JInt 4096);
            ("messages", messages_json);
            ("system", JStr system_prompt);
            ("temperature", JFloat 0 (-1))])
     "anthropic.claude-3-sonnet-20240229-v1:0" "*/*" "application/json").

(** A run of the managed-gateway orchestrator that returns a text is two
    passes, and the text is that of both. *)
Lemma bedrock_two_passes w text w' original :
  heap w !! lm = Some (OList original) →
  stream_claude_response_native_aws_bedrock pprint_prompt_text transport system_prompt
    (VRef lm) access_key secret_access_key include_thinking w
  = (Ret (Some text), w') →
  ∃ h1 to_send1 hs1 fresh1 json1 ws1 response1 incs1 a1 u1
       to_send2 hs2 fresh2 json2 ws2 response2 incs2 a2 u2,
    pass_store include_thinking (heap w) h1 lm original (concat_text incs1) a1 u1
      to_send1 hs1 fresh1 ∧
    pass_store include_thinking h1 (heap w') lm (original ++ [VRef a1; VRef u1])
      (concat_text incs2) a2 u2 to_send2 hs2 fresh2 ∧
    json_dumps hs1 to_send1 = Ret json1 ∧ json_dumps hs2 to_send2 = Ret json2 ∧
    net w' = net w ++ [Sent (gateway_request json1) hs1;
                       Sent (gateway_request json2) hs2] ∧
    transport ws1 = Ret response1 ∧ transport ws2 = Ret response2 ∧
    net ws1 = net w ++ [Sent (gateway_request json1) hs1] ∧
    net ws2 = net w' ∧
    omap event_text (response_events response1) = JStr <$> incs1 ∧
    omap event_text (response_events response2) = JStr <$> incs2 ∧
    sink w' = sink w ++ (JStr <$> incs1) ++ (JStr <$> incs2) ∧
    text = concat_text incs1 +:+ concat_text incs2.
Proof.
  intros Hlm H. unfold stream_claude_response_native_aws_bedrock, try_except in H.
  cbv zeta in H. change (max_passes + 1 - 1) with 2 in H. cbn [bedrock_passes] in H.
  destruct (bind _ _ w) as [[result|e] w3] eqn:Hbody.
  2:{ apply bedrock_except_inv in H as (_ & _ & _ & _ & H).
      destruct e as [[m|]| | | | | | | |]; by destruct H. }
  injection H as -> ->.
  apply bind_ret_inv in Hbody as ([response full] & w3 & Hloop & H).
  apply bind_ret_inv in Hloop as ([r1 fs1] & w1 & Hp1 & Hloop).
  apply bind_ret_inv in Hloop as ([r2 fs2] & w2 & Hp2 & Hloop).
  injection Hloop as <- <- <-. cbn [fst snd] in *.
  destruct (response_truthy r2); [|done]. injection H as <- <-.
  apply (bedrock_pass_inv _ _ _ _ _ _ _ _ _ _ _ _ _ Hlm) in Hp1
    as (to_send1 & hs1 & fresh1 & json1 & ws1 & incs1 & a1 & u1 &
        P1 & Hj1 & Hn1 & Ht1 & Hws1 & He1 & Hs1 & ->).
  destruct (pass_store_facts _ _ _ _ _ _ _ _ _ _ _ Hlm P1) as (_ & Hlm1 & _).
  apply (bedrock_pass_inv _ _ _ _ _ _ _ _ _ _ _ _ _ Hlm1) in Hp2
    as (to_send2 & hs2 & fresh2 & json2 & ws2 & incs2 & a2 & u2 &
        P2 & Hj2 & Hn2 & Ht2 & Hws2 & He2 & Hs2 & ->).
  exists (heap w1), to_send1, hs1, fresh1, json1, ws1, r1, incs1, a1, u1,
    to_send2, hs2, fresh2, json2, ws2, r2, incs2, a2, u2.
  split_and!; try done.
  - by rewrite Hn2, Hn1, <-app_assoc.
  - congruence.
  - by rewrite Hs2, Hs1, <-app_assoc.
Qed.
End bedrock_orchestrator.

(** ** [json.dumps] never runs out of fuel *)

Lemma allocated_bound (h : gmap loc obj) (ls : list loc) :
  NoDup ls → (∀ l, l ∈ ls → is_Some (h !! l)) → length ls ≤ size h.
Proof.
  intros Hnd Hin. rewrite <-(size_dom (D := gset loc)).
  unfold size, set_size. cbn. apply submseteq_length, NoDup_submseteq; [done |].
  intros l Hl. apply elem_of_elements, elem_of_dom. by apply Hin.
Qed.

Lemma dumps_elems_total rec vs :
  (∀ v, rec v ≠ None) → dumps_elems rec vs ≠ None.
Proof.
  intros Hrec. induction vs as [|v vs IH]; cbn [dumps_elems]; [done |].
  specialize (Hrec v). destruct (rec v) as [[j|]|]; [|done..].
  by destruct (dumps_elems rec vs) as [[js|]|].
Qed.

Lemma dumps_items_total rec d :
  (∀ v, rec v ≠ None) → dumps_items rec d ≠ None.
Proof.
  intros Hrec. induction d as [|[k v] d IH]; cbn [dumps_items]; [done |].
  specialize (Hrec v). destruct (rec v) as [[j|]|]; [|done..].
  by destruct (dumps_items rec d) as [[js|]|].
Qed.

Lemma dumps_aux_total fuel h seen v :
  NoDup seen → (∀ l, l ∈ seen → is_Some (h !! l)) →
  size h < fuel + length seen →
  dumps_aux fuel h seen v ≠ None.
Proof.
  revert seen v. induction fuel as [|fuel IH]; intros seen v Hnd Hin Hfuel.
  - pose proof (allocated_bound h seen Hnd Hin). lia.
  - cbn [dumps_aux]. destruct v as [| | | | |l]; try done.
    case_bool_decide as Hseen; [done |].
    destruct (h !! l) as [[d|vs]|] eqn:Hl; [| |done].
    + assert (dumps_items (dumps_aux fuel h (l :: seen)) d ≠ None) as Hd.
      { apply dumps_items_total. intros v. apply IH.
        - by constructor.
        - intros l' [->|?]%elem_of_cons; [by eexists | by apply Hin].
        - cbn. lia. }
      by destruct (dumps_items _ d) as [[?|]|].
    + assert (dumps_elems (dumps_aux fuel h (l :: seen)) vs ≠ None) as Hd.
      { apply dumps_elems_total. intros v. apply IH.
        - by constructor.
        - intros l' [->|?]%elem_of_cons; [by eexists | by apply Hin].
        - cbn. lia. }
      by destruct (dumps_elems _ vs) as [[?|]|].
Qed.

(** The fuel [json_dumps] starts with is enough: its [RecursionError]
    branch is never taken. *)
Lemma dumps_fuel_enough h v : dumps_aux (S (size h)) h [] v ≠ None.
Proof.
  apply dumps_aux_total; [constructor | by intros l ?%elem_of_nil | cbn; lia].
Qed.

Lemma dumps_elems_app rec xs ys js :
  dumps_elems rec (xs ++ ys) = Some (Ret js) →
  ∃ js1 js2, js = js1 ++ js2 ∧
    dumps_elems rec xs = Some (Ret js1) ∧ dumps_elems rec ys = Some (Ret js2).
Proof.
  revert js. induction xs as [|x xs IH]; intros js; cbn [app dumps_elems].
  - intros H. by exists [], js.
  - destruct (rec x) as [[j|]|]; [|done..].
    destruct (dumps_elems rec (xs ++ ys)) as [[js'|]|]; [|done..].
    intros [= <-]. destruct (IH _ eq_refl) as (js1 & js2 & -> & -> & ->).
    by exists (j :: js1), js2.
Qed.

(** With [include_thinking], the serialised messages end with the
    provisional turn. *)
Lemma json_dumps_thinking hs nl p current j :
  hs !! nl = Some (OList (current ++ [VRef p])) →
  hs !! p = Some provisional_turn →
  json_dumps hs (VRef nl) = Ret j →
  ∃ js, j = JList (js ++ [JObj [("role", JStr "assistant"); ("content", JStr prefix)]]) ∧
        length js = length current.
Proof.
  intros Hnl Hp. assert (nl ≠ p) as Hne by (intros ->; by rewrite Hnl in Hp).
  assert (2 ≤ size hs) as Hsize.
  { apply (allocated_bound hs [nl; p]).
    - repeat constructor; set_solver.
    - intros l [->|[->|?%elem_of_nil]%elem_of_cons]%elem_of_cons; [by eexists..|done]. }
  unfold json_dumps. destruct (size hs) as [|[|n]]; [lia.. |].
  cbn [dumps_aux]. rewrite bool_decide_eq_false_2 by apply not_elem_of_nil. rewrite Hnl.
  destruct (dumps_elems _ _) as [[js|]|] eqn:Hd; [|done..]. intros [= <-].
  apply dumps_elems_app in Hd as (js1 & js2 & -> & Hd1 & Hd2).
  exists js1. split; [|by eapply dumps_elems_length].
  cbn [dumps_elems dumps_aux] in Hd2.
  rewrite bool_decide_eq_false_2 in Hd2 by set_solver.
  rewrite Hp in Hd2. cbn in Hd2. by injection Hd2 as <-.
Qed.

(** The native orchestrator returns the text of its second pass. *)
Lemma native_orchestrator_returns_second_pass
    IS_DEBUG_ENABLED extract_html_content pprint_prompt_text transport system_prompt lm
    api_key include_thinking model w text w' original :
  heap w !! lm = Some (OList original) →
  stream_claude_response_native IS_DEBUG_ENABLED extract_html_content pprint_prompt_text
    transport system_prompt (VRef lm) api_key include_thinking model w = (Ret text, w') →
  ∃ ws2 stream2,
    net ws2 = net w' ∧ length (net w') = length (net w) + 2 ∧
    transport ws2 = Ret stream2 ∧
    head (content (final_message stream2)) = Some (TextBlock text).
Proof.
  intros Hlm H. apply (native_two_passes _ _ _ _ _ _ _ _ _ _ _ _ _ Hlm) in H
    as (h1 & ts1 & hs1 & f1 & ws1 & s1 & t1 & a1 & u1 & ts2 & hs2 & f2 & ws2 & s2 & a2 & u2 &
        _ & _ & Hnet & _ & Ht2 & _ & Hws2 & _ & Hh2 & _).
  exists ws2, s2. split_and!; [done | | done | done].
  rewrite Hnet, length_app. cbn. lia.
Qed.

(** The managed-gateway orchestrator returns [full_stream]: the text of
    the first pass followed by that of the second. *)
Lemma bedrock_orchestrator_returns_both_passes
    pprint_prompt_text transport system_prompt lm access_key secret_access_key
    include_thinking w text w' original :
  heap w !! lm = Some (OList original) →
  stream_claude_response_native_aws_bedrock pprint_prompt_text transport system_prompt
    (VRef lm) access_key secret_access_key include_thinking w = (Ret (Some text), w') →
  ∃ ws1 response1 incs1 ws2 response2 incs2,
    length (net ws1) = length (net w) + 1 ∧ transport ws1 = Ret response1 ∧
    length (net ws2) = length (net w) + 2 ∧ transport ws2 = Ret response2 ∧
    omap event_text (response_events response1) = JStr <$> incs1 ∧
    omap event_text (response_events response2) = JStr <$> incs2 ∧
    text = concat_text incs1 +:+ concat_text incs2.
Proof.
  intros Hlm H. apply (bedrock_two_passes _ _ _ _ _ _ _ _ _ _ _ Hlm) in H
    as (h1 & ts1 & hs1 & f1 & j1 & ws1 & r1 & incs1 & a1 & u1 &
        ts2 & hs2 & f2 & j2 & ws2 & r2 & incs2 & a2 & u2 &
        _ & _ & _ & _ & Hnet & Ht1 & Ht2 & Hws1 & Hws2 & He1 & He2 & _ & ->).
  exists ws1, r1, incs1, ws2, r2, incs2. split_and!; try done.
  - rewrite Hws1, length_app. cbn. lia.
  - rewrite Hws2, Hnet, length_app. cbn. lia.
Qed.

(** C2: with a transport that answers ["A"] on pass 1 and ["B"] on pass 2,
    the native orchestrator returns ["B"], the text of its second pass; the
    managed-gateway orchestrator returns ["AB"], the texts of both passes
    (its [full_stream]), and not the text of the second pass alone. *)
Theorem orchestrator_return_on_A_then_B :
  (stream_claude_response_native false (λ s, s) quiet_pprint two_pass_text_transport
     "system" (VRef 1) "key" false CLAUDE_3_OPUS (world_of draft_store)).1 = Ret "B" ∧
  (stream_claude_response_native_aws_bedrock quiet_pprint two_pass_event_transport
     "system" (VRef 1) "id" "secret" false (world_of draft_store)).1 = Ret (Some "AB").
Proof. split; vm_compute; reflexivity. Qed.

(** C3, as the code has it: when an orchestrator returns, the caller's
    message list holds the original turns followed by the two entries
    appended after each of the two passes: an assistant turn
    ["<thinking>"] followed by the output of pass 1, the user follow-up, an
    assistant turn ["<thinking>"] followed by the output of pass 2, and the
    user follow-up again.  The four entries are new, distinct objects, and
    the caller's other objects are as they were. *)
Theorem orchestrator_appends_after_each_pass :
  (∀ IS_DEBUG_ENABLED extract_html_content pprint_prompt_text transport system_prompt lm
     api_key include_thinking model w text w' original,
     heap w !! lm = Some (OList original) →
     stream_claude_response_native IS_DEBUG_ENABLED extract_html_content pprint_prompt_text
       transport system_prompt (VRef lm) api_key include_thinking model w = (Ret text, w') →
     ∃ ws1 stream1 t1 a1 u1 a2 u2,
       length (net ws1) = length (net w) + 1 ∧ transport ws1 = Ret stream1 ∧
       head (content (final_message stream1)) = Some (TextBlock t1) ∧
       heap w' !! lm = Some (OList (original ++ [VRef a1; VRef u1; VRef a2; VRef u2])) ∧
       heap w' !! a1 = Some (assistant_turn t1) ∧ heap w' !! u1 = Some user_turn ∧
       heap w' !! a2 = Some (assistant_turn text) ∧ heap w' !! u2 = Some user_turn ∧
       heap w !! a1 = None ∧ heap w !! u1 = None ∧
       heap w !! a2 = None ∧ heap w !! u2 = None ∧
       NoDup [a1; u1; a2; u2] ∧
       ∀ l o, l ≠ lm → heap w !! l = Some o → heap w' !! l = Some o) ∧
  (∀ pprint_prompt_text transport system_prompt lm access_key secret_access_key
     include_thinking w text w' original,
     heap w !! lm = Some (OList original) →
     stream_claude_response_native_aws_bedrock pprint_prompt_text transport system_prompt
       (VRef lm) access_key secret_access_key include_thinking w = (Ret (Some text), w') →
     ∃ ws1 response1 incs1 ws2 response2 incs2 a1 u1 a2 u2,
       length (net ws1) = length (net w) + 1 ∧ transport ws1 = Ret response1 ∧
       length (net ws2) = length (net w) + 2 ∧ transport ws2 = Ret response2 ∧
       omap event_text (response_events response1) = JStr <$> incs1 ∧
       omap event_text (response_events response2) = JStr <$> incs2 ∧
       heap w' !! lm = Some (OList (original ++ [VRef a1; VRef u1; VRef a2; VRef u2])) ∧
       heap w' !! a1 = Some (assistant_turn (concat_text incs1)) ∧
       heap w' !! u1 = Some user_turn ∧
       heap w' !! a2 = Some (assistant_turn (concat_text incs2)) ∧
       heap w' !! u2 = Some user_turn ∧
       heap w !! a1 = None ∧ heap w !! u1 = None ∧
       heap w !! a2 = None ∧ heap w !! u2 = None ∧
       NoDup [a1; u1; a2; u2] ∧
       ∀ l o, l ≠ lm → heap w !! l = Some o → heap w' !! l = Some o).
Proof.
  split.
  - intros * Hlm H. apply (native_two_passes _ _ _ _ _ _ _ _ _ _ _ _ _ Hlm) in H
      as (h1 & ts1 & hs1 & f1 & ws1 & s1 & t1 & a1 & u1 & ts2 & hs2 & f2 & ws2 & s2 & a2 & u2 &
          P1 & P2 & Hnet & Ht1 & Ht2 & Hws1 & Hws2 & Hh1 & Hh2 & _).
    destruct (two_pass_store _ _ _ _ _ _ _ _ _ _ _ _ _ _ _ _ _ _ Hlm P1 P2)
      as (_ & _ & ? & ? & ? & ? & ? & ? & ? & ? & ? & ? & ? & _).
    exists ws1, s1, t1, a1, u1, a2, u2. split_and!; try done.
    rewrite Hws1, length_app. cbn. lia.
  - intros * Hlm H. apply (bedrock_two_passes _ _ _ _ _ _ _ _ _ _ _ Hlm) in H
      as (h1 & ts1 & hs1 & f1 & j1 & ws1 & r1 & incs1 & a1 & u1 &
          ts2 & hs2 & f2 & j2 & ws2 & r2 & incs2 & a2 & u2 &
          P1 & P2 & _ & _ & Hnet & Ht1 & Ht2 & Hws1 & Hws2 & He1 & He2 & _ & ->).
    destruct (two_pass_store _ _ _ _ _ _ _ _ _ _ _ _ _ _ _ _ _ _ Hlm P1 P2)
      as (_ & _ & ? & ? & ? & ? & ? & ? & ? & ? & ? & ? & ? & _).
    exists ws1, r1, incs1, ws2, r2, incs2, a1, u1, a2, u2. split_and!; try done.
    + rewrite Hws1, length_app. cbn. lia.
    + rewrite Hws2, Hnet, length_app. cbn. lia.
Qed.

Lemma orchestrator_appends_after_each_pass_witness :
  ∃ ws1 stream1 t1 a1 u1 a2 u2,
    length (net ws1) = length (net (world_of draft_store)) + 1 ∧
    two_pass_text_transport ws1 = Ret stream1 ∧
    head (content (final_message stream1)) = Some (TextBlock t1) ∧
    heap (stream_claude_response_native false (λ s, s) quiet_pprint two_pass_text_transport
            "system" (VRef 1) "key" true CLAUDE_3_OPUS (world_of draft_store)).2 !! 1%positive
    = Some (OList ([VRef 2] ++ [VRef a1; VRef u1; VRef a2; VRef u2])) ∧
    heap (stream_claude_response_native false (λ s, s) quiet_pprint two_pass_text_transport
            "system" (VRef 1) "key" true CLAUDE_3_OPUS (world_of draft_store)).2 !! a1
    = Some (assistant_turn t1) ∧
    heap (stream_claude_response_native false (λ s, s) quiet_pprint two_pass_text_transport
            "system" (VRef 1) "key" true CLAUDE_3_OPUS (world_of draft_store)).2 !! u1
    = Some user_turn ∧
    heap (stream_claude_response_native false (λ s, s) quiet_pprint two_pass_text_transport
            "system" (VRef 1) "key" true CLAUDE_3_OPUS (world_of draft_store)).2 !! a2
    = Some (assistant_turn "B") ∧
    heap (stream_claude_response_native false (λ s, s) quiet_pprint two_pass_text_transport
            "system" (VRef 1) "key" true CLAUDE_3_OPUS (world_of draft_store)).2 !! u2
    = Some user_turn ∧
    heap (world_of draft_store) !! a1 = None ∧ heap (world_of draft_store) !! u1 = None ∧
    heap (world_of draft_store) !! a2 = None ∧ heap (world_of draft_store) !! u2 = None ∧
    NoDup [a1; u1; a2; u2] ∧
    ∀ l o, l ≠ 1%positive → heap (world_of draft_store) !! l = Some o →
      heap (stream_claude_response_native false (λ s, s) quiet_pprint two_pass_text_transport
              "system" (VRef 1) "key" true CLAUDE_3_OPUS (world_of draft_store)).2 !! l
      = Some o.
Proof.
  apply (proj1 orchestrator_appends_after_each_pass false (λ s, s) quiet_pprint
           two_pass_text_transport "system" 1%positive "key" true CLAUDE_3_OPUS
           (world_of draft_store) "B" _ [VRef 2]).
  - reflexivity.
  - vm_compute. reflexivity.
Defined.

(** C3 as stated fails: on the one-turn conversation, with the transport
    that answers ["A"] then ["B"], either orchestrator returns with five
    entries in the caller's list (the original turn and four appended
    ones), not with the original turn and the two pass-1 entries. *)
Lemma second_pass_entries_are_appended :
  let native := stream_claude_response_native false (λ s, s) quiet_pprint
                  two_pass_text_transport "system" (VRef 1) "key" false CLAUDE_3_OPUS
                  (world_of draft_store) in
  let gateway := stream_claude_response_native_aws_bedrock quiet_pprint
                   two_pass_event_transport "system" (VRef 1) "id" "secret" false
                   (world_of draft_store) in
  native.1 = Ret "B" ∧
  (¬ ∃ a u, heap native.2 !! 1%positive = Some (OList ([VRef 2] ++ [VRef a; VRef u]))) ∧
  gateway.1 = Ret (Some "AB") ∧
  (¬ ∃ a u, heap gateway.2 !! 1%positive = Some (OList ([VRef 2] ++ [VRef a; VRef u]))).
Proof.
  cbv zeta. split_and!.
  - vm_compute. reflexivity.
  - intros (a & u & H). vm_compute in H. discriminate H.
  - vm_compute. reflexivity.
  - intros (a & u & H). vm_compute in H. discriminate H.
Qed.

Lemma request_view_json include_thinking hs lm current to_send fresh_objects j :
  request_view include_thinking hs lm current to_send fresh_objects →
  json_dumps hs to_send = Ret j →
  include_thinking = true →
  ∃ js, j = JList (js ++ [JObj [("role", JStr "assistant"); ("content", JStr prefix)]]) ∧
        length js = length current.
Proof.
  intros [_ Hview] Hj ->. destruct Hview as (p & nl & _ & -> & Hnl & Hp).
  by eapply json_dumps_thinking.
Qed.

(** C8: each pass sends the caller's list itself, or with the
    include-thinking toggle a list of its own made of the caller's turns
    followed by a new assistant turn whose content is ["<thinking>"]; in
    the managed-gateway variant, where the request is serialised, the
    serialised messages then end with that turn.  In the store of either
    request the caller's list is what it would be without the toggle (the
    original turns, then with the two entries of pass 1), and so it is at
    the end; the objects made for the requests are new and are none of the
    entries appended to the caller's list. *)
Theorem thinking_prefix_only_in_request :
  (∀ IS_DEBUG_ENABLED extract_html_content pprint_prompt_text transport system_prompt lm
     api_key include_thinking model w text w' original,
     heap w !! lm = Some (OList original) →
     stream_claude_response_native IS_DEBUG_ENABLED extract_html_content pprint_prompt_text
       transport system_prompt (VRef lm) api_key include_thinking model w = (Ret text, w') →
     ∃ to_send1 hs1 fresh1 to_send2 hs2 fresh2 a1 u1 a2 u2,
       net w' = net w ++
         [Sent (AnthropicRequest api_key (Llm_value model) 4096 (VFloat 0 (-1))
                  (VStr system_prompt) to_send1) hs1;
          Sent (AnthropicRequest api_key (Llm_value model) 4096 (VFloat 0 (-1))
                  (VStr system_prompt) to_send2) hs2] ∧
       request_view include_thinking hs1 lm original to_send1 fresh1 ∧
       request_view include_thinking hs2 lm (original ++ [VRef a1; VRef u1]) to_send2
         fresh2 ∧
       heap w' !! lm = Some (OList (original ++ [VRef a1; VRef u1; VRef a2; VRef u2])) ∧
       ∀ l, l ∈ fresh1 ++ fresh2 →
            heap w !! l = None ∧ l ≠ lm ∧ l ∉ [a1; u1; a2; u2]) ∧
  (∀ pprint_prompt_text transport system_prompt lm access_key secret_access_key
     include_thinking w text w' original,
     heap w !! lm = Some (OList original) →
     stream_claude_response_native_aws_bedrock pprint_prompt_text transport system_prompt
       (VRef lm) access_key secret_access_key include_thinking w = (Ret (Some text), w') →
     ∃ to_send1 hs1 fresh1 json1 to_send2 hs2 fresh2 json2 a1 u1 a2 u2,
       net w' = net w ++
         [Sent (BedrockRequest access_key secret_access_key
                  (JObj [("anthropic_version", JStr "bedrock-2023-05-31");
                         ("max_tokens", JInt 4096);
                         ("messages", json1);
                         ("system", JStr system_prompt);
                         ("temperature", JFloat 0 (-1))])
                  "anthropic.claude-3-sonnet-20240229-v1:0" "*/*" "application/json") hs1;
          Sent (BedrockRequest access_key secret_access_key
                  (JObj [("anthropic_version", JStr "bedrock-2023-05-31");
                         ("max_tokens", JInt 4096);
                         ("messages", json2);
                         ("system", JStr system_prompt);
                         ("temperature", JFloat 0 (-1))])
                  "anthropic.claude-3-sonnet-20240229-v1:0" "*/*" "application/json") hs2] ∧
       json_dumps hs1 to_send1 = Ret json1 ∧ json_dumps hs2 to_send2 = Ret json2 ∧
       request_view include_thinking hs1 lm original to_send1 fresh1 ∧
       request_view include_thinking hs2 lm (original ++ [VRef a1; VRef u1]) to_send2
         fresh2 ∧
       (include_thinking = true →
        ∃ js1 js2,
          json1 = JList (js1 ++ [JObj [("role", JStr "assistant");
                                       ("content", JStr prefix)]]) ∧
          length js1 = length original ∧
          json2 = JList (js2 ++ [JObj [("role", JStr "assistant");
                                       ("content", JStr prefix)]]) ∧
          length js2 = length original + 2) ∧
       heap w' !! lm = Some (OList (original ++ [VRef a1; VRef u1; VRef a2; VRef u2])) ∧
       ∀ l, l ∈ fresh1 ++ fresh2 →
            heap w !! l = None ∧ l ≠ lm ∧ l ∉ [a1; u1; a2; u2]).
Proof.
  split.
  - intros * Hlm H. apply (native_two_passes _ _ _ _ _ _ _ _ _ _ _ _ _ Hlm) in H
      as (h1 & ts1 & hs1 & f1 & ws1 & s1 & t1 & a1 & u1 & ts2 & hs2 & f2 & ws2 & s2 & a2 & u2 &
          P1 & P2 & Hnet & _).
    destruct (two_pass_store _ _ _ _ _ _ _ _ _ _ _ _ _ _ _ _ _ _ Hlm P1 P2)
      as (V1 & V2 & Hfinal & _ & _ & _ & _ & _ & _ & _ & _ & _ & _ & Hfresh).
    by exists ts1, hs1, f1, ts2, hs2, f2, a1, u1, a2, u2.
  - intros * Hlm H. apply (bedrock_two_passes _ _ _ _ _ _ _ _ _ _ _ Hlm) in H
      as (h1 & ts1 & hs1 & f1 & j1 & ws1 & r1 & incs1 & a1 & u1 &
          ts2 & hs2 & f2 & j2 & ws2 & r2 & incs2 & a2 & u2 &
          P1 & P2 & Hj1 & Hj2 & Hnet & _).
    destruct (two_pass_store _ _ _ _ _ _ _ _ _ _ _ _ _ _ _ _ _ _ Hlm P1 P2)
      as (V1 & V2 & Hfinal & _ & _ & _ & _ & _ & _ & _ & _ & _ & _ & Hfresh).
    exists ts1, hs1, f1, j1, ts2, hs2, f2, j2, a1, u1, a2, u2.
    split_and!; try done.
    intros Hit.
    destruct (request_view_json _ _ _ _ _ _ _ V1 Hj1 Hit) as (js1 & -> & Hl1).
    destruct (request_view_json _ _ _ _ _ _ _ V2 Hj2 Hit) as (js2 & -> & Hl2).
    exists js1, js2. split_and!; try done. rewrite Hl2, length_app. cbn. lia.
Qed.

Lemma thinking_prefix_only_in_request_witness :
  ∃ to_send1 hs1 fresh1 to_send2 hs2 fresh2 a1 u1 a2 u2,
    net (stream_claude_response_native false (λ s, s) quiet_pprint two_pass_text_transport
           "system" (VRef 1) "key" true CLAUDE_3_OPUS (world_of draft_store)).2
    = net (world_of draft_store) ++
      [Sent (AnthropicRequest "key" (Llm_value CLAUDE_3_OPUS) 4096 (VFloat 0 (-1))
               (VStr "system") to_send1) hs1;
       Sent (AnthropicRequest "key" (Llm_value CLAUDE_3_OPUS) 4096 (VFloat 0 (-1))
               (VStr "system") to_send2) hs2] ∧
    request_view true hs1 1%positive [VRef 2] to_send1 fresh1 ∧
    request_view true hs2 1%positive ([VRef 2] ++ [VRef a1; VRef u1]) to_send2 fresh2 ∧
    heap (stream_claude_response_native false (λ s, s) quiet_pprint two_pass_text_transport
            "system" (VRef 1) "key" true CLAUDE_3_OPUS (world_of draft_store)).2 !! 1%positive
    = Some (OList ([VRef 2] ++ [VRef a1; VRef u1; VRef a2; VRef u2])) ∧
    ∀ l, l ∈ fresh1 ++ fresh2 →
         heap (world_of draft_store) !! l = None ∧ l ≠ 1%positive ∧ l ∉ [a1; u1; a2; u2].
Proof.
  apply (proj1 thinking_prefix_only_in_request false (λ s, s) quiet_pprint
           two_pass_text_transport "system" 1%positive "key" true CLAUDE_3_OPUS
           (world_of draft_store) "B" _ [VRef 2]).
  - reflexivity.
  - vm_compute. reflexivity.
Defined.

(** C4: a [ClientError] of the client library is caught by both
    managed-gateway functions, which print its message and then return
    [None] instead of raising: here for a request the gateway refuses.
    Every other exception is printed and raised again. *)
Theorem client_error_is_swallowed :
  (∀ message w,
     bedrock_except (ClientError (Some message)) w
     = (Ret None, World (heap w) (sink w)
                    (stdout w ++ ["A client error occurred: " +:+ message])
                    (net w) (files w))) ∧
  (∀ e w,
     match e with
     | ClientError _ => True
     | _ => bedrock_except e w
            = (Exc e, World (heap w) (sink w) (stdout w ++ ["An error occurred!"])
                        (net w) (files w))
     end) ∧
  (let run := stream_claude_response_aws_bedrock denied_transport (VRef 1) "id" "secret"
                (world_of example_store) in
   run.1 = Ret None ∧
   stdout run.2 = ["A client error occurred: User is not authorized to perform: bedrock:InvokeModelWithResponseStream"] ∧
   sink run.2 = []) ∧
  (let run := stream_claude_response_native_aws_bedrock quiet_pprint denied_transport
                "system" (VRef 1) "id" "secret" false (world_of draft_store) in
   run.1 = Ret None ∧
   stdout run.2 = [""; "A client error occurred: User is not authorized to perform: bedrock:InvokeModelWithResponseStream"] ∧
   sink run.2 = []).
Proof.
  split_and!; [done | by intros [] | |]; cbv zeta; split_and!; vm_compute; reflexivity.
Qed.

(** * Further properties of the adapters *)

(** ** The model enumeration *)

(** X1: the value of every member of [Llm] converts back to that member. *)
Theorem convert_frontend_str_to_llm_of_value :
  ∀ repr m, convert_frontend_str_to_llm repr (Llm_value m) = Ret m.
Proof. by intros repr []. Qed.

(** ** The direct-API call *)

Lemma for_each_app {A S} (xs ys : list A) (body : A → S → M S) s w :
  for_each (xs ++ ys) body s w
  = match for_each xs body s w with
    | (Ret s1, w1) => for_each ys body s1 w1
    | (Exc e, w1) => (Exc e, w1)
    end.
Proof.
  revert s w. induction xs as [|x xs IH]; intros s w; [done |].
  cbn [app for_each]. unfold bind. destruct (body x s w) as [[s1|e] w1]; [apply IH | done].
Qed.

Lemma openai_loop_run chunks incs acc w :
  Forall2 (λ chunk inc, chunk_increment chunk = Some inc) chunks incs →
  for_each chunks openai_chunk_step acc w
  = (Ret (acc +:+ concat_text incs), with_output w (JStr <$> incs) []).
Proof.
  intros Hall. revert acc w. induction Hall as [|chunk inc chunks incs Hinc _ IH]; intros acc w.
  - cbn. by rewrite append_nil_r, with_output_nil.
  - cbn [for_each]. unfold bind at 1, openai_chunk_step at 1.
    unfold chunk_increment in Hinc. unfold bind at 1, lift, py_index.
    destruct (choices chunk !! 0) as [c|]; [|done]. injection Hinc as <-.
    cbv zeta. unfold bind at 1, callback at 1, ret at 1.
    rewrite IH, concat_text_cons, append_assoc. f_equal.
    rewrite with_output_sink, with_output_app. done.
Qed.

Lemma openai_params_get messages model :
  dict_get "model" (openai_params messages model) = Some (VStr (Llm_value model)) ∧
  dict_get "messages" (openai_params messages model) = Some messages ∧
  dict_get "stream" (openai_params messages model) = Some (VBool true) ∧
  dict_get "timeout" (openai_params messages model) = Some (VInt 600) ∧
  dict_get "temperature" (openai_params messages model) = Some (VFloat 0 (-1)) ∧
  dict_get "max_tokens" (openai_params messages model)
  = if takes_max_tokens model then Some (VInt 4096) else None.
Proof. by destruct model. Qed.

(** X2: whatever comes of it, a direct-API call issues exactly one request,
    with the caller's messages as they are, the model's value, streaming
    on, a timeout of 600 and temperature 0.0; ["max_tokens"] is 4096 for
    the two GPT-4 models and absent for every other model.  The call
    changes no object of the store, prints nothing and writes no file. *)
Theorem openai_request_and_frame transport messages api_key base_url model w r w' :
  stream_openai_response transport messages api_key base_url model w = (r, w') →
  ∃ params,
    net w' = net w ++ [Sent (OpenAIRequest api_key base_url params) (heap w)] ∧
    dict_get "model" params = Some (VStr (Llm_value model)) ∧
    dict_get "messages" params = Some messages ∧
    dict_get "stream" params = Some (VBool true) ∧
    dict_get "timeout" params = Some (VInt 600) ∧
    dict_get "temperature" params = Some (VFloat 0 (-1)) ∧
    dict_get "max_tokens" params
    = (if takes_max_tokens model then Some (VInt 4096) else None) ∧
    heap w' = heap w ∧ stdout w' = stdout w ∧ files w' = files w.
Proof.
  intros H%stream_openai_response_inv. cbv zeta in H.
  exists (openai_params messages model).
  destruct (openai_params_get messages model) as (? & ? & ? & ? & ? & ?).
  destruct (transport _) as [stream|e].
  - destruct H as (incs & -> & _). cbn. rewrite !app_nil_r. split_and!; done.
  - destruct H as [_ ->]. cbn. split_and!; done.
Qed.

Lemma openai_request_and_frame_witness :
  ∃ params,
    net (stream_openai_response (chunk_transport [ChatChunk [Choice (Some "<p>")]])
           (VRef 1) "key" None CLAUDE_3_OPUS (world_of example_store)).2
    = net (world_of example_store)
      ++ [Sent (OpenAIRequest "key" None params) (heap (world_of example_store))] ∧
    dict_get "model" params = Some (VStr (Llm_value CLAUDE_3_OPUS)) ∧
    dict_get "messages" params = Some (VRef 1) ∧
    dict_get "stream" params = Some (VBool true) ∧
    dict_get "timeout" params = Some (VInt 600) ∧
    dict_get "temperature" params = Some (VFloat 0 (-1)) ∧
    dict_get "max_tokens" params
    = (if takes_max_tokens CLAUDE_3_OPUS then Some (VInt 4096) else None) ∧
    heap (stream_openai_response (chunk_transport [ChatChunk [Choice (Some "<p>")]])
            (VRef 1) "key" None CLAUDE_3_OPUS (world_of example_store)).2
    = heap (world_of example_store) ∧
    stdout (stream_openai_response (chunk_transport [ChatChunk [Choice (Some "<p>")]])
              (VRef 1) "key" None CLAUDE_3_OPUS (world_of example_store)).2
    = stdout (world_of example_store) ∧
    files (stream_openai_response (chunk_transport [ChatChunk [Choice (Some "<p>")]])
             (VRef 1) "key" None CLAUDE_3_OPUS (world_of example_store)).2
    = files (world_of example_store).
Proof.
  apply (openai_request_and_frame (chunk_transport [ChatChunk [Choice (Some "<p>")]])
           (VRef 1) "key" None CLAUDE_3_OPUS (world_of example_store) (Ret "<p>")).
  vm_compute. reflexivity.
Defined.

(** X3: a chunk whose [choices] is empty ends the direct-API call with
    [IndexError]; the sink has received the increments of the chunks
    before it, and nothing of the chunks after it. *)
Theorem openai_chunk_without_choices transport messages api_key base_url model w
    stream before bad after incs :
  transport (sent_world w (OpenAIRequest api_key base_url (openai_params messages model)))
  = Ret stream →
  items stream = before ++ bad :: after →
  Forall2 (λ chunk inc, chunk_increment chunk = Some inc) before incs →
  choices bad = [] →
  ∃ w', stream_openai_response transport messages api_key base_url model w
        = (Exc IndexError, w') ∧
        sink w' = sink w ++ (JStr <$> incs).
Proof.
  intros Ht Hitems Hbefore Hbad. unfold stream_openai_response. cbv zeta.
  unfold bind at 1, send at 1. fold (sent_world w (OpenAIRequest api_key base_url
                                        (openai_params messages model))).
  unfold bind at 1, ask at 1. rewrite Ht.
  unfold bind at 1, for_stream at 1, bind at 1. rewrite Hitems, for_each_app.
  rewrite (openai_loop_run _ _ _ _ Hbefore). cbn [for_each].
  unfold bind at 1, openai_chunk_step at 1, bind at 1, lift, py_index. rewrite Hbad. cbn.
  eexists. split; [done |]. done.
Qed.

Lemma openai_chunk_without_choices_witness :
  ∃ w', stream_openai_response
          (chunk_transport [ChatChunk [Choice (Some "<h")]; ChatChunk []; ChatChunk [Choice (Some "tml>")]])
          (VRef 1) "key" None GPT_4_VISION (world_of example_store)
        = (Exc IndexError, w') ∧
        sink w' = sink (world_of example_store) ++ (JStr <$> ["<h"]).
Proof.
  apply (openai_chunk_without_choices _ (VRef 1) "key" None GPT_4_VISION
           (world_of example_store)
           (Stream [ChatChunk [Choice (Some "<h")]; ChatChunk []; ChatChunk [Choice (Some "tml>")]] None)
           [ChatChunk [Choice (Some "<h")]] (ChatChunk []) [ChatChunk [Choice (Some "tml>")]]
           ["<h"]).
  - reflexivity.
  - reflexivity.
  - repeat constructor.
  - reflexivity.
Defined.

(** X4: in the direct-API and native-SDK variants a failure of the
    transport reaches the caller as it is.  A transport that refuses the
    request ends the call with its exception, the request recorded and the
    sink not called; a stream that fails after its last item ends the call
    with that exception, after the sink received every increment, and the
    text accumulated so far is not returned. *)
Theorem transport_failure_propagates :
  (∀ transport messages api_key base_url model w e,
     transport (sent_world w (OpenAIRequest api_key base_url (openai_params messages model)))
     = Exc e →
     stream_openai_response transport messages api_key base_url model w
     = (Exc e, sent_world w (OpenAIRequest api_key base_url (openai_params messages model)))) ∧
  (∀ transport messages api_key base_url model w stream incs e,
     transport (sent_world w (OpenAIRequest api_key base_url (openai_params messages model)))
     = Ret stream →
     Forall2 (λ chunk inc, chunk_increment chunk = Some inc) (items stream) incs →
     failure stream = Some e →
     ∃ w', stream_openai_response transport messages api_key base_url model w = (Exc e, w') ∧
           sink w' = sink w ++ (JStr <$> incs) ∧ stdout w' = stdout w) ∧
  (∀ transport messages api_key w system_prompt claude_messages w1 e,
     translate_messages messages w = (Ret (system_prompt, claude_messages), w1) →
     transport (sent_world w1 (AnthropicRequest api_key "claude-3-sonnet-20240229" 4096
                                 (VFloat 0 (-1)) system_prompt claude_messages))
     = Exc e →
     ∃ w', stream_claude_response transport messages api_key w = (Exc e, w') ∧
           sink w' = sink w ∧ stdout w' = stdout w ∧ length (net w') = length (net w) + 1) ∧
  (∀ transport messages api_key w system_prompt claude_messages w1 stream e,
     translate_messages messages w = (Ret (system_prompt, claude_messages), w1) →
     transport (sent_world w1 (AnthropicRequest api_key "claude-3-sonnet-20240229" 4096
                                 (VFloat 0 (-1)) system_prompt claude_messages))
     = Ret stream →
     failure (text_stream stream) = Some e →
     ∃ w', stream_claude_response transport messages api_key w = (Exc e, w') ∧
           sink w' = sink w ++ (JStr <$> items (text_stream stream)) ∧
           stdout w' = stdout w).
Proof.
  split_and!.
  - intros * Ht. unfold stream_openai_response. cbv zeta.
    unfold bind at 1, send at 1.
    fold (sent_world w (OpenAIRequest api_key base_url (openai_params messages model))).
    unfold bind at 1, ask at 1. by rewrite Ht.
  - intros * Ht Hall Hfail. unfold stream_openai_response. cbv zeta.
    unfold bind at 1, send at 1.
    fold (sent_world w (OpenAIRequest api_key base_url (openai_params messages model))).
    unfold bind at 1, ask at 1. rewrite Ht.
    unfold bind at 1, for_stream at 1, bind at 1.
    rewrite (openai_loop_run _ _ _ _ Hall), Hfail. cbn.
    eexists. split; [done |]. cbn. by rewrite ?app_nil_r.
  - intros * Htr Ht.
    pose proof (translate_messages_step _ _ _ _ Htr) as [(Hsink & Hout & Hnet & _) _].
    rewrite (stream_claude_response_run _ _ _ _ _ _ _ Htr). cbv zeta.
    change (Llm_value CLAUDE_3_SONNET) with "claude-3-sonnet-20240229". rewrite Ht.
    eexists. split; [done |]. cbn. rewrite length_app, Hnet. cbn. done.
  - intros * Htr Ht Hfail.
    pose proof (translate_messages_step _ _ _ _ Htr) as [(Hsink & Hout & Hnet & _) _].
    rewrite (stream_claude_response_run _ _ _ _ _ _ _ Htr). cbv zeta.
    change (Llm_value CLAUDE_3_SONNET) with "claude-3-sonnet-20240229". rewrite Ht, Hfail.
    eexists. split; [done |]. cbn. by rewrite Hsink, Hout, app_nil_r.
Qed.

Lemma transport_failure_propagates_witness :
  stream_openai_response (λ _, Exc (TransportError "RateLimitError")) (VRef 1) "key" None
    GPT_4_TURBO_2024_04_09 (world_of example_store)
  = (Exc (TransportError "RateLimitError"),
     sent_world (world_of example_store)
       (OpenAIRequest "key" None (openai_params (VRef 1) GPT_4_TURBO_2024_04_09))).
Proof.
  apply (proj1 transport_failure_propagates (λ _, Exc (TransportError "RateLimitError"))
           (VRef 1) "key" None GPT_4_TURBO_2024_04_09 (world_of example_store)
           (TransportError "RateLimitError")).
  reflexivity.
Defined.

(** ** The translation: edge cases *)

(** X5: on an empty message list the single-pass adapters fail at
    [messages[0]] with [IndexError], before any request: the native-SDK
    call leaves the world as it was, the managed-gateway call prints
    ["An error occurred!"] and raises the same exception. *)
Theorem empty_message_list lm w :
  heap w !! lm = Some (OList []) →
  (∀ transport api_key,
     stream_claude_response transport (VRef lm) api_key w = (Exc IndexError, w)) ∧
  (∀ transport access_key secret_access_key,
     stream_claude_response_aws_bedrock transport (VRef lm) access_key secret_access_key w
     = (Exc IndexError,
        World (heap w) (sink w) (stdout w ++ ["An error occurred!"]) (net w) (files w))).
Proof.
  intros Hlm.
  assert (Htr : translate_messages (VRef lm) w = (Exc IndexError, w)).
  { unfold translate_messages. by rewrite (bind_run _ _ _ _ _ (list_elems_list _ _ _ Hlm)). }
  split; intros.
  - by apply translate_failure_native.
  - by rewrite (translate_failure_bedrock _ _ _ _ _ _ _ Htr).
Qed.

Lemma empty_message_list_witness :
  (∀ transport api_key,
     stream_claude_response transport (VRef 1) api_key
       (world_of (<[1%positive := OList []]> example_store))
     = (Exc IndexError, world_of (<[1%positive := OList []]> example_store))) ∧
  (∀ transport access_key secret_access_key,
     stream_claude_response_aws_bedrock transport (VRef 1) access_key secret_access_key
       (world_of (<[1%positive := OList []]> example_store))
     = (Exc IndexError,
        World (<[1%positive := OList []]> example_store) [] ([] ++ ["An error occurred!"]) [] [])).
Proof.
  assert (Hlm : heap (world_of (<[1%positive := OList []]> example_store)) !! 1%positive
                = Some (OList [])) by reflexivity.
  exact (empty_message_list 1%positive _ Hlm).
Defined.

(** ** The managed-gateway call: what it prints, what it returns *)



(** X7: a managed-gateway response without a body is no error: when no
    response of the transport has one, the sink is never called and a call
    that returns a text returns the empty string. *)
Theorem bedrock_response_without_body transport messages access_key secret_access_key
    w r w' :
  (∀ ws response, transport ws = Ret response → body response = None) →
  stream_claude_response_aws_bedrock transport messages access_key secret_access_key w
  = (r, w') →
  sink w' = sink w ∧ ∀ text, r = Ret (Some text) → text = "".
Proof.
  intros Hnone H. split.
  - destruct (bedrock_sink _ _ _ _ _ _ _ H) as (events & -> & [->|(ws & resp & st & Ht & Hb & _)]).
    + apply app_nil_r.
    + apply Hnone in Ht. congruence.
  - intros text ->.
    destruct (bedrock_returns _ _ _ _ _ _ _ H)
      as (ws & response & events & incs & Ht & -> & Hincs & _ & _ & ->).
    rewrite (Hnone _ _ Ht) in Hincs. by destruct incs.
Qed.

Lemma bedrock_response_without_body_witness :
  sink (stream_claude_response_aws_bedrock (λ _, Ret (MkBedrockResponse None true))
          (VRef 1) "id" "secret" (world_of example_store)).2
  = sink (world_of example_store) ∧
  ∀ text,
    (stream_claude_response_aws_bedrock (λ _, Ret (MkBedrockResponse None true))
       (VRef 1) "id" "secret" (world_of example_store)).1 = Ret (Some text) →
    text = "".
Proof.
  apply (bedrock_response_without_body (λ _, Ret (MkBedrockResponse None true))
           (VRef 1) "id" "secret" (world_of example_store)).
  - intros ws response Hresp. injection Hresp as <-. reflexivity.
  - apply surjective_pairing.
Defined.

(** ** The translation changes image parts only *)

Lemma image_rewrites_refl h : image_rewrites h h.
Proof. intros l o Hl. by left. Qed.

Lemma image_rewrites_trans h1 h2 h3 :
  image_rewrites h1 h2 → image_rewrites h2 h3 → image_rewrites h1 h3.
Proof.
  intros H12 H23 l o Hl.
  destruct (H12 _ _ Hl) as [H2|(d & d' & -> & Hty & H2 & Hty' & Hk)]; [by apply H23 |].
  destruct (H23 _ _ H2) as [H3|(d0 & d'' & [= <-] & Hty0 & _)]; [|congruence].
  right. by exists d, d'.
Qed.

Lemma image_rewrites_subseteq (h h' : gmap loc obj) : h ⊆ h' → image_rewrites h h'.
Proof. intros Hsub l o Hl. left. by eapply lookup_weaken. Qed.

Lemma image_rewrites_alloc h l o : h !! l = None → image_rewrites h (<[l := o]> h).
Proof. intros. by apply image_rewrites_subseteq, insert_subseteq. Qed.

Lemma image_rewrites_part h p dp d' :
  h !! p = Some (ODict dp) →
  dict_get "type" dp = Some (VStr "image_url") →
  dict_get "type" d' = Some (VStr "image") →
  (∀ k, ¬ rewritten_key k → dict_get k d' = dict_get k dp) →
  image_rewrites h (<[p := ODict d']> h).
Proof.
  intros Hp Hty Hty' Hk l o Hl. destruct (decide (l = p)) as [->|Hne].
  - right. rewrite Hp in Hl. injection Hl as <-. exists dp, d'.
    by rewrite lookup_insert_eq.
  - left. by rewrite lookup_insert_ne.
Qed.

Lemma translate_part_image_rewrites q w r w' :
  translate_part q w = (r, w') → image_rewrites (heap w) (heap w').
Proof.
  intros H. apply translate_part_cases in H as [_ [[-> _]|(p & dp & -> & Hp & Hty & H)]];
    [apply image_rewrites_refl |].
  destruct H as [[_ ->]|(u & du & urlv & mt & data & s & _ & _ & _ & _ & _ & Hs & ->)].
  - eapply image_rewrites_part; [done.. | |].
    + apply dict_get_set_eq.
    + intros k Hk. apply retyped_other. unfold rewritten_key in Hk. naive_solver.
  - eapply image_rewrites_trans; [by apply image_rewrites_alloc |].
    eapply image_rewrites_part.
    + rewrite lookup_insert_ne; [done | congruence].
    + done.
    + apply rewritten_type.
    + intros. by apply rewritten_other.
Qed.

Lemma for_each_relates {A S} (R : world → world → Prop) (body : A → S → M S) xs :
  (∀ w, R w w) → (∀ w1 w2 w3, R w1 w2 → R w2 w3 → R w1 w3) →
  (∀ x s w r w', body x s w = (r, w') → R w w') →
  ∀ s w r w', for_each xs body s w = (r, w') → R w w'.
Proof.
  intros Hrefl Htrans Hbody. induction xs as [|x xs IH]; intros s w r w' H.
  - injection H as <- <-. apply Hrefl.
  - cbn [for_each] in H. apply bind_inv in H as [(s1 & w1 & H1 & H2)|(e & H1 & _)].
    + eapply Htrans; [by eapply Hbody | by eapply IH].
    + by eapply Hbody.
Qed.

Lemma translate_message_image_rewrites m w r w' :
  translate_message m w = (r, w') → image_rewrites (heap w) (heap w').
Proof.
  unfold translate_message. intros H.
  apply bind_inv in H as [(v & w1 & Hg & H)|(e & Hg & _)];
    apply getitem_inv in Hg as [-> _]; [|apply image_rewrites_refl].
  unfold bind at 1, get_heap at 1 in H.
  destruct (is_list (heap w) v); [|injection H as <- <-; apply image_rewrites_refl].
  apply bind_inv in H as [(parts & w1 & Hl & H)|(e & Hl & _)];
    apply list_elems_inv in Hl as [-> _]; [|apply image_rewrites_refl].
  revert H. apply (for_each_relates (λ w w', image_rewrites (heap w) (heap w'))).
  - intros. apply image_rewrites_refl.
  - intros. by eapply image_rewrites_trans.
  - intros. by eapply translate_part_image_rewrites.
Qed.

Lemma messages_loop_image_rewrites copies w r w' :
  for_each copies (λ message (_ : unit), translate_message message) tt w = (r, w') →
  image_rewrites (heap w) (heap w').
Proof.
  apply (for_each_relates (λ w w', image_rewrites (heap w) (heap w'))).
  - intros. apply image_rewrites_refl.
  - intros. by eapply image_rewrites_trans.
  - intros. by eapply translate_message_image_rewrites.
Qed.

Lemma translate_messages_image_rewrites messages w r w' :
  translate_messages messages w = (r, w') → image_rewrites (heap w) (heap w').
Proof.
  unfold translate_messages. intros H.
  apply bind_inv in H as [(ms & w1 & Hl & H)|(e & Hl & _)];
    apply list_elems_inv in Hl as [-> _]; [|apply image_rewrites_refl].
  apply bind_inv in H as [(first & w1 & Hl & H)|(e & Hl & _)];
    apply lift_inv in Hl as [_ ->]; [|apply image_rewrites_refl].
  apply bind_inv in H as [(sp & w1 & Hg & H)|(e & Hg & _)].
  2:{ unfold dict_method_get in Hg. repeat case_match; simplify_eq; apply image_rewrites_refl. }
  assert (w1 = w) as -> by (unfold dict_method_get in Hg; repeat case_match; by simplify_eq).
  apply bind_inv in H as [(copies & w1 & Hc & H)|(e & Hc & _)];
    apply copy_all_spec in Hc as (_ & Hsub & _); [|by apply image_rewrites_subseteq].
  eapply image_rewrites_trans; [by apply image_rewrites_subseteq |].
  destruct (alloc_run (OList copies) w1) as (lc & Hlc & Halloc).
  rewrite (bind_run _ _ _ _ _ Halloc) in H.
  eapply image_rewrites_trans; [by apply (image_rewrites_alloc _ lc (OList copies)) |].
  apply bind_inv in H as [(u & w2 & Hloop & H)|(e & Hloop & _)];
    apply messages_loop_image_rewrites in Hloop; [|done].
  by injection H as <- <-.
Qed.

Lemma adapters_store_is_translated_store messages w :
  (∀ transport api_key r w',
     stream_claude_response transport messages api_key w = (r, w') →
     heap w' = heap (translate_messages messages w).2) ∧
  (∀ transport access_key secret_access_key r w',
     stream_claude_response_aws_bedrock transport messages access_key secret_access_key w
     = (r, w') →
     heap w' = heap (translate_messages messages w).2).
Proof.
  destruct (translate_messages messages w) as [[x|e] w1] eqn:Htr; split; intros * Hrun; cbn.
  - by eapply native_keeps_translated_store.
  - by eapply bedrock_keeps_translated_store.
  - rewrite (translate_failure_native _ _ _ _ _ _ Htr) in Hrun. by injection Hrun as <- <-.
  - rewrite (translate_failure_bedrock _ _ _ _ _ _ _ Htr) in Hrun.
    by apply bedrock_except_inv in Hrun as (-> & _).
Qed.

(** X8: whatever comes of it, a single-pass native-SDK or managed-gateway
    call leaves every object of the caller's store as it was, except
    dictionaries of type ["image_url"]: lists, and so every message list
    and content list, keep their elements; a dictionary of another type, or
    without a type, keeps its items; a dictionary of type ["image_url"] is
    either as it was or of type ["image"], with its items under every key
    other than [type], [image_url] and [source] as they were. *)
Theorem translation_touches_only_image_parts messages w :
  (∀ r w', translate_messages messages w = (r, w') → image_rewrites (heap w) (heap w')) ∧
  (∀ transport api_key r w',
     stream_claude_response transport messages api_key w = (r, w') →
     image_rewrites (heap w) (heap w')) ∧
  (∀ transport access_key secret_access_key r w',
     stream_claude_response_aws_bedrock transport messages access_key secret_access_key w
     = (r, w') →
     image_rewrites (heap w) (heap w')) ∧
  (∀ h', image_rewrites (heap w) h' →
     (∀ l xs, heap w !! l = Some (OList xs) → h' !! l = Some (OList xs)) ∧
     (∀ l d, heap w !! l = Some (ODict d) →
             dict_get "type" d ≠ Some (VStr "image_url") → h' !! l = Some (ODict d))).
Proof.
  destruct (adapters_store_is_translated_store messages w) as [Hnat Hbed].
  assert (Htr : image_rewrites (heap w) (heap (translate_messages messages w).2)).
  { eapply translate_messages_image_rewrites, surjective_pairing. }
  split_and!.
  - intros r w' H. by eapply translate_messages_image_rewrites.
  - intros * H. by rewrite (Hnat _ _ _ _ H).
  - intros * H. by rewrite (Hbed _ _ _ _ _ H).
  - intros h' Hh'. split.
    + intros l xs Hl. by destruct (Hh' _ _ Hl) as [?|(d & d' & [=] & _)].
    + intros l d Hl Hty. destruct (Hh' _ _ Hl) as [?|(d0 & d' & [= <-] & ? & _)]; done.
Qed.

Lemma translation_touches_only_image_parts_witness :
  image_rewrites (heap (world_of example_store))
    (heap (stream_claude_response (text_transport ["Hi"] [TextBlock "Hi"]) (VRef 1) "key"
             (world_of example_store)).2).
Proof.
  apply (proj1 (proj2 (translation_touches_only_image_parts (VRef 1) (world_of example_store)))
           (text_transport ["Hi"] [TextBlock "Hi"]) "key" (Ret "Hi")).
  vm_compute. reflexivity.
Defined.

(** ** A failed translation, and a second translation *)

Lemma translate_part_settled_run q w :
  part_settled (heap w) q → translate_part q w = (Ret tt, w).
Proof.
  intros (p & d & ty & -> & Hp & Hty & Hne). unfold translate_part.
  rewrite (bind_run _ _ _ _ _ (getitem_some _ _ _ _ _ Hp Hty)). by rewrite Hne.
Qed.

(** X9: a visit that fails on a data URL without a comma has already
    changed the part: its type is ["image"], its [image_url] is still
    there and no [source] was added.  A second visit of that part takes it
    for translated and passes over it without an error. *)
Theorem malformed_part_left_retyped w p dp u du url :
  heap w !! p = Some (ODict dp) →
  dict_get "type" dp = Some (VStr "image_url") →
  dict_get "image_url" dp = Some (VRef u) →
  heap w !! u = Some (ODict du) →
  dict_get "url" du = Some (VStr url) →
  contains_char "," url = false →
  ∃ w' dp',
    translate_part (VRef p) w = (Exc IndexError, w') ∧
    heap w' = <[p := ODict dp']> (heap w) ∧
    dict_get "type" dp' = Some (VStr "image") ∧
    dict_get "image_url" dp' = Some (VRef u) ∧
    dict_get "source" dp' = dict_get "source" dp ∧
    translate_part (VRef p) w' = (Ret tt, w').
Proof.
  intros Hp Hty Hiu Hu Hurl Hno.
  destruct (translate_part_run _ _ _ _ _ _ Hp Hty Hiu Hu Hurl) as (s & Hs & Hrun).
  rewrite (parse_data_url_no_comma _ Hno) in Hrun.
  eexists _, (retyped dp). split; [exact Hrun |]. cbn [heap with_heap].
  assert (Hty' : dict_get "type" (retyped dp) = Some (VStr "image")) by apply dict_get_set_eq.
  split_and!; [done | done | by rewrite retyped_other | by rewrite retyped_other |].
  apply translate_part_settled_run. exists p, (retyped dp), (VStr "image").
  split_and!; [done | apply lookup_insert_eq | done | done].
Qed.

Lemma malformed_part_left_retyped_witness :
  ∃ w' dp',
    translate_part (VRef 6) (world_of malformed_store) = (Exc IndexError, w') ∧
    heap w' = <[6%positive := ODict dp']> (heap (world_of malformed_store)) ∧
    dict_get "type" dp' = Some (VStr "image") ∧
    dict_get "image_url" dp' = Some (VRef 7) ∧
    dict_get "source" dp'
    = dict_get "source" [("type", VStr "image_url"); ("image_url", VRef 7)] ∧
    translate_part (VRef 6) w' = (Ret tt, w').
Proof.
  apply (malformed_part_left_retyped (world_of malformed_store) 6%positive
           [("type", VStr "image_url"); ("image_url", VRef 7)] 7%positive
           [("url", VStr "data:image/png;base64"); ("detail", VStr "high")]
           "data:image/png;base64"); reflexivity.
Defined.

Lemma allocated_spec h v : allocated h v = true ↔ ∀ l, v = VRef l → is_Some (h !! l).
Proof.
  destruct v as [| | | | |l]; cbn; try (split; [by intros _ ? [=] | done]).
  rewrite bool_decide_eq_true. split; [by intros ? ? [= <-] | eauto].
Qed.

Lemma image_rewrites_is_Some h h' l : image_rewrites h h' → is_Some (h !! l) → is_Some (h' !! l).
Proof. intros H [o Hl]. destruct (H _ _ Hl) as [?|(? & ? & _ & _ & ? & _)]; by eexists. Qed.

Lemma image_rewrites_allocated h h' v :
  image_rewrites h h' → allocated h v = true → allocated h' v = true.
Proof. rewrite !allocated_spec. intros H Hv l Hl. eapply image_rewrites_is_Some; eauto. Qed.

Lemma image_rewrites_list h h' l xs : image_rewrites h h' → h !! l = Some (OList xs) → h' !! l = Some (OList xs).
Proof. intros H Hl. by destruct (H _ _ Hl) as [?|(? & ? & [=] & _)]. Qed.

Lemma image_rewrites_dict h h' l d :
  image_rewrites h h' → h !! l = Some (ODict d) →
  ∃ d', h' !! l = Some (ODict d') ∧ dict_get "content" d' = dict_get "content" d.
Proof.
  intros H Hl. destruct (H _ _ Hl) as [?|(d0 & d' & [= <-] & _ & ? & _ & Hk)]; [by exists d |].
  exists d'. split; [done |]. apply Hk. unfold rewritten_key. naive_solver.
Qed.

Lemma image_rewrites_list_back h h' l xs :
  image_rewrites h h' → is_Some (h !! l) → h' !! l = Some (OList xs) → h !! l = Some (OList xs).
Proof.
  intros H [o Hl] Hl'. destruct (H _ _ Hl) as [?|(? & ? & _ & _ & ? & _)]; congruence.
Qed.

Lemma part_settled_kept h h' q : image_rewrites h h' → part_settled h q → part_settled h' q.
Proof.
  intros H (p & d & ty & -> & Hp & Hty & Hne).
  destruct (H _ _ Hp) as [?|(d0 & d' & [= <-] & Hty0 & ? & ? & _)].
  - by exists p, d, ty.
  - rewrite Hty in Hty0. injection Hty0 as ->. done.
Qed.

Lemma message_ready_kept h h' m : image_rewrites h h' → message_ready h m → message_ready h' m.
Proof.
  intros H (l & d & -> & Hl & Hv).
  destruct (image_rewrites_dict _ _ _ _ H Hl) as (d' & Hl' & Hc).
  exists l, d'. split_and!; [done..|]. intros v Hv'. rewrite Hc in Hv'.
  eapply image_rewrites_allocated; eauto.
Qed.

Lemma message_settled_kept h h' m :
  image_rewrites h h' → message_settled h m → message_settled h' m.
Proof.
  intros H (l & d & v & -> & Hl & Hc & Hv & Hparts).
  destruct (image_rewrites_dict _ _ _ _ H Hl) as (d' & Hl' & Hc').
  exists l, d', v. split_and!; [done | done | congruence | by eapply image_rewrites_allocated |].
  intros lv parts -> Hlv.
  rewrite allocated_spec in Hv.
  apply (image_rewrites_list_back _ _ _ _ H (Hv _ eq_refl)) in Hlv.
  eapply Forall_impl; [by eapply Hparts |]. intros q. by apply part_settled_kept.
Qed.

Lemma translate_part_settles q w w' :
  translate_part q w = (Ret tt, w') → part_settled (heap w') q.
Proof.
  intros H. pose proof H as Hc. unfold translate_part in H.
  apply bind_ret_inv in H as (ty & w1 & Hg & H).
  apply getitem_inv in Hg as [-> Hg]. destruct (Hg _ eq_refl) as (p & d & -> & Hp & Hty).
  destruct (val_eq_str ty "image_url") eqn:Heq.
  - apply val_eq_str_true in Heq as ->.
    apply translate_part_cases in Hc as [_ [[_ Hexc]|(p' & dp & [= <-] & Hp' & _ & Hc)]].
    { destruct (Hexc _ _ eq_refl Hp Hty) as [e He]. discriminate He. }
    destruct Hc as [[[e [=]] _]|(u & du & urlv & mt & data & s & _ & _ & _ & _ & _ & _ & ->)].
    exists p, (rewritten dp s), (VStr "image").
    split_and!; [done | apply lookup_insert_eq | apply rewritten_type | reflexivity].
  - injection H as <-. by exists p, d, ty.
Qed.

(** A loop that completes leaves every element in the state its visit
    establishes, when later visits keep that state. *)
Lemma for_each_all {A S} (R : world → world → Prop) (Pre Post : A → world → Prop)
    (body : A → S → M S) xs :
  (∀ w, R w w) → (∀ w1 w2 w3, R w1 w2 → R w2 w3 → R w1 w3) →
  (∀ x s w r w', body x s w = (r, w') → R w w') →
  (∀ x w w', Pre x w → R w w' → Pre x w') →
  (∀ x w w', Post x w → R w w' → Post x w') →
  (∀ x s w s' w', Pre x w → body x s w = (Ret s', w') → Post x w') →
  ∀ s w s' w', Forall (λ x, Pre x w) xs → for_each xs body s w = (Ret s', w') →
    Forall (λ x, Post x w') xs.
Proof.
  intros Hrefl Htrans Hbody Hpre Hpost Hvisit.
  induction xs as [|x xs IH]; intros s w s' w' Hall H; [constructor |].
  cbn [for_each] in H. apply bind_ret_inv in H as (s1 & w1 & H1 & H2).
  apply Forall_cons in Hall as [Hx Hall]. constructor.
  - eapply Hpost; [by eapply Hvisit |].
    by eapply (for_each_relates R body xs Hrefl Htrans Hbody).
  - eapply IH; [|done]. eapply Forall_impl; [done |]. intros y Hy. cbn in Hy. eapply Hpre; [exact Hy |].
    by eapply Hbody.
Qed.

Lemma translate_message_settles c w w' :
  message_ready (heap w) c → translate_message c w = (Ret tt, w') →
  message_settled (heap w') c.
Proof.
  intros (l & d & -> & Hl & Hready) H. pose proof (translate_message_image_rewrites _ _ _ _ H) as HR.
  unfold translate_message in H.
  apply bind_ret_inv in H as (v & w1 & Hg & H).
  apply getitem_inv in Hg as [-> Hg]. destruct (Hg _ eq_refl) as (l' & d' & [= <-] & Hl' & Hc).
  rewrite Hl in Hl'. injection Hl' as <-.
  destruct (image_rewrites_dict _ _ _ _ HR Hl) as (d1 & Hl1 & Hc1).
  exists l, d1, v. split_and!; [done | done | congruence | |].
  { eapply image_rewrites_allocated; eauto. }
  intros lv parts -> Hlv.
  pose proof (Hready _ Hc) as Hv. rewrite allocated_spec in Hv.
  apply (image_rewrites_list_back _ _ _ _ HR (Hv _ eq_refl)) in Hlv.
  unfold bind at 1, get_heap at 1 in H. cbn [is_list] in H. rewrite Hlv in H.
  rewrite (bind_run _ _ _ _ _ (list_elems_list _ _ _ Hlv)) in H.
  revert H. apply (for_each_all (λ w w', image_rewrites (heap w) (heap w'))
                     (λ _ _, True) (λ q w, part_settled (heap w) q)).
  - intros. apply image_rewrites_refl.
  - intros. by eapply image_rewrites_trans.
  - intros. by eapply translate_part_image_rewrites.
  - done.
  - intros. by eapply part_settled_kept.
  - intros x [] w0 [] w0' _ Hx. by eapply translate_part_settles.
  - by apply Forall_true.
Qed.

Lemma for_each_noop {A} (body : A → unit → M unit) xs w :
  Forall (λ x, body x tt w = (Ret tt, w)) xs → for_each xs body tt w = (Ret tt, w).
Proof.
  induction 1 as [|x xs Hx _ IH]; [done |]. cbn [for_each]. by rewrite (bind_run _ _ _ _ _ Hx).
Qed.

Lemma translate_message_settled_run c w :
  message_settled (heap w) c → translate_message c w = (Ret tt, w).
Proof.
  intros (l & d & v & -> & Hl & Hc & Hv & Hparts). unfold translate_message.
  rewrite (bind_run _ _ _ _ _ (getitem_some _ _ _ _ _ Hl Hc)).
  unfold bind at 1, get_heap at 1.
  destruct (is_list (heap w) v) eqn:Hlist; [|done].
  destruct v as [| | | | |lv]; try done. cbn in Hlist.
  destruct (heap w !! lv) as [[|parts]|] eqn:Hlv; try done.
  rewrite (bind_run _ _ _ _ _ (list_elems_list _ _ _ Hlv)).
  apply for_each_noop. eapply Forall_impl; [by eapply Hparts |].
  intros q. apply translate_part_settled_run.
Qed.

(** Every copy is a new dictionary holding the items its message has when
    the copies are done. *)
Lemma copy_all_dicts xs w cs w' :
  copy_all xs w = (Ret cs, w') →
  Forall2 (λ m c, ∃ l lc d, m = VRef l ∧ c = VRef lc ∧
                            heap w' !! l = Some (ODict d) ∧ heap w' !! lc = Some (ODict d))
    xs cs.
Proof.
  revert w cs. induction xs as [|m xs IH]; intros w cs H.
  - injection H as <- <-. constructor.
  - cbn [copy_all] in H. apply bind_ret_inv in H as (c & w1 & Hc & H).
    apply bind_ret_inv in H as (cs' & w2 & Hcs & H). injection H as <- <-.
    apply dict_copy_inv in Hc as [[_ [e [=]]]|(l & d & lc & -> & Hl & Hlc & [= ->] & ->)].
    pose proof (copy_all_spec _ _ _ _ Hcs) as (_ & Hsub & _). cbn [heap with_heap] in Hsub.
    constructor; [|by eapply IH].
    exists l, lc, d. split_and!; [done..| |].
    + eapply lookup_weaken; [|done]. rewrite lookup_insert_ne; [done | congruence].
    + eapply lookup_weaken; [|done]. apply lookup_insert_eq.
Qed.

Lemma copy_all_run xs w :
  Forall (λ m, ∃ l d, m = VRef l ∧ heap w !! l = Some (ODict d)) xs →
  ∃ cs w', copy_all xs w = (Ret cs, w').
Proof.
  revert w. induction xs as [|m xs IH]; intros w Hall; [by eexists _, _ |].
  apply Forall_cons in Hall as [(l & d & -> & Hl) Hall]. cbn [copy_all].
  destruct (alloc_run (ODict d) w) as (lc & Hlc & Halloc).
  assert (Hcopy : dict_copy (VRef l) w
                  = (Ret (VRef lc), with_heap w (<[lc := ODict d]> (heap w)))).
  { unfold dict_copy. by rewrite Hl. }
  rewrite (bind_run _ _ _ _ _ Hcopy).
  destruct (IH (with_heap w (<[lc := ODict d]> (heap w)))) as (cs & w' & Hcs).
  { eapply Forall_impl; [done |]. intros m (l' & d' & -> & Hl').
    exists l', d'. split; [done |]. cbn. rewrite lookup_insert_ne; [done | congruence]. }
  rewrite (bind_run _ _ _ _ _ Hcs). by eexists _, _.
Qed.

Lemma dict_get_held {V} k (d : list (string * V)) v : dict_get k d = Some v → v ∈ d.*2.
Proof.
  induction d as [|[k' v'] d IH]; [done |]. cbn.
  destruct (String.eqb k k'); [intros [= ->]; apply list_elem_of_here |].
  intros. by apply list_elem_of_further, IH.
Qed.

Lemma closed_allocated h l o v :
  closed h → h !! l = Some o → v ∈ held o → allocated h v = true.
Proof.
  intros Hclosed Hl Hv. pose proof (map_Forall_lookup_1 _ _ _ _ Hclosed Hl) as Hall.
  cbn in Hall. rewrite Forall_forall in Hall. by apply Hall.
Qed.

Lemma settled_of_same_dict h m c l lc d :
  m = VRef l → c = VRef lc → h !! l = Some (ODict d) → h !! lc = Some (ODict d) →
  message_settled h m → message_settled h c.
Proof.
  intros -> -> Hl Hlc (l' & d' & v & [= <-] & Hl' & Hc & Hv & Hparts).
  rewrite Hl in Hl'. injection Hl' as <-. by exists lc, d, v.
Qed.

(** The translation, opened at its copies. *)
Lemma translate_messages_open lm ms w system_prompt claude_messages w1 :
  heap w !! lm = Some (OList ms) →
  translate_messages (VRef lm) w = (Ret (system_prompt, claude_messages), w1) →
  ∃ lf df copies wc lc,
    ms !! 0 = Some (VRef lf) ∧ heap w !! lf = Some (ODict df) ∧
    system_prompt = default VNone (dict_get "content" df) ∧
    copy_all (tail ms) w = (Ret copies, wc) ∧
    heap wc !! lc = None ∧ claude_messages = VRef lc ∧
    for_each copies (λ message (_ : unit), translate_message message) tt
      (with_heap wc (<[lc := OList copies]> (heap wc))) = (Ret tt, w1).
Proof.
  intros Hlm H. unfold translate_messages in H.
  rewrite (bind_run _ _ _ _ _ (list_elems_list _ _ _ Hlm)) in H.
  apply bind_ret_inv in H as (first & w0 & Hfirst & H).
  apply lift_inv in Hfirst as [Hfirst ->].
  unfold py_index in Hfirst. destruct (ms !! 0) as [first'|] eqn:Hfirst'; [|done].
  injection Hfirst as ->.
  apply bind_ret_inv in H as (sys & w0 & Hsys & H).
  unfold dict_method_get in Hsys.
  destruct first' as [| | | | |lf]; try done.
  destruct (heap w !! lf) as [[df|?]|] eqn:Hlf; try done.
  injection Hsys as <- <-.
  apply bind_ret_inv in H as (copies & wc & Hcopies & H).
  destruct (alloc_run (OList copies) wc) as (lc & Hlc & Halloc).
  rewrite (bind_run _ _ _ _ _ Halloc) in H.
  apply bind_ret_inv in H as ([] & w3 & Hloop & H). injection H as <- <- <-.
  by exists lf, df, copies, wc, lc.
Qed.

(** After a translation that completes, every message after the first is
    settled in the caller's store. *)
Lemma translated_messages_settled lm ms w system_prompt claude_messages w1 :
  closed (heap w) →
  heap w !! lm = Some (OList ms) →
  translate_messages (VRef lm) w = (Ret (system_prompt, claude_messages), w1) →
  Forall (message_settled (heap w1)) (tail ms).
Proof.
  intros Hclosed Hlm Htr.
  destruct (translate_messages_open _ _ _ _ _ _ Hlm Htr)
    as (lf & df & copies & wc & lc & _ & _ & _ & Hcopies & Hlc & _ & Hloop).
  pose proof (messages_loop_image_rewrites _ _ _ _ Hloop) as HR. cbn [heap with_heap] in HR.
  pose proof (copy_all_spec _ _ _ _ Hcopies) as (_ & Hsub & _).
  pose proof (copy_all_dicts _ _ _ _ Hcopies) as Hdicts.
  set (w0 := with_heap wc (<[lc := OList copies]> (heap wc))) in *.
  assert (Hsub0 : heap wc ⊆ heap w0) by (by apply insert_subseteq).
  (* every copy is ready when the loop starts *)
  assert (Hready : Forall (λ c, message_ready (heap w0) c) copies).
  { apply Forall_forall. intros c Hc.
    apply list_elem_of_lookup in Hc as [i Hi].
    destruct (Forall2_lookup_r _ _ _ _ _ Hdicts Hi) as (m & Hm & l & lc' & d & -> & -> & Hl & Hlc').
    exists lc', d. split_and!; [done | by eapply lookup_weaken |].
    intros v Hv. apply (image_rewrites_allocated (heap w)).
    { apply image_rewrites_subseteq. by etrans. }
    assert (Hin : VRef l ∈ ms).
    { destruct ms as [|m0 ms']; [done |]. apply list_elem_of_further.
      by eapply list_elem_of_lookup_2. }
    pose proof (closed_allocated _ _ _ _ Hclosed Hlm Hin) as Hal.
    rewrite allocated_spec in Hal. destruct (Hal _ eq_refl) as [o Ho].
    pose proof (lookup_weaken _ _ _ _ Ho Hsub) as Ho'. rewrite Hl in Ho'. injection Ho' as <-.
    eapply closed_allocated; [done | exact Ho |]. cbn. by eapply dict_get_held. }
  (* every copy is settled when it ends *)
  assert (Hsettled : Forall (λ c, message_settled (heap w1) c) copies).
  { revert Hready Hloop.
    apply (for_each_all (λ w w', image_rewrites (heap w) (heap w'))
             (λ c w, message_ready (heap w) c) (λ c w, message_settled (heap w) c)).
    - intros. apply image_rewrites_refl.
    - intros. by eapply image_rewrites_trans.
    - intros. by eapply translate_message_image_rewrites.
    - intros. by eapply message_ready_kept.
    - intros. by eapply message_settled_kept.
    - intros c [] wa [] wb. apply translate_message_settles. }
  (* and so is the message it was made from *)
  apply Forall_forall. intros m Hm.
  apply list_elem_of_lookup in Hm as [i Hi].
  destruct (Forall2_lookup_l _ _ _ _ _ Hdicts Hi) as (c & Hc & l & lc' & d & -> & -> & Hl & Hlc').
  rewrite Forall_forall in Hsettled.
  destruct (Hsettled (VRef lc')) as (lc'' & dc & v & [= <-] & Hdc & Hcontent & Hv & Hparts).
  { by eapply list_elem_of_lookup_2. }
  pose proof (lookup_weaken _ _ _ _ Hl Hsub0) as Hl0.
  pose proof (lookup_weaken _ _ _ _ Hlc' Hsub0) as Hlc0.
  destruct (image_rewrites_dict _ _ _ _ HR Hl0) as (d1 & Hl1 & Hc1).
  destruct (image_rewrites_dict _ _ _ _ HR Hlc0) as (dc' & Hdc' & Hc2).
  rewrite Hdc in Hdc'. injection Hdc' as <-.
  exists l, d1, v. split_and!; [done | done | congruence | done | done].
Qed.

(** X10: the translation is idempotent on the caller's store.  After a
    translation that completes on a store without dangling references, a
    second translation of the same list completes too, with the same system
    prompt; it makes its new turns and changes no object. *)
Theorem translation_is_idempotent lm ms w system_prompt claude_messages w1 :
  closed (heap w) →
  heap w !! lm = Some (OList ms) →
  translate_messages (VRef lm) w = (Ret (system_prompt, claude_messages), w1) →
  ∃ claude_messages' w2,
    translate_messages (VRef lm) w1 = (Ret (system_prompt, claude_messages'), w2) ∧
    heap w1 ⊆ heap w2 ∧ same_io w1 w2.
Proof.
  intros Hclosed Hlm Htr.
  pose proof (translated_messages_settled _ _ _ _ _ _ Hclosed Hlm Htr) as Hsettled.
  pose proof (translate_messages_image_rewrites _ _ _ _ Htr) as HR.
  destruct (translate_messages_open _ _ _ _ _ _ Hlm Htr)
    as (lf & df & _ & _ & _ & Hfirst & Hlf & -> & _).
  pose proof (image_rewrites_list _ _ _ _ HR Hlm) as Hlm1.
  destruct (image_rewrites_dict _ _ _ _ HR Hlf) as (df1 & Hlf1 & Hcontent).
  destruct (copy_all_run (tail ms) w1) as (copies & wc & Hcopies).
  { eapply Forall_impl; [exact Hsettled |]. intros m (l & d & v & -> & Hl & _). eauto. }
  pose proof (copy_all_spec _ _ _ _ Hcopies) as (Hio & Hsub & _).
  pose proof (copy_all_dicts _ _ _ _ Hcopies) as Hdicts.
  destruct (alloc_run (OList copies) wc) as (lc & Hlc & Halloc).
  set (w2 := with_heap wc (<[lc := OList copies]> (heap wc))) in *.
  assert (Hsub2 : heap w1 ⊆ heap w2).
  { etrans; [exact Hsub |]. by apply insert_subseteq. }
  exists (VRef lc), w2. split_and!; [|done |].
  - unfold translate_messages.
    rewrite (bind_run _ _ _ _ _ (list_elems_list _ _ _ Hlm1)).
    unfold bind at 1, lift at 1, py_index. rewrite Hfirst.
    unfold bind at 1, dict_method_get at 1. rewrite Hlf1, Hcontent.
    rewrite (bind_run _ _ _ _ _ Hcopies), (bind_run _ _ _ _ _ Halloc).
    rewrite (bind_run _ _ _ tt w2); [done |].
    apply for_each_noop. apply Forall_forall. intros c Hc.
    apply translate_message_settled_run.
    apply list_elem_of_lookup in Hc as [i Hi].
    destruct (Forall2_lookup_r _ _ _ _ _ Hdicts Hi) as (m & Hm & l & lc' & d & -> & -> & Hl & Hlc').
    apply (settled_of_same_dict _ (VRef l) _ l lc' d); [done | done | | |].
    + eapply lookup_weaken; [exact Hl |]. by apply insert_subseteq.
    + eapply lookup_weaken; [exact Hlc' |]. by apply insert_subseteq.
    + eapply message_settled_kept; [by apply image_rewrites_subseteq |].
      rewrite Forall_forall in Hsettled. apply Hsettled. by eapply list_elem_of_lookup_2.
  - destruct Hio as (? & ? & ? & ?). done.
Qed.

Lemma translation_is_idempotent_witness :
  ∃ claude_messages' w2,
    translate_messages (VRef 1) (translate_messages (VRef 1) (world_of example_store)).2
    = (Ret (VStr "You are an expert.", claude_messages'), w2) ∧
    heap (translate_messages (VRef 1) (world_of example_store)).2 ⊆ heap w2 ∧
    same_io (translate_messages (VRef 1) (world_of example_store)).2 w2.
Proof.
  apply (translation_is_idempotent 1%positive [VRef 2; VRef 3] (world_of example_store)
           (VStr "You are an expert.") (VRef 9)).
  - apply (bool_decide_unpack _). vm_compute. exact I.
  - reflexivity.
  - vm_compute. reflexivity.
Defined.

(** ** Data URLs *)

Lemma split_char c s :
  split (String c EmptyString) s
  = before c s :: match after c s with
                  | Some rest => split (String c EmptyString) rest
                  | None => []
                  end.
Proof.
  unfold split. induction s as [|x s IH]; [done |].
  cbn [split_aux before after]. rewrite prefix_single.
  destruct (Ascii.eqb_spec c x) as [->|Hne].
  - by rewrite bool_decide_eq_true_2.
  - rewrite bool_decide_eq_false_2 by done. by rewrite IH.
Qed.

Lemma split_char_second c s :
  py_index (split (String c EmptyString) s) 1
  = match after c s with
    | Some rest => Ret (before c rest)
    | None => Exc IndexError
    end.
Proof.
  rewrite split_char. unfold py_index. cbn [lookup list_lookup].
  destruct (after c s) as [rest|]; [|done]. by rewrite split_char.
Qed.

(** X11: what the two [split] expressions of the translation read in a
    data URL.  The media type is the text between the first colon of the
    part before the first semicolon and the next colon, if any; the payload
    is the text between the first comma and the next comma, if any.  The
    parse raises [IndexError] when the part before the first semicolon has
    no colon or the URL has no comma, and [AttributeError] when the URL is
    not a string. *)
Theorem parse_data_url_reads image_data_url :
  parse_data_url image_data_url
  = match image_data_url with
    | VStr url =>
        match after ":" (before ";" url), after "," url with
        | Some type_onwards, Some payload_onwards =>
            Ret (before ":" type_onwards, before "," payload_onwards)
        | _, _ => Exc IndexError
        end
    | _ => Exc AttributeError
    end.
Proof.
  destruct image_data_url as [| | | |url|]; try done.
  unfold parse_data_url, str_split. cbn [obind].
  rewrite (split_char ";" url). unfold py_index at 1. cbn [lookup list_lookup obind].
  rewrite split_char_second.
  destruct (after ":" (before ";" url)) as [t|]; [|done]. cbn [obind].
  rewrite split_char_second. by destruct (after "," url).
Qed.

(** ** A message without content *)

Lemma message_settled_dict h m : message_settled h m → ∃ l d, m = VRef l ∧ h !! l = Some (ODict d).
Proof. intros (l & d & v & -> & Hl & _). eauto. Qed.

(** X12: the first message may lack a ["content"] (its [get] gives
    [None]), a later message may not: when the messages before it are passed
    over by the translation, a message without the key ends the translation
    with [KeyError], before any request is issued and before the sink is
    called, in both single-pass adapters. *)
Theorem message_without_content lm lf df earlier m dm later w :
  heap w !! lm = Some (OList (VRef lf :: earlier ++ VRef m :: later)) →
  heap w !! lf = Some (ODict df) →
  Forall (message_settled (heap w)) earlier →
  heap w !! m = Some (ODict dm) →
  dict_get "content" dm = None →
  Forall (λ v, ∃ l d, v = VRef l ∧ heap w !! l = Some (ODict d)) later →
  ∃ w1,
    translate_messages (VRef lm) w = (Exc (KeyError "content"), w1) ∧
    net w1 = net w ∧ sink w1 = sink w ∧
    (∀ transport api_key,
       stream_claude_response transport (VRef lm) api_key w
       = (Exc (KeyError "content"), w1)) ∧
    (∀ transport access_key secret_access_key,
       ∃ w2, stream_claude_response_aws_bedrock transport (VRef lm) access_key
               secret_access_key w = (Exc (KeyError "content"), w2) ∧
             net w2 = net w ∧ sink w2 = sink w).
Proof.
  intros Hlm Hlf Hearlier Hm Hcontent Hlater.
  assert (Htr : ∃ w1, translate_messages (VRef lm) w = (Exc (KeyError "content"), w1)).
  { unfold translate_messages.
    rewrite (bind_run _ _ _ _ _ (list_elems_list _ _ _ Hlm)).
    unfold bind at 1, lift at 1, py_index. cbn [lookup list_lookup].
    unfold bind at 1, dict_method_get at 1. rewrite Hlf. cbn [tail].
    destruct (copy_all_run (earlier ++ VRef m :: later) w) as (copies & wc & Hcopies).
    { apply Forall_app. split; [|by constructor; eauto].
      eapply Forall_impl; [exact Hearlier |]. apply message_settled_dict. }
    pose proof (copy_all_spec _ _ _ _ Hcopies) as (_ & Hsub & _).
    pose proof (copy_all_dicts _ _ _ _ Hcopies) as Hdicts.
    rewrite (bind_run _ _ _ _ _ Hcopies).
    destruct (alloc_run (OList copies) wc) as (lc & Hlc & Halloc).
    rewrite (bind_run _ _ _ _ _ Halloc).
    set (w0 := with_heap wc (<[lc := OList copies]> (heap wc))).
    assert (Hsub0 : heap wc ⊆ heap w0) by (by apply insert_subseteq).
    apply Forall2_app_inv_l in Hdicts as (cs1 & cs2 & Hd1 & Hd2 & ->).
    apply Forall2_cons_inv_l in Hd2 as (c & cs3 & (l & lcm & d & [= <-] & -> & Hl & Hlcm) & _ & ->).
    pose proof (lookup_weaken _ _ _ _ Hm Hsub) as Hm'. rewrite Hl in Hm'. injection Hm' as ->.
    assert (Hloop : for_each (cs1 ++ VRef lcm :: cs3)
                      (λ message (_ : unit), translate_message message) tt w0
                    = (Exc (KeyError "content"), w0)).
    { rewrite for_each_app.
      rewrite (for_each_noop _ cs1 w0).
      2:{ apply Forall_forall. intros c Hc. apply translate_message_settled_run.
          apply list_elem_of_lookup in Hc as [i Hi].
          destruct (Forall2_lookup_r _ _ _ _ _ Hd1 Hi)
            as (m' & Hm' & l' & lc' & d' & -> & -> & Hl' & Hlc').
          apply (settled_of_same_dict _ (VRef l') _ l' lc' d'); [done | done | | |].
          - by eapply lookup_weaken.
          - by eapply lookup_weaken.
          - eapply (message_settled_kept (heap w)).
            + apply image_rewrites_subseteq. by etrans.
            + rewrite Forall_forall in Hearlier. apply Hearlier.
              by eapply list_elem_of_lookup_2. }
      cbn [for_each]. unfold bind at 1, translate_message at 1.
      assert (Hget : getitem (VRef lcm) "content" w0 = (Exc (KeyError "content"), w0)).
      { rewrite (getitem_dict lcm dm) by (by eapply lookup_weaken). by rewrite Hcontent. }
      by rewrite (bind_exc _ _ _ _ _ Hget). }
    rewrite (bind_exc _ _ _ _ _ Hloop). by eexists. }
  destruct Htr as [w1 Htr].
  pose proof (translate_messages_step _ _ _ _ Htr) as [(Hsink & _ & Hnet & _) _].
  exists w1. split_and!; [done | done | done | |].
  - intros. by apply translate_failure_native.
  - intros. rewrite (translate_failure_bedrock _ _ _ _ _ _ _ Htr).
    destruct (bedrock_except (KeyError "content") w1) as [r w2] eqn:He.
    apply bedrock_except_inv in He as (_ & Hs2 & Hn2 & _ & -> & _).
    exists w2. split; [done |]. split; congruence.
Qed.

Lemma message_without_content_witness :
  ∃ w1,
    translate_messages (VRef 1)
      (world_of (<[3%positive := ODict [("role", VStr "user")]]> example_store))
    = (Exc (KeyError "content"), w1) ∧
    net w1 = net (world_of (<[3%positive := ODict [("role", VStr "user")]]> example_store)) ∧
    sink w1 = sink (world_of (<[3%positive := ODict [("role", VStr "user")]]> example_store)) ∧
    (∀ transport api_key,
       stream_claude_response transport (VRef 1) api_key
         (world_of (<[3%positive := ODict [("role", VStr "user")]]> example_store))
       = (Exc (KeyError "content"), w1)) ∧
    (∀ transport access_key secret_access_key,
       ∃ w2, stream_claude_response_aws_bedrock transport (VRef 1) access_key
               secret_access_key
               (world_of (<[3%positive := ODict [("role", VStr "user")]]> example_store))
             = (Exc (KeyError "content"), w2) ∧
             net w2
             = net (world_of (<[3%positive := ODict [("role", VStr "user")]]> example_store)) ∧
             sink w2
             = sink (world_of (<[3%positive := ODict [("role", VStr "user")]]> example_store))).
Proof.
  apply (message_without_content 1%positive 2%positive
           [("role", VStr "system"); ("content", VStr "You are an expert.")]
           [] 3%positive [("role", VStr "user")] []).
  - reflexivity.
  - reflexivity.
  - constructor.
  - reflexivity.
  - reflexivity.
  - constructor.
Defined.

(** ** The orchestrators: what the sink receives, what a failure leaves *)

Lemma concat_text_app a b : concat_text (a ++ b) = concat_text a +:+ concat_text b.
Proof.
  induction a as [|x a IH]; [done |].
  cbn [app]. by rewrite !concat_text_cons, IH, append_assoc.
Qed.

(** X13: an orchestrator call that returns has delivered to the sink the
    increments of pass 1 followed by those of pass 2.  The managed-gateway
    orchestrator returns the concatenation of all of them; the native
    orchestrator returns the text of the first content block of the final
    message of pass 2. *)
Theorem orchestrator_sink_and_return :
  (∀ IS_DEBUG_ENABLED extract_html_content pprint_prompt_text transport system_prompt lm
     api_key include_thinking model w text w' original,
     heap w !! lm = Some (OList original) →
     stream_claude_response_native IS_DEBUG_ENABLED extract_html_content pprint_prompt_text
       transport system_prompt (VRef lm) api_key include_thinking model w = (Ret text, w') →
     ∃ ws1 stream1 ws2 stream2,
       length (net ws1) = length (net w) + 1 ∧ transport ws1 = Ret stream1 ∧
       length (net ws2) = length (net w) + 2 ∧ transport ws2 = Ret stream2 ∧
       sink w' = sink w ++ (JStr <$> items (text_stream stream1) ++ items (text_stream stream2)) ∧
       head (content (final_message stream2)) = Some (TextBlock text)) ∧
  (∀ pprint_prompt_text transport system_prompt lm access_key secret_access_key
     include_thinking w text w' original,
     heap w !! lm = Some (OList original) →
     stream_claude_response_native_aws_bedrock pprint_prompt_text transport system_prompt
       (VRef lm) access_key secret_access_key include_thinking w = (Ret (Some text), w') →
     ∃ ws1 response1 incs1 ws2 response2 incs2,
       length (net ws1) = length (net w) + 1 ∧ transport ws1 = Ret response1 ∧
       length (net ws2) = length (net w) + 2 ∧ transport ws2 = Ret response2 ∧
       omap event_text (response_events response1) = JStr <$> incs1 ∧
       omap event_text (response_events response2) = JStr <$> incs2 ∧
       sink w' = sink w ++ (JStr <$> incs1 ++ incs2) ∧
       text = concat_text (incs1 ++ incs2)).
Proof.
  split.
  - intros * Hlm H. apply (native_two_passes _ _ _ _ _ _ _ _ _ _ _ _ _ Hlm) in H
      as (h1 & ts1 & hs1 & f1 & ws1 & s1 & t1 & a1 & u1 & ts2 & hs2 & f2 & ws2 & s2 & a2 & u2 &
          _ & _ & Hnet & Ht1 & Ht2 & Hws1 & Hws2 & _ & Hh2 & Hsink).
    exists ws1, s1, ws2, s2. split_and!; [| done | | done | | done].
    + rewrite Hws1, length_app. cbn. lia.
    + rewrite Hws2, Hnet, length_app. cbn. lia.
    + by rewrite fmap_app.
  - intros * Hlm H. apply (bedrock_two_passes _ _ _ _ _ _ _ _ _ _ _ Hlm) in H
      as (h1 & ts1 & hs1 & f1 & j1 & ws1 & r1 & incs1 & a1 & u1 &
          ts2 & hs2 & f2 & j2 & ws2 & r2 & incs2 & a2 & u2 &
          _ & _ & _ & _ & Hnet & Ht1 & Ht2 & Hws1 & Hws2 & He1 & He2 & Hsink & ->).
    exists ws1, r1, incs1, ws2, r2, incs2. split_and!; [| done | | done | done | done | |].
    + rewrite Hws1, length_app. cbn. lia.
    + rewrite Hws2, Hnet, length_app. cbn. lia.
    + by rewrite fmap_app.
    + by rewrite concat_text_app.
Qed.

Lemma orchestrator_sink_and_return_witness :
  ∃ ws1 response1 incs1 ws2 response2 incs2,
    length (net ws1) = length (net (world_of draft_store)) + 1 ∧
    two_pass_event_transport ws1 = Ret response1 ∧
    length (net ws2) = length (net (world_of draft_store)) + 2 ∧
    two_pass_event_transport ws2 = Ret response2 ∧
    omap event_text (response_events response1) = JStr <$> incs1 ∧
    omap event_text (response_events response2) = JStr <$> incs2 ∧
    sink (stream_claude_response_native_aws_bedrock quiet_pprint two_pass_event_transport
            "system" (VRef 1) "id" "secret" false (world_of draft_store)).2
    = sink (world_of draft_store) ++ (JStr <$> incs1 ++ incs2) ∧
    "AB" = concat_text (incs1 ++ incs2).
Proof.
  apply (proj2 orchestrator_sink_and_return quiet_pprint two_pass_event_transport
           "system" 1%positive "id" "secret" false (world_of draft_store) "AB" _ [VRef 2]).
  - reflexivity.
  - vm_compute. reflexivity.
Defined.

Lemma messages_to_send_run include_thinking lm current w :
  heap w !! lm = Some (OList current) →
  ∃ to_send fresh_objects hs,
    messages_to_send include_thinking (VRef lm) w = (Ret to_send, with_heap w hs) ∧
    outgoing include_thinking (heap w) hs lm current to_send fresh_objects.
Proof.
  intros Hlm.
  destruct (messages_to_send include_thinking (VRef lm) w) as [[to_send|e] w1] eqn:H.
  - destruct (messages_to_send_inv _ _ _ _ _ _ Hlm H) as (fresh_objects & hs & Hout & ->).
    by exists to_send, fresh_objects, hs.
  - exfalso. unfold messages_to_send in H. destruct include_thinking; [|done].
    destruct (alloc_run (ODict [("role", VStr "assistant"); ("content", VStr prefix)]) w)
      as (p & Hp & Hallocp).
    rewrite (bind_run _ _ _ _ _ Hallocp) in H.
    assert (Hlm1 : heap (with_heap w (<[p:=ODict [("role", VStr "assistant");
                                                  ("content", VStr prefix)]]> (heap w))) !! lm
                   = Some (OList current)).
    { cbn [heap with_heap]. rewrite lookup_insert_ne; [done | congruence]. }
    rewrite (bind_run _ _ _ _ _ (list_elems_list lm current _ Hlm1)) in H.
    unfold alloc in H. done.
Qed.

Lemma outgoing_subseteq include_thinking h hs lm current to_send fresh_objects :
  outgoing include_thinking h hs lm current to_send fresh_objects → h ⊆ hs.
Proof.
  intros Hout. apply map_subseteq_spec. intros l o. by eapply outgoing_keeps.
Qed.

Lemma response_first_text_run response t w :
  head (content response) = Some (TextBlock t) → response_first_text response w = (Ret t, w).
Proof.
  unfold response_first_text, bind, lift, py_index.
  by destruct (content response) as [|[t'|] blocks]; intros [= ->].
Qed.

Section native_failure.
Variable IS_DEBUG_ENABLED : bool.
Variable extract_html_content : string → string.
Variable pprint_prompt_text : gmap loc obj → val → outcome string.
Variable transport : world → outcome MessageStream.
Variable system_prompt : string.
Variable lm : loc.
Variable api_key : string.
Variable include_thinking : bool.
Variable model : Llm.

(** A pass that fails has changed no object of the store: it fails before
    its entries are appended. *)
Lemma native_pass_fails current_pass_num full_stream w e w' current :
  heap w !! lm = Some (OList current) →
  native_pass IS_DEBUG_ENABLED extract_html_content pprint_prompt_text transport
    system_prompt (VRef lm) api_key include_thinking model current_pass_num full_stream w
  = (Exc e, w') →
  heap w ⊆ heap w' ∧ length (net w) ≤ length (net w') ≤ length (net w) + 1.
Proof.
  intros Hlm H. unfold native_pass in H.
  destruct (messages_to_send_run include_thinking _ _ _ Hlm)
    as (to_send & fresh_objects & hs & Hsend & Hout).
  apply outgoing_subseteq in Hout as Hsub.
  rewrite (bind_run _ _ _ _ _ Hsend) in H.
  apply bind_inv in H as [([] & w2 & Hpp & H)|(e' & Hpp & _)];
    apply pprint_prompt_quiet in Hpp as (Hh2 & Hs2 & Hn2); cbn [heap with_heap sink net] in *.
  2:{ rewrite Hh2, Hn2. split; [done | lia]. }
  unfold bind at 1, send at 1, bind at 1, ask at 1 in H.
  destruct (transport _) as [stream|e'] eqn:Ht.
  2:{ injection H as <- <-. cbn. rewrite Hh2, length_app, Hn2. cbn. split; [done | lia]. }
  apply bind_inv in H as [(fs1 & w3 & Hloop & H)|(e' & Hloop & _)];
    apply for_stream_inv in Hloop as (r1 & Hloop & Hr1);
    rewrite native_pass_loop_run in Hloop; injection Hloop as <- <-.
  2:{ cbn. rewrite Hh2, length_app, Hn2. cbn. split; [done | lia]. }
  apply bind_inv in H as [(t & w4 & Ht1 & H)|(e' & Ht1 & _)];
    apply response_first_text_inv in Ht1 as [-> Ht1].
  2:{ cbn. rewrite Hh2, length_app, Hn2. cbn. split; [done | lia]. }
  specialize (Ht1 _ eq_refl).
  set (w3 := with_output _ _ _) in H.
  assert (Hh3 : heap w3 = hs) by (by subst w3; cbn).
  assert (Hn3 : length (net w3) = length (net w) + 1).
  { subst w3. cbn. rewrite length_app, Hn2. cbn. lia. }
  clearbody w3.
  assert (Hdbg : ∀ r w4,
    (if IS_DEBUG_ENABLED
     then write_to_file ("pass_" +:+ pretty (current_pass_num - 1) +:+ ".html")
            (extract_html_content t) ;;
          thinking <- lift (py_index (split "</thinking>" t) 0) ;;
          write_to_file ("thinking_pass_" +:+ pretty (current_pass_num - 1) +:+ ".txt")
            thinking
     else ret tt) w3 = (r, w4) → quiet w3 w4).
  { intros r w4 Hd. destruct IS_DEBUG_ENABLED; [|by injection Hd as <- <-].
    apply bind_inv in Hd as [([] & w5 & [_ Hq5]%write_to_file_quiet & Hd)|(e' & [[=] _]%write_to_file_quiet & _)].
    apply bind_inv in Hd as [(thinking & w6 & [_ ->]%lift_inv & Hd)|(e' & [_ ->]%lift_inv & _)];
      [|done].
    apply write_to_file_quiet in Hd as [_ Hq6]. by eapply quiet_trans. }
  apply bind_inv in H as [([] & w4 & Hd & H)|(e' & Hd & _)];
    apply Hdbg in Hd as (Hh4 & _ & Hn4).
  2:{ rewrite Hh4, Hh3, Hn4, Hn3. split; [done | lia]. }
  rewrite (bind_run _ _ _ _ _ (response_first_text_run _ _ _ Ht1)) in H.
  assert (Hlm4 : heap w4 !! lm = Some (OList current)).
  { rewrite Hh4, Hh3. by eapply lookup_weaken. }
  destruct (append_next_pass_run lm current t w4 Hlm4) as (a & u & Ha & Hu & Hau & Happ).
  rewrite (bind_run _ _ _ _ _ Happ) in H. by unfold bind, print, ret in H.
Qed.

(** X14: a native orchestrator call that raises has failed in pass 1 or
    in pass 2, not after them.  When it fails in pass 1 (at most one request
    issued) the caller's list is as it was.  When it fails in pass 2 (one or
    two requests issued) the caller's list already holds the two entries
    appended after pass 1, the assistant turn with the output of pass 1 and
    the follow-up: the call has changed its argument although it failed.
    It never leaves entries of pass 2, and every other object of the caller
    is as it was. *)
Theorem native_orchestrator_failure w e w' original :
  heap w !! lm = Some (OList original) →
  stream_claude_response_native IS_DEBUG_ENABLED extract_html_content pprint_prompt_text
    transport system_prompt (VRef lm) api_key include_thinking model w = (Exc e, w') →
  (∀ l o, l ≠ lm → heap w !! l = Some o → heap w' !! l = Some o) ∧
  ((heap w' !! lm = Some (OList original) ∧
    length (net w) ≤ length (net w') ≤ length (net w) + 1) ∨
   (∃ a1 u1 t1,
      heap w' !! lm = Some (OList (original ++ [VRef a1; VRef u1])) ∧
      heap w' !! a1 = Some (assistant_turn t1) ∧ heap w' !! u1 = Some user_turn ∧
      heap w !! a1 = None ∧ heap w !! u1 = None ∧
      length (net w) + 1 ≤ length (net w') ≤ length (net w) + 2)).
Proof.
  intros Hlm H. unfold stream_claude_response_native in H. cbv zeta in H.
  change (max_passes + 1 - 1) with 2 in H. cbn [native_passes] in H.
  apply bind_inv in H as [([response full] & w3 & Hloop & H)|(e' & Hloop & [= <-])].
  - (* both passes completed: nothing can fail after them *)
    exfalso.
    apply bind_ret_inv in Hloop as ([r1 fs1] & w1 & Hp1 & Hloop).
    apply bind_ret_inv in Hloop as ([r2 fs2] & w2 & Hp2 & Hloop).
    injection Hloop as <- <- <-. cbn [fst snd] in *.
    apply (native_pass_inv _ _ _ _ _ _ _ _ _ _ _ _ _ _ _ _ Hlm) in Hp1
      as (to_send1 & hs1 & fresh1 & ws1 & stream1 & t1 & a1 & u1 &
          P1 & Hn1 & Ht1 & Hws1 & -> & Hh1 & Hs1 & ->).
    destruct (pass_store_facts _ _ _ _ _ _ _ _ _ _ _ Hlm P1) as (_ & Hlm1 & _).
    apply (native_pass_inv _ _ _ _ _ _ _ _ _ _ _ _ _ _ _ _ Hlm1) in Hp2
      as (to_send2 & hs2 & fresh2 & ws2 & stream2 & t2 & a2 & u2 &
          P2 & Hn2 & Ht2 & Hws2 & -> & Hh2 & Hs2 & ->).
    apply bind_inv in H as [([] & w4 & Hdbg & H)|(e' & Hdbg & _)].
    + by rewrite (response_first_text_run _ _ _ Hh2) in H.
    + destruct IS_DEBUG_ENABLED; [|done]. by apply write_to_file_quiet in Hdbg as [[=] _].
  - apply bind_inv in Hloop as [([r1 fs1] & w1 & Hp1 & Hloop)|(e'' & Hp1 & _)].
    + (* pass 1 completed, pass 2 failed *)
      apply bind_inv in Hloop as [([r2 fs2] & w2 & Hp2 & Hloop)|(e'' & Hp2 & _)]; [done |].
      apply (native_pass_inv _ _ _ _ _ _ _ _ _ _ _ _ _ _ _ _ Hlm) in Hp1
        as (to_send1 & hs1 & fresh1 & ws1 & stream1 & t1 & a1 & u1 &
            P1 & Hn1 & Ht1 & Hws1 & -> & Hh1 & Hs1 & ->).
      destruct (pass_store_facts _ _ _ _ _ _ _ _ _ _ _ Hlm P1)
        as (_ & Hlm1 & Ha1 & Hu1 & Hna1 & Hnu1 & _ & _ & _ & Hkeep & _).
      destruct (native_pass_fails _ _ _ _ _ _ Hlm1 Hp2) as (Hsub & Hlen).
      split.
      * intros l o Hne Hl. eapply lookup_weaken; [|exact Hsub]. by apply Hkeep.
      * right. exists a1, u1, t1.
        split_and!; try (by eapply lookup_weaken); try done;
          rewrite Hn1, length_app in Hlen; cbn in Hlen; lia.
    + (* pass 1 failed *)
      destruct (native_pass_fails _ _ _ _ _ _ Hlm Hp1) as (Hsub & Hlen).
      split.
      * intros l o _ Hl. by eapply lookup_weaken.
      * left. split; [by eapply lookup_weaken | done].
Qed.
End native_failure.

Lemma native_orchestrator_failure_witness :
  (∀ l o, l ≠ 1%positive → heap (world_of draft_store) !! l = Some o →
     heap (stream_claude_response_native false (λ s, s) quiet_pprint second_request_fails
             "system" (VRef 1) "key" false CLAUDE_3_OPUS (world_of draft_store)).2 !! l
     = Some o) ∧
  ((heap (stream_claude_response_native false (λ s, s) quiet_pprint second_request_fails
            "system" (VRef 1) "key" false CLAUDE_3_OPUS (world_of draft_store)).2 !! 1%positive
    = Some (OList [VRef 2]) ∧
    length (net (world_of draft_store))
    ≤ length (net (stream_claude_response_native false (λ s, s) quiet_pprint
                     second_request_fails "system" (VRef 1) "key" false CLAUDE_3_OPUS
                     (world_of draft_store)).2)
    ≤ length (net (world_of draft_store)) + 1) ∨
   (∃ a1 u1 t1,
      heap (stream_claude_response_native false (λ s, s) quiet_pprint second_request_fails
              "system" (VRef 1) "key" false CLAUDE_3_OPUS (world_of draft_store)).2 !! 1%positive
      = Some (OList ([VRef 2] ++ [VRef a1; VRef u1])) ∧
      heap (stream_claude_response_native false (λ s, s) quiet_pprint second_request_fails
              "system" (VRef 1) "key" false CLAUDE_3_OPUS (world_of draft_store)).2 !! a1
      = Some (assistant_turn t1) ∧
      heap (stream_claude_response_native false (λ s, s) quiet_pprint second_request_fails
              "system" (VRef 1) "key" false CLAUDE_3_OPUS (world_of draft_store)).2 !! u1
      = Some user_turn ∧
      heap (world_of draft_store) !! a1 = None ∧ heap (world_of draft_store) !! u1 = None ∧
      length (net (world_of draft_store)) + 1
      ≤ length (net (stream_claude_response_native false (λ s, s) quiet_pprint
                       second_request_fails "system" (VRef 1) "key" false CLAUDE_3_OPUS
                       (world_of draft_store)).2)
      ≤ length (net (world_of draft_store)) + 2)).
Proof.
  apply (native_orchestrator_failure false (λ s, s) quiet_pprint second_request_fails
           "system" 1%positive "key" false CLAUDE_3_OPUS (world_of draft_store)
           (TransportError "overloaded_error") _ [VRef 2]).
  - reflexivity.
  - vm_compute. reflexivity.
Defined.

Lemma bedrock_pass_loop_store evs acc w r w' :
  for_each evs bedrock_pass_event_step acc w = (r, w') →
  heap w' = heap w ∧ net w' = net w.
Proof.
  apply (for_each_relates (λ w w', heap w' = heap w ∧ net w' = net w)).
  - done.
  - intros w1 w2 w3 [? ?] [? ?]. split; congruence.
  - intros ev [rt fs] w0 r0 w0' H. unfold bedrock_pass_event_step in H.
    apply bind_inv in H as [(decoded & w1 & [_ ->]%lift_inv & H)|(e & [_ ->]%lift_inv & _)];
      [|done].
    destruct decoded as [text|]; [|by injection H as <- <-].
    apply bind_inv in H as [(rt' & w1 & [_ ->]%lift_inv & H)|(e & [_ ->]%lift_inv & _)];
      [|done].
    unfold bind at 1, print at 1 in H.
    apply bind_inv in H as [(fs' & w1 & [_ ->]%lift_inv & H)|(e & [_ ->]%lift_inv & _)];
      [|done].
    unfold bind, callback, ret in H. by injection H as <- <-.
Qed.

Section bedrock_failure.
Variable pprint_prompt_text : gmap loc obj → val → outcome string.
Variable transport : world → outcome BedrockResponse.
Variable system_prompt : string.
Variable lm : loc.
Variable access_key secret_access_key : string.
Variable include_thinking : bool.

Lemma bedrock_pass_fails full_stream w e w' current :
  heap w !! lm = Some (OList current) →
  bedrock_pass pprint_prompt_text transport system_prompt (VRef lm) access_key
    secret_access_key include_thinking full_stream w = (Exc e, w') →
  heap w ⊆ heap w' ∧ length (net w) ≤ length (net w') ≤ length (net w) + 1.
Proof.
  intros Hlm H. unfold bedrock_pass in H.
  destruct (messages_to_send_run include_thinking _ _ _ Hlm)
    as (to_send & fresh_objects & hs & Hsend & Hout).
  apply outgoing_subseteq in Hout as Hsub.
  rewrite (bind_run _ _ _ _ _ Hsend) in H.
  apply bind_inv in H as [([] & w2 & Hpp & H)|(e' & Hpp & _)];
    apply pprint_prompt_quiet in Hpp as (Hh2 & Hs2 & Hn2); cbn [heap with_heap sink net] in *.
  2:{ rewrite Hh2, Hn2. split; [done | lia]. }
  apply bind_inv in H as [(request_body & w3 & Hbody & H)|(e' & Hbody & _)];
    apply bedrock_body_inv in Hbody as [-> _].
  2:{ rewrite Hh2, Hn2. split; [done | lia]. }
  unfold bind at 1, send at 1, bind at 1, ask at 1 in H.
  destruct (transport _) as [response|e'] eqn:Ht.
  2:{ injection H as <- <-. cbn. rewrite Hh2, length_app, Hn2. cbn. split; [done | lia]. }
  set (ws := World _ _ _ _ _) in H.
  assert (Hhs : heap ws = hs) by (by subst ws; cbn).
  assert (Hns : length (net ws) = length (net w) + 1).
  { subst ws. cbn. rewrite length_app, Hn2. cbn. lia. }
  clearbody ws.
  assert (Hstream : ∀ r w4,
    match body response with
    | Some stream => for_stream stream bedrock_pass_event_step ("", full_stream)
    | None => ret ("", full_stream)
    end ws = (r, w4) → heap w4 = heap ws ∧ net w4 = net ws).
  { intros r w4 Hr. destruct (body response) as [stream|]; [|by injection Hr as <- <-].
    apply for_stream_inv in Hr as (r1 & Hloop & _). by eapply bedrock_pass_loop_store. }
  apply bind_inv in H as [(streamed & w4 & Hs & H)|(e' & Hs & _)];
    apply Hstream in Hs as [Hh4 Hn4].
  2:{ rewrite Hh4, Hhs, Hn4, Hns. split; [done | lia]. }
  assert (Hlm4 : heap w4 !! lm = Some (OList current)).
  { rewrite Hh4, Hhs. by eapply lookup_weaken. }
  destruct (append_next_pass_run lm current streamed.1 w4 Hlm4)
    as (a & u & Ha & Hu & Hau & Happ).
  cbv zeta in H. rewrite (bind_run _ _ _ _ _ Happ) in H. done.
Qed.

(** X15: a managed-gateway orchestrator call that does not return a text
    (it raises, or returns [None] after a [ClientError]) leaves the caller's
    list in one of three states: as it was, when pass 1 failed; with the two
    entries of pass 1, when pass 2 failed; with the entries of both passes,
    when both passes completed and the last response was an empty
    dictionary, which raises ["No HTML response found in AI response"].
    Every other object of the caller is as it was. *)
Theorem bedrock_orchestrator_failure w r w' original :
  heap w !! lm = Some (OList original) →
  stream_claude_response_native_aws_bedrock pprint_prompt_text transport system_prompt
    (VRef lm) access_key secret_access_key include_thinking w = (r, w') →
  (∀ text, r ≠ Ret (Some text)) →
  (∀ l o, l ≠ lm → heap w !! l = Some o → heap w' !! l = Some o) ∧
  ((heap w' !! lm = Some (OList original) ∧
    length (net w) ≤ length (net w') ≤ length (net w) + 1) ∨
   (∃ a1 u1 t1,
      heap w' !! lm = Some (OList (original ++ [VRef a1; VRef u1])) ∧
      heap w' !! a1 = Some (assistant_turn t1) ∧ heap w' !! u1 = Some user_turn ∧
      heap w !! a1 = None ∧ heap w !! u1 = None ∧
      length (net w) + 1 ≤ length (net w') ≤ length (net w) + 2) ∨
   (∃ a1 u1 a2 u2,
      heap w' !! lm = Some (OList (original ++ [VRef a1; VRef u1; VRef a2; VRef u2])) ∧
      r = Exc (Exception_ "No HTML response found in AI response") ∧
      length (net w') = length (net w) + 2)).
Proof.
  intros Hlm H Hr. unfold stream_claude_response_native_aws_bedrock, try_except in H.
  cbv zeta in H. change (max_passes + 1 - 1) with 2 in H. cbn [bedrock_passes] in H.
  destruct (bind _ _ w) as [[result|e] w3] eqn:Hbody.
  { injection H as <- <-. apply bind_ret_inv in Hbody as ([response full] & w4 & _ & Hb).
    cbn [fst snd] in Hb. destruct response as [resp|]; [|done].
    destruct (response_truthy resp); [|done]. injection Hb as <- <-. by destruct (Hr full). }
  apply bedrock_except_inv in H as (Hh' & _ & Hn' & _ & He). rewrite Hh', Hn'. clear Hh' Hn' Hr.
  apply bind_inv in Hbody as [([response full] & w4 & Hloop & Hb)|(e' & Hloop & _)].
  - (* both passes completed *)
    apply bind_ret_inv in Hloop as ([r1 fs1] & w1 & Hp1 & Hloop).
    apply bind_ret_inv in Hloop as ([r2 fs2] & w2 & Hp2 & Hloop).
    injection Hloop as <- <- <-. cbn [fst snd] in *.
    apply (bedrock_pass_inv _ _ _ _ _ _ _ _ _ _ _ _ _ Hlm) in Hp1
      as (to_send1 & hs1 & fresh1 & json1 & ws1 & incs1 & a1 & u1 &
          P1 & Hj1 & Hn1 & Ht1 & Hws1 & He1 & Hs1 & ->).
    destruct (pass_store_facts _ _ _ _ _ _ _ _ _ _ _ Hlm P1) as (_ & Hlm1 & _).
    apply (bedrock_pass_inv _ _ _ _ _ _ _ _ _ _ _ _ _ Hlm1) in Hp2
      as (to_send2 & hs2 & fresh2 & json2 & ws2 & incs2 & a2 & u2 &
          P2 & Hj2 & Hn2 & Ht2 & Hws2 & He2 & Hs2 & ->).
    destruct (two_pass_store _ _ _ _ _ _ _ _ _ _ _ _ _ _ _ _ _ _ Hlm P1 P2)
      as (_ & _ & Hfinal & _ & _ & _ & _ & _ & _ & _ & _ & _ & Hkeep & _).
    assert (e = Exception_ "No HTML response found in AI response" ∧ w3 = w2) as [-> ->].
    { destruct (response_truthy r2); [done |]. by injection Hb as <- <-. }
    destruct He as [-> _].
    split; [done |]. right. right. exists a1, u1, a2, u2. split_and!; [done | done |].
    rewrite Hn2, Hn1, !length_app. cbn. lia.
  - apply bind_inv in Hloop as [([r1 fs1] & w1 & Hp1 & Hloop)|(e'' & Hp1 & _)].
    + apply bind_inv in Hloop as [([r2 fs2] & w2 & Hp2 & Hloop)|(e'' & Hp2 & _)]; [done |].
      apply (bedrock_pass_inv _ _ _ _ _ _ _ _ _ _ _ _ _ Hlm) in Hp1
        as (to_send1 & hs1 & fresh1 & json1 & ws1 & incs1 & a1 & u1 &
            P1 & Hj1 & Hn1 & Ht1 & Hws1 & He1 & Hs1 & ->).
      destruct (pass_store_facts _ _ _ _ _ _ _ _ _ _ _ Hlm P1)
        as (_ & Hlm1 & Ha1 & Hu1 & Hna1 & Hnu1 & _ & _ & _ & Hkeep & _).
      destruct (bedrock_pass_fails _ _ _ _ _ Hlm1 Hp2) as (Hsub & Hlen).
      split.
      * intros l o Hne Hl. eapply lookup_weaken; [|exact Hsub]. by apply Hkeep.
      * right. left. exists a1, u1, (concat_text incs1).
        split_and!; try (by eapply lookup_weaken); try done;
          rewrite Hn1, length_app in Hlen; cbn in Hlen; lia.
    + destruct (bedrock_pass_fails _ _ _ _ _ Hlm Hp1) as (Hsub & Hlen).
      split.
      * intros l o _ Hl. by eapply lookup_weaken.
      * left. split; [by eapply lookup_weaken | done].
Qed.
End bedrock_failure.

Lemma bedrock_orchestrator_failure_witness :
  (∀ l o, l ≠ 1%positive → heap (world_of draft_store) !! l = Some o →
     heap (stream_claude_response_native_aws_bedrock quiet_pprint second_request_denied
            "system" (VRef 1) "id" "secret" false (world_of draft_store)).2 !! l
     = Some o) ∧
  ((heap (stream_claude_response_native_aws_bedrock quiet_pprint second_request_denied
            "system" (VRef 1) "id" "secret" false (world_of draft_store)).2 !! 1%positive
    = Some (OList [VRef 2]) ∧
    length (net (world_of draft_store))
    ≤ length (net (stream_claude_response_native_aws_bedrock quiet_pprint second_request_denied
            "system" (VRef 1) "id" "secret" false (world_of draft_store)).2)
    ≤ length (net (world_of draft_store)) + 1) ∨
   (∃ a1 u1 t1,
      heap (stream_claude_response_native_aws_bedrock quiet_pprint second_request_denied
            "system" (VRef 1) "id" "secret" false (world_of draft_store)).2 !! 1%positive
      = Some (OList ([VRef 2] ++ [VRef a1; VRef u1])) ∧
      heap (stream_claude_response_native_aws_bedrock quiet_pprint second_request_denied
            "system" (VRef 1) "id" "secret" false (world_of draft_store)).2 !! a1
      = Some (assistant_turn t1) ∧
      heap (stream_claude_response_native_aws_bedrock quiet_pprint second_request_denied
            "system" (VRef 1) "id" "secret" false (world_of draft_store)).2 !! u1
      = Some user_turn ∧
      heap (world_of draft_store) !! a1 = None ∧ heap (world_of draft_store) !! u1 = None ∧
      length (net (world_of draft_store)) + 1
      ≤ length (net (stream_claude_response_native_aws_bedrock quiet_pprint second_request_denied
            "system" (VRef 1) "id" "secret" false (world_of draft_store)).2)
      ≤ length (net (world_of draft_store)) + 2) ∨
   (∃ a1 u1 a2 u2,
      heap (stream_claude_response_native_aws_bedrock quiet_pprint second_request_denied
            "system" (VRef 1) "id" "secret" false (world_of draft_store)).2 !! 1%positive
      = Some (OList ([VRef 2] ++ [VRef a1; VRef u1; VRef a2; VRef u2])) ∧
      (Ret None : outcome (option string))
      = Exc (Exception_ "No HTML response found in AI response") ∧
      length (net (stream_claude_response_native_aws_bedrock quiet_pprint second_request_denied
            "system" (VRef 1) "id" "secret" false (world_of draft_store)).2)
      = length (net (world_of draft_store)) + 2)).
Proof.
  apply (bedrock_orchestrator_failure quiet_pprint second_request_denied "system" 1%positive
           "id" "secret" false (world_of draft_store) (Ret None) _ [VRef 2]).
  - reflexivity.
  - vm_compute. reflexivity.
  - intros text Hr. discriminate Hr.
Defined.

(** ** The debug files of the native orchestrator *)

Lemma pprint_prompt_files pprint_prompt_text v w r w' :
  pprint_prompt pprint_prompt_text v w = (r, w') → files w' = files w.
Proof.
  unfold pprint_prompt, bind, get_heap, lift, print.
  destruct (pprint_prompt_text _ _); by intros [= <- <-].
Qed.

Section native_files.
Variable IS_DEBUG_ENABLED : bool.
Variable extract_html_content : string → string.
Variable pprint_prompt_text : gmap loc obj → val → outcome string.
Variable transport : world → outcome MessageStream.
Variable system_prompt : string.
Variable lm : loc.
Variable api_key : string.
Variable include_thinking : bool.
Variable model : Llm.

Lemma native_pass_files current_pass_num full_stream w response full_stream' w' current :
  heap w !! lm = Some (OList current) →
  native_pass IS_DEBUG_ENABLED extract_html_content pprint_prompt_text transport
    system_prompt (VRef lm) api_key include_thinking model current_pass_num full_stream w
  = (Ret (response, full_stream'), w') →
  ∃ t, head (content response) = Some (TextBlock t) ∧
    files w' = files w ++ debug_files IS_DEBUG_ENABLED extract_html_content
                            (current_pass_num - 1) t.
Proof.
  intros Hlm H. unfold native_pass in H.
  apply bind_ret_inv in H as (to_send & w1 & Hsend & H).
  apply (messages_to_send_inv _ _ _ _ _ _ Hlm) in Hsend as (fresh_objects & hs & Hout & ->).
  apply bind_ret_inv in H as ([] & w2 & Hpp & H).
  pose proof (pprint_prompt_files _ _ _ _ _ Hpp) as Hf2.
  apply pprint_prompt_quiet in Hpp as (Hh2 & _ & _). cbn [heap with_heap files] in *.
  unfold bind at 1, send at 1, bind at 1, ask at 1 in H.
  destruct (transport _) as [stream|e] eqn:Ht; [|done].
  apply bind_ret_inv in H as (fs1 & w3 & Hloop & H).
  apply for_stream_inv in Hloop as (r1 & Hloop & Hr1).
  rewrite native_pass_loop_run in Hloop. injection Hloop as <- <-.
  apply bind_ret_inv in H as (t & w4 & Ht1 & H).
  apply response_first_text_inv in Ht1 as [-> Ht1]. specialize (Ht1 _ eq_refl).
  apply bind_ret_inv in H as ([] & w4 & Hdbg & H).
  set (w3 := with_output _ _ _) in *.
  assert (Hf3 : files w3 = files w) by (by subst w3; cbn).
  assert (Hh3 : heap w3 = hs) by (by subst w3; cbn).
  clearbody w3.
  assert (files w4 = files w ++ debug_files IS_DEBUG_ENABLED extract_html_content
                                        (current_pass_num - 1) t ∧ heap w4 = hs) as [Hf4 Hh4].
  { unfold debug_files. destruct IS_DEBUG_ENABLED.
    - apply bind_ret_inv in Hdbg as ([] & w5 & Hw5 & Hdbg).
      apply bind_ret_inv in Hdbg as (thinking & w6 & [Hth ->]%lift_inv & Hdbg).
      unfold write_to_file in Hw5, Hdbg. injection Hw5 as <-. injection Hdbg as <-.
      cbn. rewrite Hf3, <-app_assoc. cbn. split; [|done]. do 3 f_equal.
      unfold py_index in Hth. by destruct (split "</thinking>" t !! 0); simplify_eq.
    - injection Hdbg as <-. by rewrite app_nil_r. }
  apply bind_ret_inv in H as (t' & w5 & Ht2 & H).
  apply response_first_text_inv in Ht2 as [-> _].
  assert (Hlm4 : heap w4 !! lm = Some (OList current)).
  { rewrite Hh4. by eapply outgoing_keeps. }
  destruct (append_next_pass_run lm current t' w4 Hlm4) as (a & u & Ha & Hu & Hau & Happ).
  rewrite (bind_run _ _ _ _ _ Happ) in H.
  unfold bind, print, ret in H. injection H as <- <- <-. by exists t.
Qed.

(** X16: the debug files.  With [IS_DEBUG_ENABLED] off, a native
    orchestrator call that returns has written no file.  With it on, it has
    written five, in this order: for pass 1 and then for pass 2 the HTML
    extracted from the text of the pass and the part of that text before
    ["</thinking>"], and at the end [full_stream.txt] with the concatenation
    of everything the sink received. *)
Theorem native_orchestrator_debug_files w text w' original :
  heap w !! lm = Some (OList original) →
  stream_claude_response_native IS_DEBUG_ENABLED extract_html_content pprint_prompt_text
    transport system_prompt (VRef lm) api_key include_thinking model w = (Ret text, w') →
  ∃ ws1 stream1 t1 delivered,
    length (net ws1) = length (net w) + 1 ∧ transport ws1 = Ret stream1 ∧
    head (content (final_message stream1)) = Some (TextBlock t1) ∧
    sink w' = sink w ++ (JStr <$> delivered) ∧
    files w' = files w ++
      if IS_DEBUG_ENABLED
      then [("pass_1.html", extract_html_content t1);
            ("thinking_pass_1.txt", default "" (split "</thinking>" t1 !! 0));
            ("pass_2.html", extract_html_content text);
            ("thinking_pass_2.txt", default "" (split "</thinking>" text !! 0));
            ("full_stream.txt", concat_text delivered)]
      else [].
Proof.
  intros Hlm H. unfold stream_claude_response_native in H. cbv zeta in H.
  change (max_passes + 1 - 1) with 2 in H. cbn [native_passes] in H.
  apply bind_ret_inv in H as ([response full] & w3 & Hloop & H).
  apply bind_ret_inv in Hloop as ([r1 fs1] & w1 & Hp1 & Hloop).
  apply bind_ret_inv in Hloop as ([r2 fs2] & w2 & Hp2 & Hloop).
  injection Hloop as <- <- <-. cbn [fst snd] in *.
  destruct (native_pass_files _ _ _ _ _ _ _ Hlm Hp1) as (t1' & Hr1 & Hf1).
  apply (native_pass_inv _ _ _ _ _ _ _ _ _ _ _ _ _ _ _ _ Hlm) in Hp1
    as (to_send1 & hs1 & fresh1 & ws1 & stream1 & t1 & a1 & u1 &
        P1 & Hn1 & Ht1 & Hws1 & -> & Hh1 & Hs1 & ->).
  rewrite Hh1 in Hr1. injection Hr1 as <-.
  destruct (pass_store_facts _ _ _ _ _ _ _ _ _ _ _ Hlm P1) as (_ & Hlm1 & _).
  destruct (native_pass_files _ _ _ _ _ _ _ Hlm1 Hp2) as (t2' & Hr2 & Hf2).
  apply (native_pass_inv _ _ _ _ _ _ _ _ _ _ _ _ _ _ _ _ Hlm1) in Hp2
    as (to_send2 & hs2 & fresh2 & ws2 & stream2 & t2 & a2 & u2 &
        P2 & Hn2 & Ht2 & Hws2 & -> & Hh2 & Hs2 & ->).
  rewrite Hh2 in Hr2. injection Hr2 as <-.
  apply bind_ret_inv in H as ([] & w4 & Hdbg & H).
  apply response_first_text_inv in H as [-> Htext]. specialize (Htext _ eq_refl).
  rewrite Hh2 in Htext. injection Htext as <-.
  exists ws1, stream1, t1, (items (text_stream stream1) ++ items (text_stream stream2)).
  split_and!; [| done | done | |].
  - rewrite Hws1, Hn1, length_app. cbn. lia.
  - assert (sink w4 = sink w2) as ->.
    { destruct IS_DEBUG_ENABLED; [|by injection Hdbg as <-].
      unfold write_to_file in Hdbg. by injection Hdbg as <-. }
    by rewrite Hs2, Hs1, fmap_app, app_assoc.
  - unfold debug_files in *. destruct IS_DEBUG_ENABLED.
    + unfold write_to_file in Hdbg. injection Hdbg as <-. cbn [files].
      rewrite Hf2, Hf1, <-!app_assoc. cbn. rewrite concat_text_app. done.
    + injection Hdbg as <-. by rewrite Hf2, Hf1, !app_nil_r.
Qed.
End native_files.

Lemma native_orchestrator_debug_files_witness :
  ∃ ws1 stream1 t1 delivered,
    length (net ws1) = length (net (world_of draft_store)) + 1 ∧
    two_pass_text_transport ws1 = Ret stream1 ∧
    head (content (final_message stream1)) = Some (TextBlock t1) ∧
    sink (stream_claude_response_native true (λ s, s) quiet_pprint two_pass_text_transport
            "system" (VRef 1) "key" false CLAUDE_3_OPUS (world_of draft_store)).2
    = sink (world_of draft_store) ++ (JStr <$> delivered) ∧
    files (stream_claude_response_native true (λ s, s) quiet_pprint two_pass_text_transport
             "system" (VRef 1) "key" false CLAUDE_3_OPUS (world_of draft_store)).2
    = files (world_of draft_store) ++
      [("pass_1.html", t1);
       ("thinking_pass_1.txt", default "" (split "</thinking>" t1 !! 0));
       ("pass_2.html", "B");
       ("thinking_pass_2.txt", default "" (split "</thinking>" "B" !! 0));
       ("full_stream.txt", concat_text delivered)].
Proof.
  apply (native_orchestrator_debug_files true (λ s, s) quiet_pprint two_pass_text_transport
           "system" 1%positive "key" false CLAUDE_3_OPUS (world_of draft_store) "B" _
           [VRef 2]).
  - reflexivity.
  - vm_compute. reflexivity.
Defined.

(** ** Streams that end badly *)

(** X17: the native-SDK call reads its result in the first content block
    of the final message.  When the stream has ended without a failure and
    that message has no content block the call raises [IndexError]; when its
    first block is not a text block it raises [AttributeError]; in both
    cases the sink has received every text of the stream. *)
Theorem native_final_message_without_text transport messages api_key w
    system_prompt claude_messages w1 stream :
  translate_messages messages w = (Ret (system_prompt, claude_messages), w1) →
  transport (sent_world w1 (AnthropicRequest api_key "claude-3-sonnet-20240229" 4096
                              (VFloat 0 (-1)) system_prompt claude_messages))
  = Ret stream →
  failure (text_stream stream) = None →
  (∀ t, head (content (final_message stream)) ≠ Some (TextBlock t)) →
  ∃ w', stream_claude_response transport messages api_key w
        = (Exc (if content (final_message stream) is [] then IndexError else AttributeError),
           w') ∧
        sink w' = sink w ++ (JStr <$> items (text_stream stream)).
Proof.
  intros Htr Ht Hfail Hhead.
  pose proof (translate_messages_step _ _ _ _ Htr) as [(Hsink & _) _].
  rewrite (stream_claude_response_run _ _ _ _ _ _ _ Htr). cbv zeta.
  change (Llm_value CLAUDE_3_SONNET) with "claude-3-sonnet-20240229". rewrite Ht, Hfail.
  eexists. split.
  - f_equal. destruct (content (final_message stream)) as [|[t|] blocks]; [done | | done].
    by destruct (Hhead t).
  - cbn. by rewrite Hsink.
Qed.

Lemma native_final_message_without_text_witness :
  ∃ w', stream_claude_response (text_transport ["Hi"] []) (VRef 1) "key"
          (world_of example_store)
        = (Exc IndexError, w') ∧
        sink w' = sink (world_of example_store) ++ (JStr <$> ["Hi"]).
Proof.
  apply (native_final_message_without_text (text_transport ["Hi"] []) (VRef 1) "key"
           (world_of example_store) (VStr "You are an expert.") (VRef 9)
           (translate_messages (VRef 1) (world_of example_store)).2
           (MkMessageStream (Stream ["Hi"] None) (MkMessage [] (MkUsage 0 0)))).
  - vm_compute. reflexivity.
  - reflexivity.
  - reflexivity.
  - intros t Ht. discriminate Ht.
Defined.

(** An event the managed-gateway loop gets through: it decodes, and the
    text of a content delta is a string. *)
Lemma bedrock_loop_run evs acc w :
  Forall (λ ev, event_decodes ev = true) evs →
  ∃ incs, omap event_text evs = JStr <$> incs ∧
    for_each evs bedrock_event_step acc w
    = (Ret (acc +:+ concat_text incs), with_output w (JStr <$> incs) []).
Proof.
  intros Hall. revert acc w. induction Hall as [|ev evs Hev _ IH]; intros acc w.
  - exists []. cbn. by rewrite append_nil_r, with_output_nil.
  - cbn [for_each]. rewrite event_texts_cons.
    unfold bind at 1, bedrock_event_step at 1, bind at 1, lift at 1.
    unfold event_decodes in Hev.
    destruct (decode_event ev) as [[[| | | |s| |]|]|e]; try done.
    + unfold bind at 1, callback at 1, lift, str_iadd.
      destruct (IH (acc +:+ s) (World (heap w) (sink w ++ [JStr s]) (stdout w) (net w) (files w)))
        as (incs & Hincs & Hrun).
      exists (s :: incs). rewrite Hincs. split; [done |].
      rewrite Hrun, concat_text_cons, append_assoc. f_equal.
      rewrite with_output_sink, with_output_app. done.
    + destruct (IH acc w) as (incs & Hincs & Hrun). exists incs. split; [done |].
      unfold ret at 1. by rewrite Hrun.
Qed.

(** X18: an event that cannot be decoded (no [bytes], bytes that are not
    JSON, no ["type"], a content delta without ["delta"] or ["text"]) ends
    the single-pass managed-gateway call with the exception it raises: the
    sink has received the texts of the events before it and nothing of the
    events after it, ["An error occurred!"] is printed, and the text
    accumulated so far is not returned. *)
Theorem bedrock_event_failure transport messages access_key secret_access_key w
    system_prompt claude_messages w1 request_body response stream earlier bad later e :
  translate_messages messages w = (Ret (system_prompt, claude_messages), w1) →
  bedrock_body 4096 claude_messages system_prompt (VFloat 0 (-1)) w1
  = (Ret request_body, w1) →
  transport (sent_world w1 (BedrockRequest access_key secret_access_key request_body
                              "anthropic.claude-3-sonnet-20240229-v1:0" "*/*"
                              "application/json"))
  = Ret response →
  body response = Some stream →
  items stream = earlier ++ bad :: later →
  Forall (λ ev, event_decodes ev = true) earlier →
  decode_event bad = Exc e →
  (∀ message, e ≠ ClientError message) →
  ∃ w', stream_claude_response_aws_bedrock transport messages access_key secret_access_key w
        = (Exc e, w') ∧
        sink w' = sink w ++ omap event_text earlier ∧
        stdout w' = stdout w ++ ["An error occurred!"].
Proof.
  intros Htr Hbody Ht Hb Hitems Hearlier Hbad Hne.
  pose proof (translate_messages_step _ _ _ _ Htr) as [(Hsink & Hout & _) _].
  unfold stream_claude_response_aws_bedrock, try_except. cbv zeta.
  rewrite (bind_run _ _ _ _ _ Htr). cbn [fst snd].
  rewrite (bind_run _ _ _ _ _ Hbody).
  unfold bind at 1, send at 1.
  fold (sent_world w1 (BedrockRequest access_key secret_access_key request_body
                         "anthropic.claude-3-sonnet-20240229-v1:0" "*/*" "application/json")).
  unfold bind at 1, ask at 1. rewrite Ht, Hb.
  unfold bind at 1, for_stream at 1, bind at 1. rewrite Hitems, for_each_app.
  destruct (bedrock_loop_run earlier "" (sent_world w1 (BedrockRequest access_key
              secret_access_key request_body "anthropic.claude-3-sonnet-20240229-v1:0"
              "*/*" "application/json")) Hearlier) as (incs & Hincs & ->).
  cbn [for_each]. unfold bind at 1, bedrock_event_step at 1, bind at 1, lift at 1.
  rewrite Hbad.
  destruct (bedrock_except e _) as [r w'] eqn:He.
  apply bedrock_except_inv in He as (_ & Hs' & _ & _ & He).
  exists w'. assert (r = Exc e ∧ stdout w' = stdout w ++ ["An error occurred!"]) as [-> ->].
  { destruct e as [m| | | | | | | |]; try (destruct He as [-> ->]; split; [done |];
      cbn; by rewrite Hout, app_nil_r). by destruct (Hne m). }
  split_and!; [done | | done]. rewrite Hs', Hincs. cbn. by rewrite Hsink.
Qed.

Lemma bedrock_event_failure_witness :
  ∃ w', stream_claude_response_aws_bedrock
          (event_transport [delta_event "<h"; Chunk None; delta_event "tml>"])
          (VRef 1) "id" "secret" (world_of example_store)
        = (Exc AttributeError, w') ∧
        sink w' = sink (world_of example_store) ++ omap event_text [delta_event "<h"] ∧
        stdout w' = stdout (world_of example_store) ++ ["An error occurred!"].
Proof.
  apply (bedrock_event_failure
           (event_transport [delta_event "<h"; Chunk None; delta_event "tml>"])
           (VRef 1) "id" "secret" (world_of example_store)
           (VStr "You are an expert.") (VRef 9)
           (translate_messages (VRef 1) (world_of example_store)).2
           (JObj [("anthropic_version", JStr "bedrock-2023-05-31");
                  ("max_tokens", JInt 4096);
                  ("messages",
                   JList [JObj [("role", JStr "user");
                                ("content",
                                 JList [JObj [("type", JStr "text");
                                              ("text", JStr "Build this page.")];
                                        JObj [("type", JStr "image");
                                              ("source",
                                               JObj [("type", JStr "base64");
                                                     ("media_type", JStr "image/png");
                                                     ("data", JStr "AAAA")])]])]]);
                  ("system", JStr "You are an expert.");
                  ("temperature", JFloat 0 (-1))])
           (MkBedrockResponse
              (Some (Stream [delta_event "<h"; Chunk None; delta_event "tml>"] None)) true)
           (Stream [delta_event "<h"; Chunk None; delta_event "tml>"] None)
           [delta_event "<h"] (Chunk None) [delta_event "tml>"] AttributeError).
  - vm_compute. reflexivity.
  - vm_compute. reflexivity.
  - reflexivity.
  - reflexivity.
  - reflexivity.
  - repeat constructor.
  - reflexivity.
  - intros message Hm. discriminate Hm.
Defined.

(** * The translation completes on a well-formed conversation *)

Lemma well_formed_data_url_parse url media_type payload :
  well_formed_data_url url media_type payload →
  parse_data_url (VStr url) = Ret (media_type, payload).
Proof. intros (-> & ? & ? & ? & ?). by apply parse_data_url_well_formed. Qed.

Lemma well_formed_has_comma url media_type payload :
  well_formed_data_url url media_type payload → contains_char "," url = true.
Proof.
  intros (-> & _). rewrite !contains_char_append. cbn. by rewrite !orb_true_r.
Qed.

(** ** Stores reached by visits that completed *)

Lemma translated_refl h : translated h h.
Proof. intros l o Hl. by left. Qed.

Lemma translated_trans h1 h2 h3 : translated h1 h2 → translated h2 h3 → translated h1 h3.
Proof.
  intros H12 H23 l o Hl.
  destruct (H12 _ _ Hl) as [H2|(d & s & u & mt & data & -> & Hty & Hu & H2 & Hs2)];
    [by apply H23 |].
  right. exists d, s, u, mt, data. split_and!; [done..| |].
  - destruct (H23 _ _ H2) as [?|(d0 & s0 & u0 & mt0 & data0 & [= <-] & Hty0 & _)]; [done |].
    by rewrite rewritten_type in Hty0.
  - by destruct (H23 _ _ Hs2) as [?|(d0 & s0 & u0 & mt0 & data0 & [= <-] & Hty0 & _)].
Qed.

Lemma translated_subseteq (h h' : gmap loc obj) : h ⊆ h' → translated h h'.
Proof. intros Hsub l o Hl. left. by eapply lookup_weaken. Qed.

Lemma translated_image_rewrites h h' : translated h h' → image_rewrites h h'.
Proof.
  intros H l o Hl.
  destruct (H _ _ Hl) as [?|(d & s & u & mt & data & -> & Hty & Hu & Hl' & Hs)]; [by left |].
  right. exists d, (rewritten d s). split_and!; [done | done | done | apply rewritten_type |].
  intros. by apply rewritten_other.
Qed.

Lemma translate_part_translated q w w' :
  translate_part q w = (Ret tt, w') → translated (heap w) (heap w').
Proof.
  intros H. apply translate_part_cases in H as [_ [[-> _]|(p & dp & -> & Hp & Hty & H)]];
    [apply translated_refl |].
  destruct H as [[[e [=]] _]|(u & du & urlv & mt & data & s & _ & Hu & _ & _ & _ & Hs & ->)].
  intros l o Hl. destruct (decide (l = p)) as [->|Hne].
  - right. rewrite Hp in Hl. injection Hl as <-. exists dp, s, u, mt, data.
    split_and!; [done | done | done | apply lookup_insert_eq |].
    rewrite lookup_insert_ne by congruence. apply lookup_insert_eq.
  - left. rewrite !lookup_insert_ne; [done | congruence | done].
Qed.

(** ** What a translatable part and a translatable message keep *)

Lemma part_translatable_kept h h' q :
  image_rewrites h h' → part_translatable h q → part_translatable h' q.
Proof.
  intros H [Hs|(p & dp & u & du & url & mt & payload & -> & Hp & Hty & Hu & Hdu & Hurl & Hwf)].
  { left. by eapply part_settled_kept. }
  destruct (H _ _ Hp) as [Hp'|(d0 & d' & [= <-] & _ & Hp' & Hty' & _)].
  - right. exists p, dp, u.
    destruct (H _ _ Hdu) as [Hu'|(d0 & d' & [= <-] & _ & Hu' & _ & Hk)].
    + by exists du, url, mt, payload.
    + exists d', url, mt, payload. split_and!; [done..| |done].
      rewrite Hk; [done |]. unfold rewritten_key. naive_solver.
  - left. exists p, d', (VStr "image"). done.
Qed.

Lemma message_translatable_kept h h' m :
  image_rewrites h h' → message_translatable h m → message_translatable h' m.
Proof.
  intros H (l & d & v & -> & Hl & Hc & Hv & Hparts).
  destruct (image_rewrites_dict _ _ _ _ H Hl) as (d' & Hl' & Hc').
  exists l, d', v. split_and!; [done | done | congruence | by eapply image_rewrites_allocated |].
  intros lv parts -> Hlv.
  rewrite allocated_spec in Hv.
  apply (image_rewrites_list_back _ _ _ _ H (Hv _ eq_refl)) in Hlv.
  eapply Forall_impl; [by eapply Hparts |]. intros q. by apply part_translatable_kept.
Qed.

Lemma translatable_of_same_dict h m c l lc d :
  m = VRef l → c = VRef lc → h !! l = Some (ODict d) → h !! lc = Some (ODict d) →
  message_translatable h m → message_translatable h c.
Proof.
  intros -> -> Hl Hlc (l' & d' & v & [= <-] & Hl' & Hc & Hv & Hparts).
  rewrite Hl in Hl'. injection Hl' as <-. by exists lc, d, v.
Qed.

Lemma message_translatable_dict h m :
  message_translatable h m → ∃ l d, m = VRef l ∧ h !! l = Some (ODict d).
Proof. intros (l & d & v & -> & Hl & _). eauto. Qed.

(** ** Visits that complete *)

Lemma translate_part_total q w :
  part_translatable (heap w) q →
  ∃ w', translate_part q w = (Ret tt, w').
Proof.
  intros [Hs|(p & dp & u & du & url & mt & payload & -> & Hp & Hty & Hu & Hdu & Hurl & Hwf)].
  { exists w. by apply translate_part_settled_run. }
  destruct (translate_part_run _ _ _ _ _ _ Hp Hty Hu Hdu Hurl) as (s & Hs & Hrun).
  rewrite (well_formed_data_url_parse _ _ _ Hwf) in Hrun. by eexists.
Qed.

(** A loop whose every visit completes, completes. *)
Lemma for_each_total {A} (R : world → world → Prop) (Pre : A → world → Prop)
    (body : A → unit → M unit) xs :
  (∀ w, R w w) → (∀ w1 w2 w3, R w1 w2 → R w2 w3 → R w1 w3) →
  (∀ x w, Pre x w → ∃ w', body x tt w = (Ret tt, w') ∧ R w w') →
  (∀ x w w', Pre x w → R w w' → Pre x w') →
  ∀ w, Forall (λ x, Pre x w) xs →
    ∃ w', for_each xs body tt w = (Ret tt, w') ∧ R w w'.
Proof.
  intros Hrefl Htrans Hbody Hpre. induction xs as [|x xs IH]; intros w Hall.
  - exists w. split; [done | apply Hrefl].
  - apply Forall_cons in Hall as [Hx Hall].
    destruct (Hbody _ _ Hx) as (w1 & Hrun & HR1).
    destruct (IH w1) as (w' & Hrest & HR2).
    { eapply Forall_impl; [exact Hall |]. intros y Hy. cbn in Hy. by eapply Hpre. }
    exists w'. split; [|by eapply Htrans].
    cbn [for_each]. by rewrite (bind_run _ _ _ _ _ Hrun).
Qed.

Lemma visits_refl w : visits w w.
Proof. split; [apply same_io_refl | apply translated_refl]. Qed.

Lemma visits_trans w1 w2 w3 : visits w1 w2 → visits w2 w3 → visits w1 w3.
Proof.
  intros [? ?] [? ?]. split; [by eapply same_io_trans | by eapply translated_trans].
Qed.

Lemma visits_image_rewrites w w' : visits w w' → image_rewrites (heap w) (heap w').
Proof. intros [_ ?]. by apply translated_image_rewrites. Qed.

Lemma translate_part_visits q w :
  part_translatable (heap w) q → ∃ w', translate_part q w = (Ret tt, w') ∧ visits w w'.
Proof.
  intros Hq. destruct (translate_part_total _ _ Hq) as (w' & Hrun). exists w'.
  split; [done |]. split.
  - by apply translate_part_step in Hrun as [? _].
  - by eapply translate_part_translated.
Qed.

Lemma translate_message_visits c w :
  message_translatable (heap w) c →
  ∃ w', translate_message c w = (Ret tt, w') ∧ visits w w'.
Proof.
  intros (l & d & v & -> & Hl & Hc & Hv & Hparts). unfold translate_message.
  rewrite (bind_run _ _ _ _ _ (getitem_some _ _ _ _ _ Hl Hc)).
  unfold bind at 1, get_heap at 1.
  destruct (is_list (heap w) v) eqn:Hlist; [|exists w; split; [done | apply visits_refl]].
  destruct v as [| | | | |lv]; try done. cbn in Hlist.
  destruct (heap w !! lv) as [[|parts]|] eqn:Hlv; try done.
  rewrite (bind_run _ _ _ _ _ (list_elems_list _ _ _ Hlv)).
  apply (for_each_total visits (λ q w, part_translatable (heap w) q)).
  - apply visits_refl.
  - apply visits_trans.
  - intros. by apply translate_part_visits.
  - intros q w1 w2 Hq HR. eapply part_translatable_kept; [|done]. by apply visits_image_rewrites.
  - by eapply Hparts.
Qed.

Lemma messages_loop_visits copies w :
  Forall (message_translatable (heap w)) copies →
  ∃ w', for_each copies (λ message (_ : unit), translate_message message) tt w = (Ret tt, w') ∧
        visits w w'.
Proof.
  apply (for_each_total visits (λ c w, message_translatable (heap w) c)).
  - apply visits_refl.
  - apply visits_trans.
  - intros. by apply translate_message_visits.
  - intros c w1 w2 Hc HR. eapply message_translatable_kept; [|done].
    by apply visits_image_rewrites.
Qed.

(** The copies of translatable messages are translatable. *)
Lemma copies_translatable xs w copies wc h :
  copy_all xs w = (Ret copies, wc) →
  heap wc ⊆ h →
  Forall (message_translatable (heap w)) xs →
  Forall (message_translatable h) copies.
Proof.
  intros Hcopies Hsub Hall.
  pose proof (copy_all_spec _ _ _ _ Hcopies) as (_ & Hsubc & _).
  pose proof (copy_all_dicts _ _ _ _ Hcopies) as Hdicts.
  apply Forall_forall. intros c Hc.
  apply list_elem_of_lookup in Hc as [i Hi].
  destruct (Forall2_lookup_r _ _ _ _ _ Hdicts Hi) as (m & Hm & l & lc' & d & -> & -> & Hl & Hlc').
  apply (translatable_of_same_dict _ (VRef l) _ l lc' d); [done | done | | |].
  - by eapply lookup_weaken.
  - by eapply lookup_weaken.
  - eapply (message_translatable_kept (heap w)).
    + apply image_rewrites_subseteq. by etrans.
    + rewrite Forall_forall in Hall. apply Hall. by eapply list_elem_of_lookup_2.
Qed.

(** The translation of a well-formed conversation completes. *)
Lemma translate_messages_total lm ms lf df w :
  heap w !! lm = Some (OList ms) →
  ms !! 0 = Some (VRef lf) →
  heap w !! lf = Some (ODict df) →
  Forall (message_translatable (heap w)) (tail ms) →
  ∃ copies wc lc w1,
    copy_all (tail ms) w = (Ret copies, wc) ∧
    heap wc !! lc = None ∧
    translate_messages (VRef lm) w
    = (Ret (default VNone (dict_get "content" df), VRef lc), w1) ∧
    visits (with_heap wc (<[lc := OList copies]> (heap wc))) w1.
Proof.
  intros Hlm Hfirst Hlf Hall.
  destruct (copy_all_run (tail ms) w) as (copies & wc & Hcopies).
  { eapply Forall_impl; [exact Hall |]. apply message_translatable_dict. }
  destruct (alloc_run (OList copies) wc) as (lc & Hlc & Halloc).
  set (w0 := with_heap wc (<[lc := OList copies]> (heap wc))) in *.
  destruct (messages_loop_visits copies w0) as (w1 & Hloop & HR).
  { eapply copies_translatable; [done | | done]. by apply insert_subseteq. }
  exists copies, wc, lc, w1. split_and!; [done | done | | done].
  unfold translate_messages.
  rewrite (bind_run _ _ _ _ _ (list_elems_list _ _ _ Hlm)).
  unfold bind at 1, lift at 1, py_index. rewrite Hfirst.
  unfold bind at 1, dict_method_get at 1. rewrite Hlf.
  rewrite (bind_run _ _ _ _ _ Hcopies), (bind_run _ _ _ _ _ Halloc).
  by rewrite (bind_run _ _ _ _ _ Hloop).
Qed.

(** * [json.dumps] succeeds on a tree *)

Lemma forallb_elem {A} (f : A → bool) (l : list A) :
  forallb f l = true ↔ ∀ x, x ∈ l → f x = true.
Proof.
  induction l as [|a l IH]; cbn.
  - split; [by intros _ x ?%elem_of_nil | done].
  - rewrite andb_true_iff, IH. split.
    + intros [Ha Hl] x [->|?]%elem_of_cons; auto.
    + intros H. split; [apply H, list_elem_of_here |].
      intros x Hx. by apply H, list_elem_of_further.
Qed.

Lemma serialisable_ref n h l :
  serialisable n h (VRef l) = true →
  ∃ n' o, n = S n' ∧ h !! l = Some o ∧ ∀ x, x ∈ held o → serialisable n' h x = true.
Proof.
  destruct n as [|n']; [done |]. cbn. destruct (h !! l) as [o|]; [|done].
  intros H. exists n', o. split_and!; [done..|]. by apply forallb_elem.
Qed.

Lemma serialisable_ref_intro n h l o :
  h !! l = Some o → (∀ x, x ∈ held o → serialisable n h x = true) →
  serialisable (S n) h (VRef l) = true.
Proof. intros Hl H. cbn. rewrite Hl. by apply forallb_elem. Qed.

Lemma serialisable_immediate n h v : (∀ l, v ≠ VRef l) → serialisable n h v = true.
Proof. destruct n, v; try done; intros H; by destruct (H l). Qed.

Lemma held_dict_set {V} k (v : V) d x : x ∈ (dict_set k v d).*2 → x = v ∨ x ∈ d.*2.
Proof.
  induction d as [|[k' v'] d IH]; cbn.
  - intros [->|?%elem_of_nil]%elem_of_cons; [by left | done].
  - destruct (String.eqb k k'); cbn.
    + intros [->|?]%elem_of_cons; [by left |]. right. by apply list_elem_of_further.
    + intros [->|?]%elem_of_cons; [right; apply list_elem_of_here |].
      destruct IH as [?|?]; [done | by left |]. right. by apply list_elem_of_further.
Qed.

Lemma held_dict_del {V} k (d : list (string * V)) x : x ∈ (dict_del k d).*2 → x ∈ d.*2.
Proof.
  induction d as [|[k' v'] d IH]; cbn; [done |].
  destruct (String.eqb k k'); cbn.
  - intros. by apply list_elem_of_further, IH.
  - intros [->|?]%elem_of_cons; [apply list_elem_of_here |]. by apply list_elem_of_further, IH.
Qed.

Lemma held_rewritten d s x :
  x ∈ (rewritten d s).*2 → x = VStr "image" ∨ x = VRef s ∨ x ∈ d.*2.
Proof.
  unfold rewritten, retyped. intros [->|H]%held_dict_set; [by right; left |].
  apply held_dict_del, held_dict_set in H as [->|?]; [by left | by right; right].
Qed.

(** A tree stays a tree when image parts below it are rewritten. *)
Lemma serialisable_translated n h h' v :
  translated h h' → serialisable n h v = true → serialisable n h' v = true.
Proof.
  intros Htr. revert v. induction n as [|n IH]; intros v; [by destruct v; cbn |].
  destruct v as [| | | | |l]; try done. intros Hv.
  apply serialisable_ref in Hv as (n' & o & [= <-] & Hl & Hheld).
  destruct (Htr _ _ Hl) as [Hl'|(d & s & u & mt & data & -> & Hty & Hu & Hl' & Hs)].
  - eapply serialisable_ref_intro; [done |]. intros x Hx. by apply IH, Hheld.
  - eapply serialisable_ref_intro; [done |]. intros x Hx. cbn in Hx.
    apply held_rewritten in Hx as [->|[->|Hx]].
    + by destruct n.
    + (* the image part held a reference, so there is room below it *)
      assert (serialisable n h (VRef u) = true) as Hn.
      { apply Hheld. cbn. by eapply dict_get_held. }
      destruct n as [|n']; [done |]. eapply serialisable_ref_intro; [exact Hs |].
      intros x [->|[->|[->|?%elem_of_nil]%elem_of_cons]%elem_of_cons]%elem_of_cons;
        by apply serialisable_immediate.
    + by apply IH, Hheld.
Qed.

Lemma serialisable_child n h l l' :
  serialisable n h (VRef l) = true → child h l l' →
  ∃ n', n = S n' ∧ serialisable n' h (VRef l') = true.
Proof.
  intros (n' & o & -> & Hl & Hheld)%serialisable_ref (o' & Hl' & Hin).
  rewrite Hl in Hl'. injection Hl' as <-. exists n'. split; [done |]. by apply Hheld.
Qed.

Lemma serialisable_reach n h l l' :
  tc (child h) l l' → serialisable n h (VRef l) = true →
  ∃ n', n' < n ∧ serialisable n' h (VRef l') = true.
Proof.
  intros Htc. revert n. induction Htc as [l l' Hc|l c l' Hc _ IH]; intros n Hn.
  - destruct (serialisable_child _ _ _ _ Hn Hc) as (n' & -> & Hn'). exists n'. split; [lia | done].
  - destruct (serialisable_child _ _ _ _ Hn Hc) as (n0 & -> & Hn0).
    destruct (IH _ Hn0) as (n' & Hlt & Hn'). exists n'. split; [lia | done].
Qed.

(** No object of a tree is held below itself. *)
Lemma serialisable_no_cycle n h l :
  serialisable n h (VRef l) = true → ¬ tc (child h) l l.
Proof.
  induction (lt_wf n) as [n _ IH]. intros Hn Htc.
  destruct (serialisable_reach _ _ _ _ Htc Hn) as (n' & Hlt & Hn').
  by eapply IH.
Qed.

Lemma dumps_elems_ok rec vs :
  (∀ v, v ∈ vs → ∃ j, rec v = Some (Ret j)) → ∃ js, dumps_elems rec vs = Some (Ret js).
Proof.
  induction vs as [|v vs IH]; intros H; [by eexists |].
  destruct (H v) as [j Hj]; [apply list_elem_of_here |].
  destruct IH as [js Hjs]; [intros; by apply H, list_elem_of_further |].
  cbn [dumps_elems]. rewrite Hj, Hjs. by eexists.
Qed.

Lemma dumps_items_ok rec d :
  (∀ v, v ∈ d.*2 → ∃ j, rec v = Some (Ret j)) → ∃ kjs, dumps_items rec d = Some (Ret kjs).
Proof.
  induction d as [|[k v] d IH]; intros H; [by eexists |].
  destruct (H v) as [j Hj]; [apply list_elem_of_here |].
  destruct IH as [js Hjs]; [intros; by apply H, list_elem_of_further |].
  cbn [dumps_items]. rewrite Hj, Hjs. by eexists.
Qed.

Lemma dumps_aux_ok fuel h : ∀ n seen v,
  serialisable n h v = true →
  NoDup seen → (∀ s, s ∈ seen → is_Some (h !! s)) →
  size h < fuel + length seen →
  (∀ l s, v = VRef l → s ∈ seen → tc (child h) s l) →
  ∃ j, dumps_aux fuel h seen v = Some (Ret j).
Proof.
  induction fuel as [|fuel IH]; intros n seen v Hv Hnd Hseen Hfuel Hanc.
  { pose proof (allocated_bound h seen Hnd Hseen). lia. }
  cbn [dumps_aux]. destruct v as [| | | | |l]; try by eexists.
  rewrite bool_decide_eq_false_2.
  2:{ intros Hin. eapply serialisable_no_cycle; [exact Hv |]. by eapply Hanc. }
  assert (Hnotin : l ∉ seen).
  { intros Hin. eapply serialisable_no_cycle; [exact Hv |]. by eapply Hanc. }
  apply serialisable_ref in Hv as (n' & o & -> & Hl & Hheld). rewrite Hl.
  assert (Hrec : ∀ x, x ∈ held o → ∃ j, dumps_aux fuel h (l :: seen) x = Some (Ret j)).
  { intros x Hx. apply (IH n').
    - by apply Hheld.
    - by constructor.
    - intros s [->|?]%elem_of_cons; [by eexists | by apply Hseen].
    - cbn. lia.
    - intros l' s -> [->|Hs]%elem_of_cons.
      + apply tc_once. by exists o.
      + eapply tc_r; [by eapply Hanc |]. by exists o. }
  destruct o as [d|vs].
  - destruct (dumps_items_ok _ d Hrec) as [kjs ->]. by eexists.
  - destruct (dumps_elems_ok _ vs Hrec) as [js ->]. by eexists.
Qed.

Lemma json_dumps_ok n h v : serialisable n h v = true → ∃ j, json_dumps h v = Ret j.
Proof.
  intros Hv. unfold json_dumps.
  destruct (dumps_aux_ok (S (size h)) h n [] v) as [j ->]; [done | constructor | | | |by eexists].
  - by intros s ?%elem_of_nil.
  - cbn. lia.
  - by intros l s _ ?%elem_of_nil.
Qed.

(** * The request of a well-formed conversation *)

Section well_formed_conversation.
Variable w : world.
Variable lm : loc.
Variable ms : list val.
Variable lf : loc.
Variable df : list (string * val).
Hypothesis Hlm : heap w !! lm = Some (OList ms).
Hypothesis Hfirst : ms !! 0 = Some (VRef lf).
Hypothesis Hlf : heap w !! lf = Some (ODict df).
Hypothesis Hall : Forall (message_translatable (heap w)) (tail ms).

(** The translation completes, without an effect outside the store, and
    its result has the turns of the conversation. *)
Lemma translation_completes :
  ∃ lc copies w1,
    translate_messages (VRef lm) w
    = (Ret (default VNone (dict_get "content" df), VRef lc), w1) ∧
    same_io w w1 ∧
    heap w !! lc = None ∧ heap w1 !! lc = Some (OList copies) ∧
    length copies = length ms - 1 ∧
    Forall2 (turn_of (heap w) (heap w1)) (tail ms) copies.
Proof.
  destruct (translate_messages_total _ _ _ _ _ Hlm Hfirst Hlf Hall)
    as (copies0 & wc & lc & w1 & _ & _ & Htr & _).
  pose proof (translate_messages_step _ _ _ _ Htr) as [Hio _].
  destruct (translate_messages_turns _ _ _ _ _ _ _ _ _ Htr eq_refl Hlm Hfirst Hlf)
    as (_ & lc' & copies & [= <-] & Hlc & Hlc1 & Hlen & Hturns).
  by exists lc, copies, w1.
Qed.

(** The native-SDK call issues its request, whatever the transport does
    with it. *)
Lemma native_request_issued transport api_key :
  ∃ lc copies hs,
    net (stream_claude_response transport (VRef lm) api_key w).2
    = net w ++
      [Sent (AnthropicRequest api_key "claude-3-sonnet-20240229" 4096 (VFloat 0 (-1))
               (default VNone (dict_get "content" df)) (VRef lc)) hs] ∧
    hs = heap (stream_claude_response transport (VRef lm) api_key w).2 ∧
    hs = heap (translate_messages (VRef lm) w).2 ∧
    hs !! lc = Some (OList copies) ∧
    length copies = length ms - 1 ∧
    Forall2 (turn_of (heap w) hs) (tail ms) copies.
Proof.
  destruct translation_completes as (lc & copies & w1 & Htr & Hio & Hlc & Hlc1 & Hlen & Hturns).
  destruct Hio as (_ & _ & Hnet & _).
  exists lc, copies, (heap w1). rewrite Htr.
  rewrite (stream_claude_response_run _ _ _ _ _ _ _ Htr). cbv zeta.
  split_and!; [|  |done..]; destruct (transport _); cbn; by rewrite ?Hnet.
Qed.

(** With a conversation that is a tree, the request body can be
    serialised. *)
Lemma translated_store_serialisable n :
  serialisable n (heap w) (VRef lm) = true →
  ∃ lc w1 n1 n2,
    translate_messages (VRef lm) w
    = (Ret (default VNone (dict_get "content" df), VRef lc), w1) ∧
    serialisable n1 (heap w1) (VRef lc) = true ∧
    serialisable n2 (heap w1) (default VNone (dict_get "content" df)) = true.
Proof.
  intros Hser.
  destruct (translate_messages_total _ _ _ _ _ Hlm Hfirst Hlf Hall)
    as (copies & wc & lc & w1 & Hcopies & Hlc & Htr & [_ Hvisits]).
  cbn [heap with_heap] in Hvisits.
  pose proof (copy_all_spec _ _ _ _ Hcopies) as (_ & Hsub & _).
  pose proof (copy_all_dicts _ _ _ _ Hcopies) as Hdicts.
  apply serialisable_ref in Hser as (n1 & o & -> & Hlm' & Hheld).
  rewrite Hlm in Hlm'. injection Hlm' as <-. cbn [held] in Hheld.
  assert (Hsub0 : heap wc ⊆ <[lc := OList copies]> (heap wc)) by (by apply insert_subseteq).
  exists lc, w1, (S n1), (pred n1). split_and!; [done | |].
  - apply (serialisable_translated _ _ _ _ Hvisits).
    eapply serialisable_ref_intro; [apply lookup_insert_eq |].
    intros c Hc. cbn [held] in Hc.
    apply list_elem_of_lookup in Hc as [i Hi].
    destruct (Forall2_lookup_r _ _ _ _ _ Hdicts Hi)
      as (m & Hm & l & lc' & d & -> & -> & Hl & Hlc').
    assert (Hin : VRef l ∈ ms).
    { destruct ms as [|m0 ms']; [done |]. apply list_elem_of_further.
      by eapply list_elem_of_lookup_2. }
    apply (serialisable_translated _ (heap wc)); [by apply translated_subseteq |].
    pose proof (Hheld _ Hin) as Hm1.
    apply (serialisable_translated _ _ (heap wc)) in Hm1; [|by apply translated_subseteq].
    apply serialisable_ref in Hm1 as (n2 & o & -> & Hl' & Hheld').
    rewrite Hl in Hl'. injection Hl' as <-.
    by eapply serialisable_ref_intro.
  - apply (serialisable_translated _ _ _ _ Hvisits).
    apply (serialisable_translated _ (heap w)).
    { apply translated_subseteq. by etrans. }
    assert (Hin : VRef lf ∈ ms) by (by eapply list_elem_of_lookup_2).
    pose proof (Hheld _ Hin) as Hf.
    apply serialisable_ref in Hf as (n2 & o & -> & Hlf' & Hheld').
    rewrite Hlf in Hlf'. injection Hlf' as <-. cbn [pred].
    destruct (dict_get "content" df) as [v|] eqn:Hc; cbn [default].
    + apply Hheld'. cbn. by eapply dict_get_held.
    + by destruct n2.
Qed.
(** The managed-gateway call issues its request too, when the conversation
    is a tree. *)
Lemma bedrock_request_issued n transport access_key secret_access_key :
  serialisable n (heap w) (VRef lm) = true →
  ∃ lc copies turns system_json hs,
    net (stream_claude_response_aws_bedrock transport (VRef lm) access_key
           secret_access_key w).2
    = net w ++
      [Sent (BedrockRequest access_key secret_access_key
               (JObj [("anthropic_version", JStr "bedrock-2023-05-31");
                      ("max_tokens", JInt 4096);
                      ("messages", JList turns);
                      ("system", system_json);
                      ("temperature", JFloat 0 (-1))])
               "anthropic.claude-3-sonnet-20240229-v1:0" "*/*" "application/json") hs] ∧
    hs = heap (stream_claude_response_aws_bedrock transport (VRef lm) access_key
                 secret_access_key w).2 ∧
    hs = heap (translate_messages (VRef lm) w).2 ∧
    json_dumps hs (default VNone (dict_get "content" df)) = Ret system_json ∧
    hs !! lc = Some (OList copies) ∧
    json_dumps hs (VRef lc) = Ret (JList turns) ∧
    length turns = length ms - 1 ∧
    Forall2 (turn_of (heap w) hs) (tail ms) copies.
Proof.
  intros Hser.
  destruct (translated_store_serialisable n Hser) as (lc & w1 & n1 & n2 & Htr & Hs1 & Hs2).
  destruct (json_dumps_ok _ _ _ Hs1) as [mj Hmj].
  destruct (json_dumps_ok _ _ _ Hs2) as [sj Hsj].
  pose proof (translate_messages_step _ _ _ _ Htr) as [(_ & _ & Hnet & _) _].
  destruct (stream_claude_response_aws_bedrock transport (VRef lm) access_key
              secret_access_key w) as [r w'] eqn:Hrun.
  pose proof (bedrock_keeps_translated_store _ _ _ _ _ _ _ _ _ Htr Hrun) as Hheap.
  assert (Hexact : ∃ request_body,
            net w' = net w ++
              [Sent (BedrockRequest access_key secret_access_key request_body
                       "anthropic.claude-3-sonnet-20240229-v1:0" "*/*" "application/json")
                 (heap w1)]).
  { pose proof Hrun as Hrun'.
    apply stream_claude_response_aws_bedrock_inv in Hrun'
      as [(e & w2 & Htr' & _)|(sys & cm & w2 & Htr' & Hrest)]; [congruence |].
    rewrite Htr in Htr'. injection Htr' as <- <- <-.
    assert (Hbody : ∃ request_body,
              bedrock_body 4096 (VRef lc) (default VNone (dict_get "content" df))
                (VFloat 0 (-1)) w1 = (Ret request_body, w1)).
    { unfold bedrock_body, bind, get_heap, lift, ret. rewrite Hmj, Hsj. by eexists. }
    destruct Hbody as [request_body Hbody].
    destruct Hrest as [(e & Hbody' & _)|(request_body' & _ & Hrest)]; [congruence |].
    exists request_body'.
    cbv zeta in Hrest. destruct (transport _) as [response|e].
    - destruct Hrest as (k & wl & -> & [[e He]|(incs & _ & -> & _)]).
      + apply bedrock_except_inv in He as (_ & _ & -> & _). cbn. by rewrite Hnet.
      + cbn. by rewrite Hnet.
    - apply bedrock_except_inv in Hrest as (_ & _ & -> & _). cbn. by rewrite Hnet. }
  destruct Hexact as [request_body Hexact].
  destruct (bedrock_request_shape _ _ _ _ _ _ _ _ _ _ Hlm Hfirst Hlf Hrun)
    as [Hsame|(lc' & copies & turns & sj' & hs & Hnet' & Hshape)].
  { exfalso. rewrite Hsame in Hexact. apply (f_equal length) in Hexact.
    rewrite length_app in Hexact. cbn in Hexact. lia. }
  rewrite Hnet' in Hexact. apply app_inv_head in Hexact. injection Hexact as _ ->.
  exists lc', copies, turns, sj', (heap w1). cbn [snd]. by rewrite Htr.
Qed.
End well_formed_conversation.

(** * A malformed image part stops the translation *)

Lemma image_part_malformed_subseteq (h h' : gmap loc obj) p :
  h ⊆ h' → image_part_malformed h p → image_part_malformed h' p.
Proof.
  intros Hsub (dp & u & du & url & Hp & Hty & Hu & Hdu & Hurl & Hno).
  exists dp, u, du, url. split_and!; try done; by eapply lookup_weaken.
Qed.

(** A visit that completes was not the visit of the malformed part, and
    leaves it as it is. *)
Lemma malformed_kept_part q w w' p :
  translate_part q w = (Ret tt, w') →
  image_part_malformed (heap w) p → image_part_malformed (heap w') p.
Proof.
  intros H (dp & u & du & url & Hp & Hty & Hu & Hdu & Hurl & Hno).
  apply translate_part_cases in H as [_ [[-> _]|(p' & dp' & -> & Hp' & Hty' & H)]].
  { by exists dp, u, du, url. }
  destruct H as [[[e [=]] _]|(u' & du' & urlv & mt & data & s & _ & Hu' & Hdu' & Hurl' & Hparse &
                              Hs & ->)].
  destruct (decide (p' = p)) as [->|Hne].
  - (* the part itself: its URL would have been parsed *)
    exfalso. rewrite Hp in Hp'. injection Hp' as <-.
    rewrite Hu in Hu'. injection Hu' as <-.
    assert (urlv = VStr url) as ->.
    { destruct (decide (u = p)) as [->|Hup].
      - rewrite lookup_insert_eq in Hdu'. injection Hdu' as <-.
        rewrite retyped_other in Hurl' by done.
        rewrite Hp in Hdu. injection Hdu as <-. congruence.
      - rewrite lookup_insert_ne in Hdu' by done. congruence. }
    by rewrite (parse_data_url_no_comma _ Hno) in Hparse.
  - assert (p ≠ s) by congruence.
    destruct (decide (u = p')) as [->|Hup].
    + exists dp, p', (rewritten dp' s), url.
      rewrite Hp' in Hdu. injection Hdu as <-.
      split_and!; [|done|done| | |done].
      * rewrite !lookup_insert_ne; [done | congruence | done].
      * apply lookup_insert_eq.
      * rewrite rewritten_other; [done |]. unfold rewritten_key. naive_solver.
    + exists dp, u, du, url. split_and!; [|done|done| |done|done].
      * rewrite !lookup_insert_ne; [done | congruence | done].
      * rewrite !lookup_insert_ne; [done | congruence | done].
Qed.

Lemma for_each_ret_preserves {A S} (P : world → Prop) (body : A → S → M S) xs :
  (∀ x s w s' w', P w → body x s w = (Ret s', w') → P w') →
  ∀ s w s' w', P w → for_each xs body s w = (Ret s', w') → P w'.
Proof.
  intros Hbody. induction xs as [|x xs IH]; intros s w s' w' HP H.
  - by injection H as <- <-.
  - cbn [for_each] in H. apply bind_ret_inv in H as (s1 & w1 & H1 & H2).
    eapply IH; [|exact H2]. by eapply Hbody.
Qed.

Lemma malformed_kept_message m w w' p :
  translate_message m w = (Ret tt, w') →
  image_part_malformed (heap w) p → image_part_malformed (heap w') p.
Proof.
  unfold translate_message. intros H Hmal.
  apply bind_ret_inv in H as (v & w1 & Hg & H). apply getitem_inv in Hg as [-> _].
  unfold bind at 1, get_heap at 1 in H.
  destruct (is_list (heap w) v); [|by injection H as <-].
  apply bind_ret_inv in H as (parts & w1 & Hl & H). apply list_elems_inv in Hl as [-> _].
  revert Hmal H. apply (for_each_ret_preserves (λ w, image_part_malformed (heap w) p)).
  intros q [] w0 [] w0' Hm Hq. by eapply malformed_kept_part.
Qed.

(** The visit of the malformed part. *)
Lemma malformed_part_raises w p :
  image_part_malformed (heap w) p →
  ∃ w', translate_part (VRef p) w = (Exc IndexError, w') ∧ same_io w w'.
Proof.
  intros (dp & u & du & url & Hp & Hty & Hu & Hdu & Hurl & Hno).
  destruct (translate_part_run _ _ _ _ _ _ Hp Hty Hu Hdu Hurl) as (s & Hs & Hrun).
  rewrite (parse_data_url_no_comma _ Hno) in Hrun. eexists. split; [exact Hrun |].
  apply same_io_with_heap.
Qed.

(** A conversation whose first defect is an image part with a data URL
    without a comma: the messages and the parts before it are well formed,
    the messages after it are dictionaries. *)
Lemma malformed_part_stops_translation lm lf df earlier m dm later cl before p after w :
  heap w !! lm = Some (OList (VRef lf :: earlier ++ VRef m :: later)) →
  heap w !! lf = Some (ODict df) →
  Forall (message_translatable (heap w)) earlier →
  Forall (λ v, ∃ l d, v = VRef l ∧ heap w !! l = Some (ODict d)) later →
  heap w !! m = Some (ODict dm) →
  dict_get "content" dm = Some (VRef cl) →
  heap w !! cl = Some (OList (before ++ VRef p :: after)) →
  Forall (part_translatable (heap w)) before →
  image_part_malformed (heap w) p →
  ∃ w1, translate_messages (VRef lm) w = (Exc IndexError, w1).
Proof.
  intros Hlm Hlf Hearlier Hlater Hm Hcontent Hcl Hbefore Hmal.
  unfold translate_messages.
  rewrite (bind_run _ _ _ _ _ (list_elems_list _ _ _ Hlm)).
  unfold bind at 1, lift at 1, py_index. cbn [lookup list_lookup].
  unfold bind at 1, dict_method_get at 1. rewrite Hlf. cbn [tail].
  destruct (copy_all_run (earlier ++ VRef m :: later) w) as (copies & wc & Hcopies).
  { apply Forall_app. split; [|by constructor; eauto].
    eapply Forall_impl; [exact Hearlier |]. apply message_translatable_dict. }
  pose proof (copy_all_spec _ _ _ _ Hcopies) as (_ & Hsub & _).
  pose proof (copy_all_dicts _ _ _ _ Hcopies) as Hdicts.
  rewrite (bind_run _ _ _ _ _ Hcopies).
  destruct (alloc_run (OList copies) wc) as (lc & Hlc & Halloc).
  rewrite (bind_run _ _ _ _ _ Halloc).
  set (w0 := with_heap wc (<[lc := OList copies]> (heap wc))).
  assert (Hsub0 : heap w ⊆ heap w0).
  { etrans; [exact Hsub |]. by apply insert_subseteq. }
  assert (Hsubc : heap wc ⊆ heap w0) by (by apply insert_subseteq).
  apply Forall2_app_inv_l in Hdicts as (cs1 & cs2 & Hd1 & Hd2 & ->).
  apply Forall2_cons_inv_l in Hd2 as (c & cs3 & (l & lcm & d & [= <-] & -> & Hl & Hlcm) & _ & ->).
  pose proof (lookup_weaken _ _ _ _ Hm Hsub) as Hm'. rewrite Hl in Hm'. injection Hm' as ->.
  (* the copies of the earlier messages are visited *)
  destruct (messages_loop_visits cs1 w0) as (wa & Hloop1 & Hva).
  { apply Forall_forall. intros c Hc.
    apply list_elem_of_lookup in Hc as [i Hi].
    destruct (Forall2_lookup_r _ _ _ _ _ Hd1 Hi)
      as (m' & Hm' & l' & lc' & d' & -> & -> & Hl' & Hlc').
    apply (translatable_of_same_dict _ (VRef l') _ l' lc' d'); [done | done | | |].
    - by eapply lookup_weaken.
    - by eapply lookup_weaken.
    - eapply (message_translatable_kept (heap w)).
      + by apply image_rewrites_subseteq.
      + rewrite Forall_forall in Hearlier. apply Hearlier. by eapply list_elem_of_lookup_2. }
  pose proof (visits_image_rewrites _ _ Hva) as HRa.
  assert (HRwa : image_rewrites (heap w) (heap wa)).
  { eapply image_rewrites_trans; [by apply image_rewrites_subseteq | done]. }
  assert (Hmala : image_part_malformed (heap wa) p).
  { revert Hloop1. apply (for_each_ret_preserves (λ w, image_part_malformed (heap w) p)).
    - intros c [] w1 [] w1' Hp Hc. by eapply malformed_kept_message.
    - cbn. by apply (image_part_malformed_subseteq (heap w)). }
  (* the copy of the message that holds the part *)
  destruct (image_rewrites_dict _ _ _ _ HRa (lookup_weaken _ _ _ _ Hlcm Hsubc))
    as (dca & Hlcma & Hca).
  rewrite Hcontent in Hca.
  pose proof (image_rewrites_list _ _ _ _ HRwa Hcl) as Hcla.
  destruct (for_each_total visits (λ q w, part_translatable (heap w) q)
              (λ part (_ : unit), translate_part part) before
              visits_refl visits_trans) with (w := wa) as (wb & Hloop2 & Hvb).
  { intros. by apply translate_part_visits. }
  { intros q w1 w2 Hq HR. eapply part_translatable_kept; [|done].
    by apply visits_image_rewrites. }
  { eapply Forall_impl; [exact Hbefore |]. intros q. by apply part_translatable_kept. }
  assert (Hmalb : image_part_malformed (heap wb) p).
  { revert Hmala Hloop2. apply (for_each_ret_preserves (λ w, image_part_malformed (heap w) p)).
    intros q [] w1 [] w1' Hp Hq. by eapply malformed_kept_part. }
  destruct (malformed_part_raises _ _ Hmalb) as (wf & Hraise & _).
  assert (Hmsg : translate_message (VRef lcm) wa = (Exc IndexError, wf)).
  { unfold translate_message.
    rewrite (bind_run _ _ _ _ _ (getitem_some _ _ _ _ _ Hlcma Hca)).
    unfold bind at 1, get_heap at 1. cbn [is_list]. rewrite Hcla.
    rewrite (bind_run _ _ _ _ _ (list_elems_list _ _ _ Hcla)).
    rewrite for_each_app, Hloop2. cbn [for_each]. by rewrite (bind_exc _ _ _ _ _ Hraise). }
  assert (Hloop : for_each (cs1 ++ VRef lcm :: cs3)
                    (λ message (_ : unit), translate_message message) tt w0
                  = (Exc IndexError, wf)).
  { rewrite for_each_app, Hloop1. cbn [for_each]. by rewrite (bind_exc _ _ _ _ _ Hmsg). }
  rewrite (bind_exc _ _ _ _ _ Hloop). by eexists.
Qed.

(** * The properties of the specification, continued *)

(** C7: [convert_frontend_str_to_llm] maps the two legacy short names
    ["gpt_4_vision"] and ["claude_3_sonnet"] to their models, maps the value
    of a member of [Llm] to that member, and raises the [ValueError] of the
    enumeration's lookup (the InvalidModel condition) on every other string;
    it is a pure function, so nothing has reached the network when it
    fails.  The message of the error is Python's: the [repr] of the string,
    whatever that is, followed by [" is not a valid Llm"]. *)
Theorem convert_frontend_str_to_llm_closed (repr : string → string) :
  convert_frontend_str_to_llm repr "gpt_4_vision" = Ret GPT_4_VISION ∧
  convert_frontend_str_to_llm repr "claude_3_sonnet" = Ret CLAUDE_3_SONNET ∧
  ∀ s,
    match convert_frontend_str_to_llm repr s with
    | Ret m =>
        (s = "gpt_4_vision" ∧ m = GPT_4_VISION) ∨
        (s = "claude_3_sonnet" ∧ m = CLAUDE_3_SONNET) ∨
        Llm_value m = s
    | Exc e =>
        e = ValueError (repr s +:+ " is not a valid Llm") ∧
        s ≠ "gpt_4_vision" ∧ s ≠ "claude_3_sonnet" ∧ ∀ m, Llm_value m ≠ s
    end.
Proof.
  split; [done |]. split; [done |]. intros s. unfold convert_frontend_str_to_llm.
  destruct (String.eqb_spec s "gpt_4_vision") as [->|Hg]; [by left |].
  destruct (String.eqb_spec s "claude_3_sonnet") as [->|Hc]; [by right; left |].
  unfold Llm_of_value, Llm_members. cbn [List.find Llm_value].
  repeat (match goal with
          | |- context [String.eqb ?a s] =>
              destruct (String.eqb_spec a s) as [<-|?]; [by right; right |]
          end).
  split_and!; try done. by intros [].
Qed.

(** C5: on a list of N messages whose first message is a dictionary and
    whose other messages are well formed, a single-pass native call issues
    a request, whatever the transport answers, and so does a managed-gateway
    call when the conversation can be serialised.  The request carries the
    content of the first message as its one system prompt and a list of
    exactly N-1 turns; every turn is a new object made from the message at
    the same position of the tail, so the first message is not among them.
    On any other list, a request that is issued has this shape too. *)
Theorem translated_request_shape w lm ms lf df :
  heap w !! lm = Some (OList ms) →
  ms !! 0 = Some (VRef lf) →
  heap w !! lf = Some (ODict df) →
  (Forall (message_translatable (heap w)) (tail ms) →
   (∀ transport api_key,
      ∃ lc copies hs,
        net (stream_claude_response transport (VRef lm) api_key w).2
        = net w ++
          [Sent (AnthropicRequest api_key "claude-3-sonnet-20240229" 4096 (VFloat 0 (-1))
                   (default VNone (dict_get "content" df)) (VRef lc)) hs] ∧
        hs !! lc = Some (OList copies) ∧
        length copies = length ms - 1 ∧
        Forall2 (turn_of (heap w) hs) (tail ms) copies) ∧
   (∀ n transport access_key secret_access_key,
      serialisable n (heap w) (VRef lm) = true →
      ∃ lc copies turns system_json hs,
        net (stream_claude_response_aws_bedrock transport (VRef lm) access_key
               secret_access_key w).2
        = net w ++
          [Sent (BedrockRequest access_key secret_access_key
                   (JObj [("anthropic_version", JStr "bedrock-2023-05-31");
                          ("max_tokens", JInt 4096);
                          ("messages", JList turns);
                          ("system", system_json);
                          ("temperature", JFloat 0 (-1))])
                   "anthropic.claude-3-sonnet-20240229-v1:0" "*/*" "application/json") hs] ∧
        json_dumps hs (default VNone (dict_get "content" df)) = Ret system_json ∧
        hs !! lc = Some (OList copies) ∧
        json_dumps hs (VRef lc) = Ret (JList turns) ∧
        length turns = length ms - 1 ∧
        Forall2 (turn_of (heap w) hs) (tail ms) copies)) ∧
  (∀ transport api_key r w',
     stream_claude_response transport (VRef lm) api_key w = (r, w') →
     net w' = net w ∨
     ∃ lc copies hs,
       net w' = net w ++
         [Sent (AnthropicRequest api_key "claude-3-sonnet-20240229" 4096 (VFloat 0 (-1))
                  (default VNone (dict_get "content" df)) (VRef lc)) hs] ∧
       hs !! lc = Some (OList copies) ∧
       length copies = length ms - 1 ∧
       Forall2 (turn_of (heap w) hs) (tail ms) copies) ∧
  (∀ transport access_key secret_access_key r w',
     stream_claude_response_aws_bedrock transport (VRef lm) access_key secret_access_key w
     = (r, w') →
     net w' = net w ∨
     ∃ lc copies turns system_json hs,
       net w' = net w ++
         [Sent (BedrockRequest access_key secret_access_key
                  (JObj [("anthropic_version", JStr "bedrock-2023-05-31");
                         ("max_tokens", JInt 4096);
                         ("messages", JList turns);
                         ("system", system_json);
                         ("temperature", JFloat 0 (-1))])
                  "anthropic.claude-3-sonnet-20240229-v1:0" "*/*" "application/json") hs] ∧
       json_dumps hs (default VNone (dict_get "content" df)) = Ret system_json ∧
       hs !! lc = Some (OList copies) ∧
       json_dumps hs (VRef lc) = Ret (JList turns) ∧
       length turns = length ms - 1 ∧
       Forall2 (turn_of (heap w) hs) (tail ms) copies).
Proof.
  intros Hlm Hfirst Hlf. split_and!.
  - intros Hall. split.
    + intros transport api_key.
      destruct (native_request_issued w lm ms lf df Hlm Hfirst Hlf Hall transport api_key)
        as (lc & copies & hs & Hnet & _ & _ & Hrest).
      by exists lc, copies, hs.
    + intros n transport access_key secret_access_key Hser.
      destruct (bedrock_request_issued w lm ms lf df Hlm Hfirst Hlf Hall n transport
                  access_key secret_access_key Hser)
        as (lc & copies & turns & sj & hs & Hnet & _ & _ & Hrest).
      by exists lc, copies, turns, sj, hs.
  - intros. by eapply native_request_shape.
  - intros. by eapply bedrock_request_shape.
Qed.

(** The conversation of the example store is well formed. *)
Lemma example_store_translatable :
  Forall (message_translatable example_store) [VRef 3].
Proof.
  constructor; [|constructor].
  exists 3%positive, [("role", VStr "user"); ("content", VRef 4)], (VRef 4).
  split_and!; [reflexivity..|].
  intros lv parts [= <-] [= <-].
  constructor; [|constructor; [|constructor]].
  - left. exists 5%positive, [("type", VStr "text"); ("text", VStr "Build this page.")],
      (VStr "text"). by split_and!.
  - right. exists 6%positive, [("type", VStr "image_url"); ("image_url", VRef 7)], 7%positive,
      [("url", VStr "data:image/png;base64,AAAA"); ("detail", VStr "high")],
      "data:image/png;base64,AAAA", "image/png", "AAAA".
    by split_and!.
Defined.

Lemma translated_request_shape_witness :
  (∃ lc copies hs,
     net (stream_claude_response (text_transport ["Hi"] [TextBlock "Hi"]) (VRef 1) "key"
            (world_of example_store)).2
     = net (world_of example_store) ++
       [Sent (AnthropicRequest "key" "claude-3-sonnet-20240229" 4096 (VFloat 0 (-1))
                (default VNone (dict_get "content"
                   [("role", VStr "system"); ("content", VStr "You are an expert.")]))
                (VRef lc)) hs] ∧
     hs !! lc = Some (OList copies) ∧
     length copies = length [VRef 2; VRef 3] - 1 ∧
     Forall2 (turn_of (heap (world_of example_store)) hs) (tail [VRef 2; VRef 3]) copies) ∧
  (∃ lc copies turns system_json hs,
     net (stream_claude_response_aws_bedrock denied_transport (VRef 1) "id" "secret"
            (world_of example_store)).2
     = net (world_of example_store) ++
       [Sent (BedrockRequest "id" "secret"
                (JObj [("anthropic_version", JStr "bedrock-2023-05-31");
                       ("max_tokens", JInt 4096);
                       ("messages", JList turns);
                       ("system", system_json);
                       ("temperature", JFloat 0 (-1))])
                "anthropic.claude-3-sonnet-20240229-v1:0" "*/*" "application/json") hs] ∧
     json_dumps hs (default VNone (dict_get "content"
                      [("role", VStr "system"); ("content", VStr "You are an expert.")]))
     = Ret system_json ∧
     hs !! lc = Some (OList copies) ∧
     json_dumps hs (VRef lc) = Ret (JList turns) ∧
     length turns = length [VRef 2; VRef 3] - 1 ∧
     Forall2 (turn_of (heap (world_of example_store)) hs) (tail [VRef 2; VRef 3]) copies).
Proof.
  destruct (translated_request_shape (world_of example_store) 1%positive
              [VRef 2; VRef 3] 2%positive
              [("role", VStr "system"); ("content", VStr "You are an expert.")]
              eq_refl eq_refl eq_refl) as [Hissued _].
  destruct (Hissued example_store_translatable) as [Hnative Hgateway].
  split.
  - exact (Hnative (text_transport ["Hi"] [TextBlock "Hi"]) "key").
  - apply (Hgateway 5 denied_transport "id" "secret"). vm_compute. reflexivity.
Defined.

(** An image part of a well-formed conversation reaches the request
    rewritten. *)
Lemma well_formed_part_in_request w lm ms lf df i m dm cl parts p dp u du url
    media_type payload :
  heap w !! lm = Some (OList ms) →
  ms !! 0 = Some (VRef lf) →
  heap w !! lf = Some (ODict df) →
  Forall (message_translatable (heap w)) (tail ms) →
  ms !! S i = Some (VRef m) → heap w !! m = Some (ODict dm) →
  dict_get "content" dm = Some (VRef cl) → heap w !! cl = Some (OList parts) →
  VRef p ∈ parts → heap w !! p = Some (ODict dp) →
  dict_get "type" dp = Some (VStr "image_url") →
  dict_get "image_url" dp = Some (VRef u) →
  heap w !! u = Some (ODict du) →
  dict_get "url" du = Some (VStr url) →
  well_formed_data_url url media_type payload →
  (∀ transport api_key,
     ∃ request hs s,
       net (stream_claude_response transport (VRef lm) api_key w).2
       = net w ++ [Sent request hs] ∧
       heap w !! s = None ∧
       hs !! p = Some (ODict (rewritten dp s)) ∧
       hs !! s = Some (source_dict media_type payload)) ∧
  (∀ n transport access_key secret_access_key,
     serialisable n (heap w) (VRef lm) = true →
     ∃ request hs s,
       net (stream_claude_response_aws_bedrock transport (VRef lm) access_key
              secret_access_key w).2
       = net w ++ [Sent request hs] ∧
       heap w !! s = None ∧
       hs !! p = Some (ODict (rewritten dp s)) ∧
       hs !! s = Some (source_dict media_type payload)).
Proof.
  intros Hlm Hfirst Hlf Hall Hm Hdm Hcontent Hcl Hin Hp Hty Hu Hdu Hurl Hwf.
  destruct (translation_completes w lm ms lf df Hlm Hfirst Hlf Hall)
    as (lc & copies & w1 & Htr & _).
  destruct (translate_messages_rewrites_part _ _ _ _ _ _ _ _ _ _ _ _ _ _
              Htr eq_refl Hlm Hm Hdm Hcontent Hcl Hin Hp Hty)
    as (s & mt & data & Hs & Hp1 & Hs1 & Hparse).
  specialize (Hparse _ _ _ Hu Hdu Hurl).
  rewrite (well_formed_data_url_parse _ _ _ Hwf) in Hparse. injection Hparse as <- <-.
  split.
  - intros transport api_key.
    destruct (native_request_issued w lm ms lf df Hlm Hfirst Hlf Hall transport api_key)
      as (lc' & copies' & hs & Hnet & _ & Hhs & _).
    rewrite Htr in Hhs. cbn in Hhs. subst hs. eexists _, (heap w1), s. by split_and!.
  - intros n transport access_key secret_access_key Hser.
    destruct (bedrock_request_issued w lm ms lf df Hlm Hfirst Hlf Hall n transport
                access_key secret_access_key Hser)
      as (lc' & copies' & turns & sj & hs & Hnet & _ & Hhs & _).
    rewrite Htr in Hhs. cbn in Hhs. subst hs. eexists _, (heap w1), s. by split_and!.
Qed.

(** A conversation whose first defect is an image part with a data URL
    without a comma stops both adapters before the network. *)
Lemma malformed_part_before_network lm lf df earlier m dm later cl before p after w :
  heap w !! lm = Some (OList (VRef lf :: earlier ++ VRef m :: later)) →
  heap w !! lf = Some (ODict df) →
  Forall (message_translatable (heap w)) earlier →
  Forall (λ v, ∃ l d, v = VRef l ∧ heap w !! l = Some (ODict d)) later →
  heap w !! m = Some (ODict dm) →
  dict_get "content" dm = Some (VRef cl) →
  heap w !! cl = Some (OList (before ++ VRef p :: after)) →
  Forall (part_translatable (heap w)) before →
  image_part_malformed (heap w) p →
  (∀ transport api_key,
     ∃ w', stream_claude_response transport (VRef lm) api_key w = (Exc IndexError, w') ∧
           net w' = net w ∧ sink w' = sink w) ∧
  (∀ transport access_key secret_access_key,
     ∃ w', stream_claude_response_aws_bedrock transport (VRef lm) access_key
             secret_access_key w = (Exc IndexError, w') ∧
           net w' = net w ∧ sink w' = sink w).
Proof.
  intros Hlm Hlf Hearlier Hlater Hm Hcontent Hcl Hbefore Hmal.
  destruct (malformed_part_stops_translation _ _ _ _ _ _ _ _ _ _ _ _
              Hlm Hlf Hearlier Hlater Hm Hcontent Hcl Hbefore Hmal) as [w1 Htr].
  destruct (failed_translation_before_network _ _ _ Htr) as (Hn & Hs & Hnat & Hbed).
  split.
  - intros. exists w1. by rewrite Hnat.
  - intros transport access_key secret_access_key.
    destruct (Hbed transport access_key secret_access_key) as (w2 & -> & ? & ?). by exists w2.
Qed.

(** C6: an image part whose data URL is [data:<media-type>;base64,<payload>]
    (no [;], [:] or [,] inside the media type, no [,] inside the payload) is
    rewritten with a new source dictionary holding exactly that media type
    and that payload, as for ["data:image/png;base64,AAAA"], and a data URL
    without a comma makes the visit of the part raise [IndexError] (the
    MalformedInput condition).  In the adapters: the image parts of a
    well-formed conversation are in the store of the request that is
    issued, rewritten with the media type and the payload of their URL; and
    a conversation whose first defect is an image part with a data URL
    without a comma ends either adapter with [IndexError], whatever the
    transport, before any request is issued and before the sink is
    called. *)
Theorem data_url_translation :
  (∀ w p dp u du media_type payload,
     heap w !! p = Some (ODict dp) →
     dict_get "type" dp = Some (VStr "image_url") →
     dict_get "image_url" dp = Some (VRef u) →
     heap w !! u = Some (ODict du) →
     dict_get "url" du = Some (VStr ("data:" +:+ media_type +:+ ";base64," +:+ payload)) →
     contains_char ";" media_type = false →
     contains_char ":" media_type = false →
     contains_char "," media_type = false →
     contains_char "," payload = false →
     ∃ s w', translate_part (VRef p) w = (Ret tt, w') ∧
             heap w !! s = None ∧
             heap w' !! p = Some (ODict (rewritten dp s)) ∧
             heap w' !! s = Some (source_dict media_type payload)) ∧
  parse_data_url (VStr "data:image/png;base64,AAAA") = Ret ("image/png", "AAAA") ∧
  (∀ w p dp u du url,
     heap w !! p = Some (ODict dp) →
     dict_get "type" dp = Some (VStr "image_url") →
     dict_get "image_url" dp = Some (VRef u) →
     heap w !! u = Some (ODict du) →
     dict_get "url" du = Some (VStr url) →
     contains_char "," url = false →
     ∃ w', translate_part (VRef p) w = (Exc IndexError, w') ∧
           net w' = net w ∧ sink w' = sink w) ∧
  (∀ w lm ms lf df i m dm cl parts p dp u du url media_type payload,
     heap w !! lm = Some (OList ms) →
     ms !! 0 = Some (VRef lf) →
     heap w !! lf = Some (ODict df) →
     Forall (message_translatable (heap w)) (tail ms) →
     ms !! S i = Some (VRef m) → heap w !! m = Some (ODict dm) →
     dict_get "content" dm = Some (VRef cl) → heap w !! cl = Some (OList parts) →
     VRef p ∈ parts → heap w !! p = Some (ODict dp) →
     dict_get "type" dp = Some (VStr "image_url") →
     dict_get "image_url" dp = Some (VRef u) →
     heap w !! u = Some (ODict du) →
     dict_get "url" du = Some (VStr url) →
     well_formed_data_url url media_type payload →
     (∀ transport api_key,
        ∃ request hs s,
          net (stream_claude_response transport (VRef lm) api_key w).2
          = net w ++ [Sent request hs] ∧
          heap w !! s = None ∧
          hs !! p = Some (ODict (rewritten dp s)) ∧
          hs !! s = Some (source_dict media_type payload)) ∧
     (∀ n transport access_key secret_access_key,
        serialisable n (heap w) (VRef lm) = true →
        ∃ request hs s,
          net (stream_claude_response_aws_bedrock transport (VRef lm) access_key
                 secret_access_key w).2
          = net w ++ [Sent request hs] ∧
          heap w !! s = None ∧
          hs !! p = Some (ODict (rewritten dp s)) ∧
          hs !! s = Some (source_dict media_type payload))) ∧
  (∀ w lm lf df earlier m dm later cl before p after,
     heap w !! lm = Some (OList (VRef lf :: earlier ++ VRef m :: later)) →
     heap w !! lf = Some (ODict df) →
     Forall (message_translatable (heap w)) earlier →
     Forall (λ v, ∃ l d, v = VRef l ∧ heap w !! l = Some (ODict d)) later →
     heap w !! m = Some (ODict dm) →
     dict_get "content" dm = Some (VRef cl) →
     heap w !! cl = Some (OList (before ++ VRef p :: after)) →
     Forall (part_translatable (heap w)) before →
     image_part_malformed (heap w) p →
     (∀ transport api_key,
        ∃ w', stream_claude_response transport (VRef lm) api_key w = (Exc IndexError, w') ∧
              net w' = net w ∧ sink w' = sink w) ∧
     (∀ transport access_key secret_access_key,
        ∃ w', stream_claude_response_aws_bedrock transport (VRef lm) access_key
                secret_access_key w = (Exc IndexError, w') ∧
              net w' = net w ∧ sink w' = sink w)).
Proof.
  split_and!.
  - apply translate_part_well_formed.
  - reflexivity.
  - apply translate_part_no_comma.
  - intros *. apply well_formed_part_in_request.
  - intros *. apply malformed_part_before_network.
Qed.

Lemma data_url_translation_witness :
  (∀ transport api_key,
     ∃ request hs s,
       net (stream_claude_response transport (VRef 1) api_key (world_of example_store)).2
       = net (world_of example_store) ++ [Sent request hs] ∧
       heap (world_of example_store) !! s = None ∧
       hs !! 6%positive
       = Some (ODict (rewritten [("type", VStr "image_url"); ("image_url", VRef 7)] s)) ∧
       hs !! s = Some (source_dict "image/png" "AAAA")) ∧
  (∀ transport api_key,
     ∃ w', stream_claude_response transport (VRef 1) api_key (world_of malformed_store)
           = (Exc IndexError, w') ∧
           net w' = net (world_of malformed_store) ∧
           sink w' = sink (world_of malformed_store)).
Proof.
  destruct data_url_translation as (_ & _ & _ & Hreaches & Hstops). split.
  - apply (Hreaches (world_of example_store) 1%positive [VRef 2; VRef 3] 2%positive
             [("role", VStr "system"); ("content", VStr "You are an expert.")]
             0 3%positive [("role", VStr "user"); ("content", VRef 4)]
             4%positive [VRef 5; VRef 6] 6%positive
             [("type", VStr "image_url"); ("image_url", VRef 7)] 7%positive
             [("url", VStr "data:image/png;base64,AAAA"); ("detail", VStr "high")]
             "data:image/png;base64,AAAA" "image/png" "AAAA").
    + reflexivity.
    + reflexivity.
    + reflexivity.
    + exact example_store_translatable.
    + reflexivity.
    + reflexivity.
    + reflexivity.
    + reflexivity.
    + apply list_elem_of_further, list_elem_of_here.
    + reflexivity.
    + reflexivity.
    + reflexivity.
    + reflexivity.
    + reflexivity.
    + by split_and!.
  - apply (Hstops (world_of malformed_store) 1%positive 2%positive
             [("role", VStr "system"); ("content", VStr "You are an expert.")]
             [] 3%positive [("role", VStr "user"); ("content", VRef 4)] []
             4%positive [VRef 5] 6%positive []).
    + reflexivity.
    + reflexivity.
    + constructor.
    + constructor.
    + reflexivity.
    + reflexivity.
    + reflexivity.
    + constructor; [|constructor]. left.
      exists 5%positive, [("type", VStr "text"); ("text", VStr "Build this page.")],
        (VStr "text"). by split_and!.
    + exists [("type", VStr "image_url"); ("image_url", VRef 7)], 7%positive,
        [("url", VStr "data:image/png;base64"); ("detail", VStr "high")],
        "data:image/png;base64". by split_and!.
Defined.

(** The sink of a native-SDK call on a well-formed conversation. *)
Lemma native_sink_total w lm ms lf df transport api_key :
  heap w !! lm = Some (OList ms) →
  ms !! 0 = Some (VRef lf) →
  heap w !! lf = Some (ODict df) →
  Forall (message_translatable (heap w)) (tail ms) →
  ∃ ws request,
    net ws = net w ++ [Sent request (heap ws)] ∧
    sink ws = sink w ∧
    match transport ws with
    | Ret stream =>
        sink (stream_claude_response transport (VRef lm) api_key w).2
        = sink w ++ (JStr <$> items (text_stream stream))
    | Exc e =>
        (stream_claude_response transport (VRef lm) api_key w).1 = Exc e ∧
        sink (stream_claude_response transport (VRef lm) api_key w).2 = sink w
    end.
Proof.
  intros Hlm Hfirst Hlf Hall.
  destruct (translation_completes w lm ms lf df Hlm Hfirst Hlf Hall)
    as (lc & copies & w1 & Htr & (Hsink & _ & Hnet & _) & _).
  rewrite (stream_claude_response_run _ _ _ _ _ _ _ Htr). cbv zeta.
  match goal with |- context [transport ?x] => exists x end.
  eexists. split_and!.
  - cbn. by rewrite Hnet.
  - done.
  - destruct (transport _); cbn; by rewrite Hsink.
Qed.

(** C9: in a single streaming call the sink is called once for each
    text-bearing event, in order.  In the direct-API variant every chunk is
    one: a call that returns has delivered one increment per chunk, the
    empty string for a chunk without content; a call that fails has
    delivered those of the chunks before the failure.  In the
    managed-gateway variant only content-delta events are: the sink receives
    the texts of those events and of no other, so a call that returns has
    called it as many times as the stream has content-delta events.  In the
    native-SDK variant a call that returns has delivered every text of the
    stream the transport gave it, in order; on a well-formed conversation
    the call reaches the transport, and then delivers every text of the
    stream, or ends with the transport's exception and the sink untouched;
    and whatever the outcome the sink receives texts of the stream only. *)
Theorem sink_called_once_per_text_event :
  (∀ transport messages api_key base_url model w text w',
     stream_openai_response transport messages api_key base_url model w = (Ret text, w') →
     ∃ ws stream incs,
       transport ws = Ret stream ∧
       Forall2 (λ chunk inc, chunk_increment chunk = Some inc) (items stream) incs ∧
       sink w' = sink w ++ (JStr <$> incs) ∧
       length incs = length (items stream)) ∧
  (∀ transport messages api_key base_url model w r w',
     stream_openai_response transport messages api_key base_url model w = (r, w') →
     ∃ chunks incs,
       sink w' = sink w ++ (JStr <$> incs) ∧
       Forall2 (λ chunk inc, chunk_increment chunk = Some inc) chunks incs ∧
       (chunks = [] ∨
        ∃ ws stream, transport ws = Ret stream ∧ chunks `prefix_of` items stream)) ∧
  (∀ chunk c,
     choices chunk !! 0 = Some c →
     delta_content c = None ∨ delta_content c = Some "" →
     chunk_increment chunk = Some "") ∧
  (∀ transport messages access_key secret_access_key w text w',
     stream_claude_response_aws_bedrock transport messages access_key secret_access_key w
     = (Ret (Some text), w') →
     ∃ ws response events incs,
       transport ws = Ret response ∧
       events = match body response with Some stream => items stream | None => [] end ∧
       omap event_text events = JStr <$> incs ∧
       sink w' = sink w ++ (JStr <$> incs) ∧
       length incs = length (filter (λ ev, is_content_delta ev = true) events)) ∧
  (∀ transport messages access_key secret_access_key w r w',
     stream_claude_response_aws_bedrock transport messages access_key secret_access_key w
     = (r, w') →
     ∃ events,
       sink w' = sink w ++ omap event_text events ∧
       (events = [] ∨
        ∃ ws response stream,
          transport ws = Ret response ∧ body response = Some stream ∧
          events `prefix_of` items stream)) ∧
  (∀ ev, is_content_delta ev = false → event_text ev = None) ∧
  (∀ transport messages api_key w text w',
     stream_claude_response transport messages api_key w = (Ret text, w') →
     ∃ ws stream,
       transport ws = Ret stream ∧
       sink w' = sink w ++ (JStr <$> items (text_stream stream)) ∧
       length (sink w') = length (sink w) + length (items (text_stream stream))) ∧
  (∀ w lm ms lf df transport api_key,
     heap w !! lm = Some (OList ms) →
     ms !! 0 = Some (VRef lf) →
     heap w !! lf = Some (ODict df) →
     Forall (message_translatable (heap w)) (tail ms) →
     ∃ ws request,
       net ws = net w ++ [Sent request (heap ws)] ∧
       sink ws = sink w ∧
       match transport ws with
       | Ret stream =>
           sink (stream_claude_response transport (VRef lm) api_key w).2
           = sink w ++ (JStr <$> items (text_stream stream))
       | Exc e =>
           (stream_claude_response transport (VRef lm) api_key w).1 = Exc e ∧
           sink (stream_claude_response transport (VRef lm) api_key w).2 = sink w
       end) ∧
  (∀ transport messages api_key w r w',
     stream_claude_response transport messages api_key w = (r, w') →
     ∃ texts,
       sink w' = sink w ++ (JStr <$> texts) ∧
       (texts = [] ∨
        ∃ ws stream, transport ws = Ret stream ∧ texts = items (text_stream stream))).
Proof.
  split_and!.
  - intros * (ws & stream & incs & ? & Hall & ? & ?)%openai_returns.
    exists ws, stream, incs. split_and!; [done..|]. symmetry. by eapply Forall2_length.
  - intros *. apply openai_sink.
  - intros chunk c Hc Hd. unfold chunk_increment. rewrite Hc. cbn.
    by destruct Hd as [-> | ->].
  - intros * (ws & response & events & incs & ? & ? & ? & ? & ? & ?)%bedrock_returns.
    exists ws, response, events, incs. done.
  - intros *. apply bedrock_sink.
  - apply not_content_delta_no_text.
  - intros * (ws & stream & ? & Hs & _)%native_returns.
    exists ws, stream. split_and!; [done..|].
    by rewrite Hs, length_app, length_fmap.
  - intros *. apply native_sink_total.
  - intros *. apply native_sink.
Qed.

Lemma sink_called_once_per_text_event_witness :
  (∃ ws response events incs,
     event_transport [delta_event "<h"; stop_event; NoChunk; delta_event "tml>"] ws
     = Ret response ∧
     events = match body response with Some stream => items stream | None => [] end ∧
     omap event_text events = JStr <$> incs ∧
     sink (stream_claude_response_aws_bedrock
             (event_transport [delta_event "<h"; stop_event; NoChunk; delta_event "tml>"])
             (VRef 1) "id" "secret" (world_of example_store)).2
     = sink (world_of example_store) ++ (JStr <$> incs) ∧
     length incs = length (filter (λ ev, is_content_delta ev = true) events)) ∧
  sink (stream_claude_response (text_transport ["<h"; "tml>"] [TextBlock "<html>"])
          (VRef 1) "key" (world_of example_store)).2
  = sink (world_of example_store) ++ [JStr "<h"; JStr "tml>"].
Proof.
  split.
  - apply (proj1 (proj2 (proj2 (proj2 sink_called_once_per_text_event)))
             (event_transport [delta_event "<h"; stop_event; NoChunk; delta_event "tml>"])
             (VRef 1) "id" "secret" (world_of example_store) "<html>").
    vm_compute. reflexivity.
  - destruct (proj1 (proj2 (proj2 (proj2 (proj2 (proj2 (proj2
                (proj2 sink_called_once_per_text_event)))))))
                (world_of example_store) 1%positive [VRef 2; VRef 3] 2%positive
                [("role", VStr "system"); ("content", VStr "You are an expert.")]
                (text_transport ["<h"; "tml>"] [TextBlock "<html>"]) "key"
                eq_refl eq_refl eq_refl example_store_translatable)
      as (ws & request & _ & _ & Hsink).
    exact Hsink.
Defined.
